(** * Assimp import dispatcher and animation evaluator: a shallow embedding

    The development follows two translation units of the library:

    - [code/Importer.cpp] (the implementation of the C++ API class
      [Importer], together with the declarations of [BaseImporter.h]):
      I/O handler management, flag validation, [ReadFile], the property
      accessors and the memory accounting of a loaded scene;
    - the viewer's [AnimEvaluator.cpp]: the evaluation of the animation
      tracks at a time stamp.

    Conventions of the embedding.

    - [unsigned int] is a 32-bit integer: a [Z] with the wrap-around written
      out ([wrap32]).  [double] is a binary64 float ([PrimFloat.float]);
      [float] is a binary32 float ([float32]: a [spec_float] with the
      operations at precision 24).
    - A C array with its count field ([mNumMeshes]/[mMeshes], ...) is a
      [list]; the count is the length of the list.  An indexed read is a
      list lookup, and a read outside of the array is undefined behaviour:
      the function that performs it returns [None].
    - Objects that are shared through pointers and compared by address (the
      I/O handlers) live in a store; a pointer is an address, the null
      pointer is [None].
    - The collaborators whose code is in other translation units (the
      format importers, the post-processing steps, the scene preprocessor,
      the data-structure validation, [fmod], [sizeof] of the scene
      structures, ...) are parameters: record fields or section variables.
    - The logger is a process-wide sink that no operation reads back; its
      calls are left out.  The build that is modelled is the release build
      ([_DEBUG] undefined) with the validation step compiled in and
      [ASSIMP_CATCH_GLOBAL_EXCEPTIONS] defined, as the file defines it. *)

From Stdlib Require Import ZArith String Ascii List Lia Bool Floats.
From stdpp Require Import base option list gmap strings.

Local Open Scope Z_scope.
Set Warnings "-register-all".

(** * Machine integers *)

(** Value of an [unsigned int] computation: reduction modulo [2^32]. *)
Definition wrap32 (z : Z) : Z := z mod 2 ^ 32.

(** [for (unsigned int i = first; i < first + n; ++i) body(i)], threading
    the variables that the body updates; a body that reads outside of an
    array stops the whole loop with [None]. *)
Fixpoint for_loop {S : Type} (n : nat) (i : nat)
    (body : nat → S → option S) (s : S) : option S :=
  match n with
  | O => Some s
  | Datatypes.S n' => s' ← body i s; for_loop n' (Datatypes.S i) body s'
  end.

(** * Single precision *)

(** The C++ type [float]: binary32, as the specification floats of the
    standard library with the operations at precision 24 and maximal
    exponent 128. *)
Abbreviation float32 := spec_float (only parsing).

Definition float32_mul : float32 → float32 → float32 := SFmul 24 128.
Definition float32_add : float32 → float32 → float32 := SFadd 24 128.
Definition float32_sub : float32 → float32 → float32 := SFsub 24 128.

Definition float32_0 : float32 := S754_zero false.
Definition float32_1 : float32 := S754_finite false 8388608 (-23).
Definition float32_2 : float32 := S754_finite false 8388608 (-22).

(** * The canonical scene *)

Module Scene.

(** [sizeof] of the public structures and the two array bounds of
    [aiMesh.h].  The declarations are in the public headers; the values
    depend on the platform, so they are a parameter of the accounting. *)
Record Sizeof := {
  sizeof_aiScene : Z;
  sizeof_aiMesh : Z;
  sizeof_aiVector3D : Z;
  sizeof_aiColor4D : Z;
  sizeof_ptr : Z;
  sizeof_aiBone : Z;
  sizeof_aiVertexWeight : Z;
  sizeof_aiFace : Z;
  sizeof_uint : Z;
  sizeof_aiTexture : Z;
  sizeof_aiAnimation : Z;
  sizeof_aiNodeAnim : Z;
  sizeof_aiVectorKey : Z;
  sizeof_aiQuatKey : Z;
  sizeof_aiCamera : Z;
  sizeof_aiLight : Z;
  sizeof_aiNode : Z;
  sizeof_aiMaterial : Z;
  AI_MAX_NUMBER_OF_COLOR_SETS : nat;
  AI_MAX_NUMBER_OF_TEXTURECOORDS : nat
}.

Record aiVector3D := { vx : float32; vy : float32; vz : float32 }.
Record aiQuaternion := { qw : float32; qx : float32; qy : float32; qz : float32 }.

Record aiVectorKey := { vk_mTime : float; vk_mValue : aiVector3D }.
Record aiQuatKey := { qk_mTime : float; qk_mValue : aiQuaternion }.

(** One animation channel: the three key arrays of a node. *)
Record aiNodeAnim := {
  mPositionKeys : list aiVectorKey;
  mRotationKeys : list aiQuatKey;
  mScalingKeys : list aiVectorKey
}.

Definition mNumPositionKeys (c : aiNodeAnim) : nat := length (mPositionKeys c).
Definition mNumRotationKeys (c : aiNodeAnim) : nat := length (mRotationKeys c).
Definition mNumScalingKeys (c : aiNodeAnim) : nat := length (mScalingKeys c).

Record aiAnimation := {
  mDuration : float;
  mTicksPerSecond : float;
  mChannels : list aiNodeAnim
}.

Definition mNumChannels (a : aiAnimation) : nat := length (mChannels a).

Record aiBone := { mNumWeights : Z }.

(** A mesh, as far as the dispatcher looks at it: the counts and the
    [Has...] predicates of [aiMesh.h]. *)
Record aiMesh := {
  mNumVertices : Z;
  mNumFaces : Z;
  HasPositions : bool;
  HasNormals : bool;
  HasTangentsAndBitangents : bool;
  HasVertexColors : nat → bool;
  HasTextureCoords : nat → bool;
  HasBones : bool;
  mBones : list aiBone
}.

Definition mNumBones (m : aiMesh) : nat := length (mBones m).

Record aiTexture := { mWidth : Z; mHeight : Z }.

Record aiMaterialProperty := { mDataLength : Z }.

Record aiMaterial := {
  mNumAllocated : Z;
  mProperties : list aiMaterialProperty
}.

Definition mNumProperties (m : aiMaterial) : nat := length (mProperties m).

(** A node: the number of meshes it references and its children. *)
Inductive aiNode := mk_aiNode (node_mNumMeshes : Z) (mChildren : list aiNode).

Definition node_mNumMeshes (n : aiNode) : Z := let (k, _) := n in k.
Definition mChildren (n : aiNode) : list aiNode := let (_, c) := n in c.
Definition mNumChildren (n : aiNode) : nat := length (mChildren n).

Record aiScene := {
  mRootNode : aiNode;
  mMeshes : list aiMesh;
  mMaterials : list aiMaterial;
  mAnimations : list aiAnimation;
  mTextures : list aiTexture;
  mNumCameras : Z;
  mNumLights : Z
}.

Definition mNumMeshes (s : aiScene) : nat := length (mMeshes s).
Definition mNumMaterials (s : aiScene) : nat := length (mMaterials s).
Definition mNumAnimations (s : aiScene) : nat := length (mAnimations s).
Definition mNumTextures (s : aiScene) : nat := length (mTextures s).

(** [aiMemoryInfo]: every field is an [unsigned int]; the default
    constructor zeroes them. *)
Record aiMemoryInfo := {
  textures : Z;
  materials : Z;
  meshes : Z;
  nodes : Z;
  animations : Z;
  cameras : Z;
  lights : Z;
  total : Z
}.

Definition aiMemoryInfo_new : aiMemoryInfo :=
  {| textures := 0; materials := 0; meshes := 0; nodes := 0;
     animations := 0; cameras := 0; lights := 0; total := 0 |}.

End Scene.

Import Scene.

(** * The collaborators of the dispatcher *)

(** An I/O system: what [Exists] answers, and whether the object is a
    [DefaultIOSystem] (its dynamic type). *)
Record IOSystem := {
  Exists : string → bool;
  is_DefaultIOSystem : bool
}.

(** Addresses of I/O systems, and the store they live in.  [new] takes an
    address that is not in use, [delete] removes the object. *)
Abbreviation IOSystemPtr := nat (only parsing).
Abbreviation IOStore := (gmap nat IOSystem) (only parsing).

(** [BatchLoader::PropertyMap]: the three property tables. *)
Record PropertyMap := {
  ints : gmap string Z;
  floats : gmap string float32;
  strings : gmap string string
}.

(** What [BaseImporter::ReadFile] gives back, as its documentation in
    [BaseImporter.h] has it: the imported data, or [NULL] with the text that
    [GetErrorText] then returns (an [ImportErrorException] of
    [InternReadFile] was caught); an exception of another type leaves the
    function. *)
Inductive ReadOutcome :=
| Imported (scene : aiScene)
| ImportFailed (mErrorText : string)
| ImportThrew (what : string).

(** A format importer.  [SetupProperties] hands the property tables of
    the dispatcher to the importer before the decode, so the decode is a
    function of them.  [CanRead] gets the I/O handler, or [None] where the
    caller passes [NULL]. *)
Record BaseImporter := {
  CanRead : string → option IOSystem → bool → bool;
  BaseImporter_ReadFile : PropertyMap → string → IOSystem → ReadOutcome
}.

(** Modelled from the spec: [BaseProcess::ExecuteOnScene] is in another
    translation unit.  The specification has a stage read the current
    scene and mutate it, and on a catastrophic failure null the scene
    pointer of the dispatcher and set its error string: the scene is
    rewritten, or the step fails fatally with a text.  An exception of
    another type may leave the step; the [try] block of [ReadFile] is there
    to catch it. *)
Inductive ProcessOutcome :=
| Processed (scene : aiScene)
| ProcessFailed (text : string)
| ProcessThrew (what : string).

(** A post-processing step. *)
Record BaseProcess := {
  IsActive : Z → bool;
  ExecuteOnScene : PropertyMap → aiScene → ProcessOutcome
}.

(** The three flags of [aiPostProcess.h] that the dispatcher names. *)
Record aiPostProcessSteps := {
  aiProcess_GenNormals : Z;
  aiProcess_GenSmoothNormals : Z;
  aiProcess_ValidateDataStructure : Z
}.

(** * The dispatcher *)

Record Importer := {
  mIOHandler : IOSystemPtr;
  mIsDefaultHandler : bool;
  mImporter : list BaseImporter;
  mPostProcessingSteps : list BaseProcess;
  mScene : option aiScene;
  mErrorString : string;
  mIntProperties : gmap string Z;
  mFloatProperties : gmap string float32;
  mStringProperties : gmap string string;
  bExtraVerbose : bool
}.

Definition set_IOHandler (this : Importer) (p : IOSystemPtr) (d : bool) : Importer :=
  {| mIOHandler := p; mIsDefaultHandler := d;
     mImporter := mImporter this;
     mPostProcessingSteps := mPostProcessingSteps this;
     mScene := mScene this; mErrorString := mErrorString this;
     mIntProperties := mIntProperties this;
     mFloatProperties := mFloatProperties this;
     mStringProperties := mStringProperties this;
     bExtraVerbose := bExtraVerbose this |}.

Definition set_mScene (this : Importer) (s : option aiScene) : Importer :=
  {| mIOHandler := mIOHandler this; mIsDefaultHandler := mIsDefaultHandler this;
     mImporter := mImporter this;
     mPostProcessingSteps := mPostProcessingSteps this;
     mScene := s; mErrorString := mErrorString this;
     mIntProperties := mIntProperties this;
     mFloatProperties := mFloatProperties this;
     mStringProperties := mStringProperties this;
     bExtraVerbose := bExtraVerbose this |}.

Definition set_mErrorString (this : Importer) (e : string) : Importer :=
  {| mIOHandler := mIOHandler this; mIsDefaultHandler := mIsDefaultHandler this;
     mImporter := mImporter this;
     mPostProcessingSteps := mPostProcessingSteps this;
     mScene := mScene this; mErrorString := e;
     mIntProperties := mIntProperties this;
     mFloatProperties := mFloatProperties this;
     mStringProperties := mStringProperties this;
     bExtraVerbose := bExtraVerbose this |}.

Definition set_properties (this : Importer) (p : PropertyMap) : Importer :=
  {| mIOHandler := mIOHandler this; mIsDefaultHandler := mIsDefaultHandler this;
     mImporter := mImporter this;
     mPostProcessingSteps := mPostProcessingSteps this;
     mScene := mScene this; mErrorString := mErrorString this;
     mIntProperties := ints p;
     mFloatProperties := floats p;
     mStringProperties := strings p;
     bExtraVerbose := bExtraVerbose this |}.

(** The property tables of a dispatcher, as an importer or a step reads
    them through [SetupProperties]. *)
Definition properties (this : Importer) : PropertyMap :=
  {| ints := mIntProperties this; floats := mFloatProperties this;
     strings := mStringProperties this |}.

(** The object that [new DefaultIOSystem] creates: it answers from the
    host file system. *)
Definition DefaultIOSystem (fs : string → bool) : IOSystem :=
  {| Exists := fs; is_DefaultIOSystem := true |}.

(** [Importer::Importer()]: a default I/O handler is allocated, there is no
    scene and no error, the property tables are empty.  The importers and
    the steps that the constructor instantiates are the build's. *)
Definition Importer_new (fs : string → bool) (importers : list BaseImporter)
    (steps : list BaseProcess) (h : IOStore) : Importer * IOStore :=
  let a := fresh (dom h) in
  ({| mIOHandler := a; mIsDefaultHandler := true;
      mImporter := importers; mPostProcessingSteps := steps;
      mScene := None; mErrorString := EmptyString;
      mIntProperties := ∅; mFloatProperties := ∅; mStringProperties := ∅;
      bExtraVerbose := false |},
   <[a := DefaultIOSystem fs]> h).

(** ** I/O handler *)

(** [Importer::SetIOHandler]. *)
Definition SetIOHandler (fs : string → bool) (this : Importer) (h : IOStore)
    (pIOHandler : option IOSystemPtr) : Importer * IOStore :=
  match pIOHandler with
  | None =>
      (* the previous handler is not deleted *)
      let a := fresh (dom h) in
      (set_IOHandler this a true, <[a := DefaultIOSystem fs]> h)
  | Some p =>
      if decide (mIOHandler this ≠ p)
      then (set_IOHandler this p false, delete (mIOHandler this) h)
      else (this, h)
  end.

Definition GetIOHandler (this : Importer) : IOSystemPtr := mIOHandler this.

Definition IsDefaultIOHandler (this : Importer) : bool := mIsDefaultHandler this.

(** ** Scene access *)

Definition FreeScene (this : Importer) : Importer := set_mScene this None.

Definition GetErrorString (this : Importer) : string := mErrorString this.

Definition GetScene (this : Importer) : option aiScene := mScene this.

Definition GetOrphanedScene (this : Importer) : Importer * option aiScene :=
  (set_mScene this None, mScene this).

(** ** Memory accounting *)

Section MemoryRequirements.

Variable sz : Sizeof.

(** [AddNodeWeight]: [iScene] is the counter that the C++ function gets by
    reference; the result is its value on return. *)
Fixpoint AddNodeWeight (iScene : Z) (pcNode : aiNode) : Z :=
  let iScene := wrap32 (iScene + sizeof_aiNode sz) in
  let iScene := wrap32 (iScene + sizeof_uint sz * node_mNumMeshes pcNode) in
  let iScene := wrap32 (iScene + sizeof_ptr sz * Z.of_nat (mNumChildren pcNode)) in
  (fix children (l : list aiNode) (iScene : Z) : Z :=
     match l with
     | [] => iScene
     | child :: l' => children l' (AddNodeWeight iScene child)
     end) (mChildren pcNode) iScene.

(** The loop over the colour sets (or the texture coordinate sets) of a
    mesh: [n] iterations are left, [a] is the loop variable, the loop
    breaks at the first set that the mesh does not have. *)
Fixpoint sets_loop (has : nat → bool) (elem : Z) (pMesh : aiMesh)
    (n a : nat) (acc : Z) : Z :=
  match n with
  | O => acc
  | S n' =>
      if has a
      then sets_loop has elem pMesh n' (S a)
             (wrap32 (acc + elem * mNumVertices pMesh))
      else acc
  end.

(** The body of the loop over the meshes, on [in.meshes]. *)
Definition mesh_weight (scene : aiScene) (i : nat) (acc : Z) : option Z :=
  pMesh ← mMeshes scene !! i;
  let acc := wrap32 (acc + sizeof_aiMesh sz) in
  let acc := if HasPositions pMesh
             then wrap32 (acc + sizeof_aiVector3D sz * mNumVertices pMesh)
             else acc in
  let acc := if HasNormals pMesh
             then wrap32 (acc + sizeof_aiVector3D sz * mNumVertices pMesh)
             else acc in
  let acc := if HasTangentsAndBitangents pMesh
             then wrap32 (acc + sizeof_aiVector3D sz * mNumVertices pMesh * 2)
             else acc in
  let acc := sets_loop (HasVertexColors pMesh) (sizeof_aiColor4D sz) pMesh
               (AI_MAX_NUMBER_OF_COLOR_SETS sz) 0 acc in
  let acc := sets_loop (HasTextureCoords pMesh) (sizeof_aiVector3D sz) pMesh
               (AI_MAX_NUMBER_OF_TEXTURECOORDS sz) 0 acc in
  acc ← (if HasBones pMesh
         then
           let acc := wrap32 (acc + sizeof_ptr sz * Z.of_nat (mNumBones pMesh)) in
           for_loop (mNumBones pMesh) 0
             (λ p acc,
                pBone ← mBones pMesh !! p;
                let acc := wrap32 (acc + sizeof_aiBone sz) in
                Some (wrap32 (acc + mNumWeights pBone * sizeof_aiVertexWeight sz)))
             acc
         else Some acc);
  Some (wrap32 (acc + (sizeof_aiFace sz + 3 * sizeof_uint sz) * mNumFaces pMesh)).

(** The body of the loop over the embedded textures, on [in.textures]. *)
Definition texture_weight (scene : aiScene) (i : nat) (acc : Z) : option Z :=
  pc ← mTextures scene !! i;
  let acc := wrap32 (acc + sizeof_aiTexture sz) in
  if bool_decide (mHeight pc ≠ 0)
  then Some (wrap32 (acc + 4 * mHeight pc * mWidth pc))
  else Some (wrap32 (acc + mWidth pc)).

(** The bytes of one channel, added to [in.animations]. *)
Definition channel_weight (pc2 : aiNodeAnim) (acc : Z) : Z :=
  let acc := wrap32 (acc + sizeof_aiNodeAnim sz) in
  let acc := wrap32 (acc + Z.of_nat (mNumPositionKeys pc2) * sizeof_aiVectorKey sz) in
  let acc := wrap32 (acc + Z.of_nat (mNumScalingKeys pc2) * sizeof_aiVectorKey sz) in
  wrap32 (acc + Z.of_nat (mNumRotationKeys pc2) * sizeof_aiQuatKey sz).

(** The body of the loop over the animations, on [in.animations].  The
    inner loop runs [a] over the channels of animation [i] and reads
    [pc->mChannels[i]]. *)
Definition animation_weight (scene : aiScene) (i : nat) (acc : Z) : option Z :=
  pc ← mAnimations scene !! i;
  let acc := wrap32 (acc + sizeof_aiAnimation sz) in
  for_loop (mNumChannels pc) 0
    (λ a acc, pc2 ← mChannels pc !! i; Some (channel_weight pc2 acc))
    acc.

(** The body of the loop over the materials, on [in.materials]. *)
Definition material_weight (scene : aiScene) (i : nat) (acc : Z) : option Z :=
  pc ← mMaterials scene !! i;
  let acc := wrap32 (acc + sizeof_aiMaterial sz) in
  let acc := wrap32 (acc + mNumAllocated pc * sizeof_ptr sz) in
  for_loop (mNumProperties pc) 0
    (λ a acc, prop ← mProperties pc !! a; Some (wrap32 (acc + mDataLength prop)))
    acc.

(** [Importer::GetMemoryRequirements].  The method is [const]; the
    dispatcher is returned next to the filled-in [aiMemoryInfo] so that
    what the call leaves of it can be stated.  [None]: a read outside of
    an array. *)
Definition GetMemoryRequirements (this : Importer)
    : option (Importer * aiMemoryInfo) :=
  match mScene this with
  | None => Some (this, aiMemoryInfo_new)
  | Some scene =>
      let total := sizeof_aiScene sz in
      meshes ← for_loop (mNumMeshes scene) 0 (mesh_weight scene) 0;
      let total := wrap32 (total + meshes) in
      textures ← for_loop (mNumTextures scene) 0 (texture_weight scene) 0;
      let total := wrap32 (total + textures) in
      animations ← for_loop (mNumAnimations scene) 0 (animation_weight scene) 0;
      let total := wrap32 (total + animations) in
      let cameras := wrap32 (sizeof_aiCamera sz * mNumCameras scene) in
      let total := wrap32 (total + cameras) in
      let lights := wrap32 (sizeof_aiLight sz * mNumLights scene) in
      let total := wrap32 (total + lights) in
      let nodes := AddNodeWeight 0 (mRootNode scene) in
      let total := wrap32 (total + nodes) in
      materials ← for_loop (mNumMaterials scene) 0 (material_weight scene) 0;
      let total := wrap32 (total + materials) in
      Some (this,
            {| textures := textures; materials := materials; meshes := meshes;
               nodes := nodes; animations := animations; cameras := cameras;
               lights := lights; total := total |})
  end.

(** The walk over the animations that reads channel [a] of animation [i]
    in the inner loop: what the accounting of the channels is meant to be.
    It is the reference that [animation_weight] is compared with. *)
Definition animation_weight_by_channel (scene : aiScene) (i : nat) (acc : Z)
    : option Z :=
  pc ← mAnimations scene !! i;
  let acc := wrap32 (acc + sizeof_aiAnimation sz) in
  for_loop (mNumChannels pc) 0
    (λ a acc, pc2 ← mChannels pc !! a; Some (channel_weight pc2 acc))
    acc.

End MemoryRequirements.

(** ** Strings *)

(** [std::string::find_last_of(c)]: the position of the last occurrence of
    [c], [None] for [npos]. *)
Fixpoint find_last_of (s : string) (c : ascii) : option nat :=
  match s with
  | EmptyString => None
  | String x rest =>
      match find_last_of rest c with
      | Some k => Some (S k)
      | None => if decide (x = c) then Some O else None
      end
  end.

(** The double quote, as a one-character string. *)
Definition dquote : string := String "034"%char EmptyString.

(** [hay] contains [needle] as a substring. *)
Definition contains (needle hay : string) : Prop :=
  ∃ pre post : string, hay = pre +:+ needle +:+ post.

(** ** Flag validation *)

Section Dispatch.

Variable flags : aiPostProcessSteps.

(** The data-structure validation step ([ValidateDSProcess]) and
    [ScenePreprocessor::ProcessScene]: both are constructed inside of
    [ReadFile], their code is in other translation units. *)
Variable ValidateDSProcess : BaseProcess.
Variable ScenePreprocessor_ProcessScene : aiScene → aiScene.

(** [_ValidateFlags]. *)
Definition _ValidateFlags (pFlags : Z) : bool :=
  if bool_decide (Z.land pFlags (aiProcess_GenSmoothNormals flags) ≠ 0)
     && bool_decide (Z.land pFlags (aiProcess_GenNormals flags) ≠ 0)
  then false
  else true.

(** The inner loop of [ValidateFlags]: is there a step that handles
    [mask]? *)
Definition have_step (steps : list BaseProcess) (mask : Z) : bool :=
  existsb (λ p, IsActive p mask) steps.

(** The loop over the masks.  The bound [1 << (sizeof(unsigned int)*8-1)]
    is the sign bit, [2^31] once converted to [unsigned int] for the
    comparison.  [fuel] bounds the number of evaluations of the loop
    condition; [None] when it does not suffice. *)
Fixpoint mask_loop (fuel : nat) (steps : list BaseProcess) (pFlags mask : Z)
    : option bool :=
  match fuel with
  | O => None
  | S fuel' =>
      if bool_decide (mask < 2 ^ 31)
      then
        if bool_decide (Z.land pFlags mask ≠ 0) && negb (have_step steps mask)
        then Some false
        else mask_loop fuel' steps pFlags (wrap32 (Z.shiftl mask 1))
      else Some true
  end.

(** [Importer::ValidateFlags].  32 evaluations of the loop condition are
    enough ([mask_loop_finishes]). *)
Definition ValidateFlags (this : Importer) (pFlags : Z) : bool :=
  if negb (_ValidateFlags pFlags) then false
  else
    let pFlags := Z.land pFlags (Z.lnot (aiProcess_ValidateDataStructure flags)) in
    match mask_loop 32 (mPostProcessingSteps this) pFlags 1 with
    | Some b => b
    | None => false
    end.

(** ** Reading a file *)

(** One call of [CanRead] by [ReadFile]: the index of the importer in
    [mImporter] and the value of [checkSig]. *)
Definition Probe : Type := nat * bool.

(** One pass over the importers from index [a] on: the first importer that
    accepts, and the calls of [CanRead] that were made. *)
Fixpoint probe_importers (l : list BaseImporter) (a : nat) (pFile : string)
    (io : IOSystem) (checkSig : bool) : option BaseImporter * list Probe :=
  match l with
  | [] => (None, [])
  | imp :: rest =>
      if CanRead imp pFile (Some io) checkSig
      then (Some imp, [(a, checkSig)])
      else
        let '(r, t) := probe_importers rest (S a) pFile io checkSig in
        (r, (a, checkSig) :: t)
  end.

(** The selection of the worker class in [ReadFile]. *)
Definition select_importer (l : list BaseImporter) (pFile : string)
    (io : IOSystem) : option BaseImporter * list Probe :=
  let '(imp, t1) := probe_importers l 0 pFile io false in
  match imp with
  | Some i => (Some i, t1)
  | None =>
      match find_last_of pFile "."%char with
      | Some _ =>
          let '(imp, t2) := probe_importers l 0 pFile io true in
          (imp, t1 ++ t2)
      | None => (None, t1)
      end
  end.

(** The loop over the post-processing steps, entered with a scene. *)
Fixpoint post_process (steps : list BaseProcess) (props : PropertyMap)
    (pFlags : Z) (scene : aiScene) : ProcessOutcome :=
  match steps with
  | [] => Processed scene
  | process :: rest =>
      if IsActive process pFlags
      then
        match ExecuteOnScene process props scene with
        | Processed scene' => post_process rest props pFlags scene'
        | ProcessFailed text => ProcessFailed text
        | ProcessThrew what => ProcessThrew what
        end
      else post_process rest props pFlags scene
  end.

(** How the [try] block of [ReadFile] is left: by a [return] statement, at
    its end, or by a [std::exception]. *)
Inductive Completion :=
| Returned (r : option aiScene)
| Finished
| Threw (what : string).

(** [ReadFile] from the dispatch to the worker class on. *)
Definition import_with (this : Importer) (imp : BaseImporter)
    (io : IOSystem) (pFile : string) (pFlags : Z) : Importer * Completion :=
  match BaseImporter_ReadFile imp (properties this) pFile io with
  | ImportThrew what => (this, Threw what)
  | ImportFailed mErrorText => (set_mErrorString this mErrorText, Finished)
  | Imported scene =>
      let this := set_mScene this (Some scene) in
      match
        (if bool_decide
              (Z.land pFlags (aiProcess_ValidateDataStructure flags) ≠ 0)
         then ExecuteOnScene ValidateDSProcess (properties this) scene
         else Processed scene)
      with
      | ProcessThrew what => (this, Threw what)
      | ProcessFailed text =>
          (set_mErrorString (set_mScene this None) text, Returned None)
      | Processed scene =>
          let scene := ScenePreprocessor_ProcessScene scene in
          match post_process (mPostProcessingSteps this) (properties this)
                  pFlags scene with
          | ProcessThrew what => (this, Threw what)
          | ProcessFailed text =>
              (set_mErrorString (set_mScene this None) text, Finished)
          | Processed scene => (set_mScene this (Some scene), Finished)
          end
      end
  end.

(** The [try] block of [ReadFile]; [io] is the object that [mIOHandler]
    points to. *)
Definition ReadFile_try (this : Importer) (io : IOSystem) (pFile : string)
    (pFlags : Z) : Importer * Completion :=
  let this := match mScene this with
              | Some _ => FreeScene this
              | None => this
              end in
  if negb (Exists io pFile)
  then
    (set_mErrorString this
       ("Unable to open file " +:+ dquote +:+ pFile +:+ dquote +:+ "."),
     Returned None)
  else
    match fst (select_importer (mImporter this) pFile io) with
    | None =>
        (set_mErrorString this
           ("No suitable reader found for the file format of file "
              +:+ dquote +:+ pFile +:+ dquote +:+ "."),
         Returned None)
    | Some imp => import_with this imp io pFile pFlags
    end.

(** The [catch] clause and what follows it. *)
Definition ReadFile_finish (r : Importer * Completion)
    : Importer * option aiScene :=
  let '(this, c) := r in
  match c with
  | Returned r => (this, r)
  | Finished => (this, mScene this)
  | Threw what =>
      let this := set_mErrorString this ("std::exception: " +:+ what) in
      let this := set_mScene this None in
      (this, mScene this)
  end.

(** [Importer::ReadFile].  [None]: [mIOHandler] points to no object. *)
Definition ReadFile (h : IOStore) (this : Importer) (pFile : string)
    (pFlags : Z) : option (Importer * option aiScene) :=
  io ← h !! mIOHandler this;
  Some (ReadFile_finish (ReadFile_try this io pFile pFlags)).

(** A sequence of [ReadFile] calls on one dispatcher: the dispatcher after
    each call, with what the call returned. *)
Fixpoint ReadFiles (h : IOStore) (this : Importer)
    (calls : list (string * Z)) : option (list (Importer * option aiScene)) :=
  match calls with
  | [] => Some []
  | (pFile, pFlags) :: rest =>
      r ← ReadFile h this pFile pFlags;
      rs ← ReadFiles h (fst r) rest;
      Some (r :: rs)
  end.

End Dispatch.

(** ** Configuration properties *)

(** Modelled from the spec: [GenericProperty.h], which defines
    [SetGenericProperty] and [GetGenericProperty], is not among the sources
    at hand.  The specification has the property store as three keyed
    mappings (string to int, string to float, string to string), a set as
    a write-through to the store, and a get that returns the value stored
    under the key, or the caller-supplied value when the key is absent.
    The second component is what [*bWasExisting] receives. *)
Definition SetGenericProperty {T : Type} (list : gmap string T)
    (szName : string) (value : T) : gmap string T * bool :=
  (<[szName := value]> list, bool_decide (is_Some (list !! szName))).

(** Modelled from the spec: see [SetGenericProperty]. *)
Definition GetGenericProperty {T : Type} (list : gmap string T)
    (szName : string) (errorReturn : T) : T :=
  default errorReturn (list !! szName).

Definition SetPropertyInteger (this : Importer) (szName : string) (iValue : Z)
    : Importer * bool :=
  let '(m, bWasExisting) := SetGenericProperty (mIntProperties this) szName iValue in
  (set_properties this
     {| ints := m; floats := mFloatProperties this;
        strings := mStringProperties this |},
   bWasExisting).

Definition SetPropertyFloat (this : Importer) (szName : string) (iValue : float32)
    : Importer * bool :=
  let '(m, bWasExisting) := SetGenericProperty (mFloatProperties this) szName iValue in
  (set_properties this
     {| ints := mIntProperties this; floats := m;
        strings := mStringProperties this |},
   bWasExisting).

Definition SetPropertyString (this : Importer) (szName : string) (value : string)
    : Importer * bool :=
  let '(m, bWasExisting) := SetGenericProperty (mStringProperties this) szName value in
  (set_properties this
     {| ints := mIntProperties this; floats := mFloatProperties this;
        strings := m |},
   bWasExisting).

Definition GetPropertyInteger (this : Importer) (szName : string)
    (iErrorReturn : Z) : Z :=
  GetGenericProperty (mIntProperties this) szName iErrorReturn.

Definition GetPropertyFloat (this : Importer) (szName : string)
    (iErrorReturn : float32) : float32 :=
  GetGenericProperty (mFloatProperties this) szName iErrorReturn.

Definition GetPropertyString (this : Importer) (szName : string)
    (iErrorReturn : string) : string :=
  GetGenericProperty (mStringProperties this) szName iErrorReturn.

(** A call of one of the three setters, and a history of such calls on a
    dispatcher. *)
Inductive PropertyCall :=
| CallSetPropertyInteger (szName : string) (iValue : Z)
| CallSetPropertyFloat (szName : string) (iValue : float32)
| CallSetPropertyString (szName : string) (value : string).

Definition set_property (this : Importer) (c : PropertyCall) : Importer :=
  match c with
  | CallSetPropertyInteger k v => fst (SetPropertyInteger this k v)
  | CallSetPropertyFloat k v => fst (SetPropertyFloat this k v)
  | CallSetPropertyString k v => fst (SetPropertyString this k v)
  end.

Definition set_properties_seq (this : Importer) (cs : list PropertyCall)
    : Importer :=
  foldl set_property this cs.

(** The key that a call writes, if the call is on the integer (float,
    string) store. *)
Definition integer_key (c : PropertyCall) : option string :=
  match c with CallSetPropertyInteger k _ => Some k | _ => None end.
Definition float_key (c : PropertyCall) : option string :=
  match c with CallSetPropertyFloat k _ => Some k | _ => None end.
Definition string_key (c : PropertyCall) : option string :=
  match c with CallSetPropertyString k _ => Some k | _ => None end.

(** * The animation evaluator *)

Module AssimpView.

Record aiMatrix4x4 := {
  a1 : float32; a2 : float32; a3 : float32; a4 : float32;
  b1 : float32; b2 : float32; b3 : float32; b4 : float32;
  c1 : float32; c2 : float32; c3 : float32; c4 : float32;
  d1 : float32; d2 : float32; d3 : float32; d4 : float32
}.

(** The default-constructed matrix: the identity. *)
Definition aiMatrix4x4_new : aiMatrix4x4 :=
  {| a1 := float32_1; a2 := float32_0; a3 := float32_0; a4 := float32_0;
     b1 := float32_0; b2 := float32_1; b3 := float32_0; b4 := float32_0;
     c1 := float32_0; c2 := float32_0; c3 := float32_1; c4 := float32_0;
     d1 := float32_0; d2 := float32_0; d3 := float32_0; d4 := float32_1 |}.

Record AnimEvaluator := {
  mAnim : aiAnimation;
  mLastTime : float;
  mLastPositions : list (nat * nat * nat);
  mTransforms : list aiMatrix4x4
}.

(** [AnimEvaluator::AnimEvaluator]. *)
Definition AnimEvaluator_new (pAnim : aiAnimation) : AnimEvaluator :=
  {| mAnim := pAnim; mLastTime := 0%float;
     mLastPositions := replicate (mNumChannels pAnim) (O, O, O);
     mTransforms := [] |}.

Section Evaluate.

(** [fmod] of the C library, and [aiMatrix4x4(q.GetMatrix())] of the
    math headers. *)
Variable fmod : float → float → float.
Variable rotation_matrix : aiQuaternion → aiMatrix4x4.

(** The input time in ticks. *)
Definition ticks (anim : aiAnimation) (pTime : float) : float :=
  let ticksPerSecond :=
    if negb (mTicksPerSecond anim =? 0)%float
    then mTicksPerSecond anim
    else 25%float in
  (pTime * ticksPerSecond)%float.

(** The time in ticks, mapped into the duration of the animation. *)
Definition mapped_time (anim : aiAnimation) (pTime : float) : float :=
  if (0 <? mDuration anim)%float
  then fmod pTime (mDuration anim)
  else 0%float.

Section Track.

Context {K : Type}.
Variable key_mTime : K → float.
Variable keys : list K.
Variable time : float.

(** The search loop of a track:
    [while (frame < n - 1) { if (time < keys[frame+1].mTime) break; frame++; }].
    [fuel] bounds the number of evaluations of the loop condition. *)
Fixpoint find_frame (fuel : nat) (frame : nat) : option nat :=
  match fuel with
  | O => None
  | S fuel' =>
      if bool_decide (frame < length keys - 1)%nat
      then
        k ← keys !! (frame + 1)%nat;
        if (time <? key_mTime k)%float
        then Some frame
        else find_frame fuel' (frame + 1)%nat
      else Some frame
  end.

(** A track with keys: the start of the search is the cached frame when
    the time is not before the last time, otherwise frame 0.  The result is
    the key that the search selects and its index, which the cache
    receives.  The loop condition is evaluated at most once per key. *)
Definition evaluate_track (mLastTime : float) (cached : nat) : option (K * nat) :=
  let frame := if (mLastTime <=? time)%float then cached else O in
  frame ← find_frame (length keys) frame;
  k ← keys !! frame;
  Some (k, frame).

(** The search that always starts from frame 0. *)
Definition evaluate_track_from_start : option (K * nat) :=
  frame ← find_frame (length keys) O;
  k ← keys !! frame;
  Some (k, frame).

End Track.

(** The matrix that is built from the present rotation, scaling and
    position. *)
Definition build_transform (presentPosition : aiVector3D)
    (presentRotation : aiQuaternion) (presentScaling : aiVector3D)
    : aiMatrix4x4 :=
  let mat := rotation_matrix presentRotation in
  {| a1 := float32_mul (a1 mat) (vx presentScaling);
     b1 := float32_mul (b1 mat) (vx presentScaling);
     c1 := float32_mul (c1 mat) (vx presentScaling);
     a2 := float32_mul (a2 mat) (vy presentScaling);
     b2 := float32_mul (b2 mat) (vy presentScaling);
     c2 := float32_mul (c2 mat) (vy presentScaling);
     a3 := float32_mul (a3 mat) (vz presentScaling);
     b3 := float32_mul (b3 mat) (vz presentScaling);
     c3 := float32_mul (c3 mat) (vz presentScaling);
     a4 := vx presentPosition;
     b4 := vy presentPosition;
     c4 := vz presentPosition;
     d1 := d1 mat; d2 := d2 mat; d3 := d3 mat; d4 := d4 mat |}.

(** The body of the loop over the channels, for one channel and its entry
    of [mLastPositions]: the transformation and the updated entry.
    [track] is the search of one track, given its keys and cached frame. *)
Definition evaluate_channel_with
    (track : ∀ K : Type, (K → float) → list K → nat → option (K * nat))
    (channel : aiNodeAnim) (last : nat * nat * nat)
    : option (aiMatrix4x4 * (nat * nat * nat)) :=
  let '(last0, last1, last2) := last in
  '(presentPosition, last0) ←
    (if bool_decide (0 < mNumPositionKeys channel)%nat
     then p ← track _ vk_mTime (mPositionKeys channel) last0;
          Some (vk_mValue (fst p), snd p)
     else Some ({| vx := float32_0; vy := float32_0; vz := float32_0 |}, last0));
  '(presentRotation, last1) ←
    (if bool_decide (0 < mNumRotationKeys channel)%nat
     then p ← track _ qk_mTime (mRotationKeys channel) last1;
          Some (qk_mValue (fst p), snd p)
     else Some ({| qw := float32_1; qx := float32_0; qy := float32_0; qz := float32_0 |}, last1));
  '(presentScaling, last2) ←
    (if bool_decide (0 < mNumScalingKeys channel)%nat
     then p ← track _ vk_mTime (mScalingKeys channel) last2;
          Some (vk_mValue (fst p), snd p)
     else Some ({| vx := float32_1; vy := float32_1; vz := float32_1 |}, last2));
  Some (build_transform presentPosition presentRotation presentScaling,
        (last0, last1, last2)).

Definition evaluate_channel (time mLastTime : float) :=
  evaluate_channel_with (λ K key_mTime keys cached,
    evaluate_track key_mTime keys time mLastTime cached).

(** The loop over the channels, on [mLastPositions] and [mTransforms]. *)
Definition channel_body (anim : aiAnimation) (time mLastTime : float)
    (a : nat) (st : list (nat * nat * nat) * list aiMatrix4x4)
    : option (list (nat * nat * nat) * list aiMatrix4x4) :=
  let '(lastPositions, transforms) := st in
  channel ← mChannels anim !! a;
  last ← lastPositions !! a;
  r ← evaluate_channel time mLastTime channel last;
  if bool_decide (a < length transforms)%nat
  then Some (<[a := snd r]> lastPositions, <[a := fst r]> transforms)
  else None.

(** [AnimEvaluator::Evaluate] from the mapping into the duration on;
    [pTime] is the time in ticks.  [None]: a read or a write outside of an
    array, or a search that does not end. *)
Definition Evaluate_ticks (this : AnimEvaluator) (pTime : float)
    : option AnimEvaluator :=
  let time := mapped_time (mAnim this) pTime in
  let transforms :=
    if bool_decide (length (mTransforms this) ≠ mNumChannels (mAnim this))
    then resize (mNumChannels (mAnim this)) aiMatrix4x4_new (mTransforms this)
    else mTransforms this in
  st ← for_loop (mNumChannels (mAnim this)) 0
         (channel_body (mAnim this) time (mLastTime this))
         (mLastPositions this, transforms);
  Some {| mAnim := mAnim this; mLastTime := time;
          mLastPositions := fst st; mTransforms := snd st |}.

(** [AnimEvaluator::Evaluate]. *)
Definition Evaluate (this : AnimEvaluator) (pTime : float)
    : option AnimEvaluator :=
  Evaluate_ticks this (ticks (mAnim this) pTime).

(** A sequence of [Evaluate] calls on one evaluator. *)
Fixpoint Evaluates (this : AnimEvaluator) (times : list float)
    : option AnimEvaluator :=
  match times with
  | [] => Some this
  | pTime :: rest => this' ← Evaluate this pTime; Evaluates this' rest
  end.

(** The reference evaluation at one time stamp: no state, every track is
    searched from frame 0.  The results are the transformations and the
    frame indices of the channels. *)
Definition reference_channel (time : float) (channel : aiNodeAnim)
    : option (aiMatrix4x4 * (nat * nat * nat)) :=
  evaluate_channel_with (λ K key_mTime keys _,
    evaluate_track_from_start key_mTime keys time) channel (O, O, O).

Definition Evaluate_reference (anim : aiAnimation) (pTime : float)
    : option (list (aiMatrix4x4 * (nat * nat * nat))) :=
  let time := mapped_time anim (ticks anim pTime) in
  mapM (reference_channel time) (mChannels anim).

End Evaluate.

End AssimpView.

(** * The rest of the dispatcher *)

(** ** Magic numbers *)

(** [AI_MAKE_MAGIC(string)]: the arguments are the values of [string[0]]
    to [string[3]] after the promotion to [int]; the sum is converted to
    [uint32_t]. *)
Definition AI_MAKE_MAGIC (s0 s1 s2 s3 : Z) : Z :=
  wrap32 (Z.shiftl s0 24 + Z.shiftl s1 16 + Z.shiftl s2 8 + s3).

(** ** Loaders *)

Inductive aiReturn := AI_SUCCESS | AI_FAILURE.

Definition set_mImporter (this : Importer) (l : list BaseImporter) : Importer :=
  {| mIOHandler := mIOHandler this; mIsDefaultHandler := mIsDefaultHandler this;
     mImporter := l;
     mPostProcessingSteps := mPostProcessingSteps this;
     mScene := mScene this; mErrorString := mErrorString this;
     mIntProperties := mIntProperties this;
     mFloatProperties := mFloatProperties this;
     mStringProperties := mStringProperties this;
     bExtraVerbose := bExtraVerbose this |}.

(** [Importer::RegisterLoader], release build: the loader is added at the
    end of the list. *)
Definition RegisterLoader (this : Importer) (pImp : BaseImporter)
    : Importer * aiReturn :=
  (set_mImporter this (mImporter this ++ [pImp]), AI_SUCCESS).

(** The loop of [Importer::FindLoader]: [CanRead] is called with the
    extension in place of the file and [NULL] in place of the handler. *)
Fixpoint find_loader (l : list BaseImporter) (szExtension : string)
    : option BaseImporter :=
  match l with
  | [] => None
  | i :: rest =>
      if CanRead i szExtension None false
      then Some i
      else find_loader rest szExtension
  end.

Definition FindLoader (this : Importer) (szExtension : string)
    : option BaseImporter :=
  find_loader (mImporter this) szExtension.

(** [Importer::IsExtensionSupported]. *)
Definition IsExtensionSupported (this : Importer) (szExtension : string) : bool :=
  bool_decide (FindLoader this szExtension ≠ None).

(** The last character of a string: [*(tmp.end()-1)], which does not
    exist for the empty string. *)
Fixpoint string_last (s : string) : option ascii :=
  match s with
  | EmptyString => None
  | String c EmptyString => Some c
  | String _ rest => string_last rest
  end.

(** The loop of [Importer::GetExtensionList] from importer [iNum] on.
    [GetExtensionList_of] is the virtual [BaseImporter::GetExtensionList]:
    what an importer makes of the string that it is handed.  [None]: the
    read of the last character of an empty string. *)
Fixpoint extension_list_loop (GetExtensionList_of : BaseImporter → string → string)
    (l : list BaseImporter) (iNum : nat) (tmp : string) : option string :=
  match l with
  | [] => Some tmp
  | i :: rest =>
      tmp ← (if bool_decide (iNum ≠ O)
             then c ← string_last tmp;
                  Some (if bool_decide (c ≠ ";"%char) then tmp +:+ ";" else tmp)
             else Some tmp);
      extension_list_loop GetExtensionList_of rest (S iNum)
        (GetExtensionList_of i tmp)
  end.

(** [Importer::GetExtensionList]: the string that [szOut.Set] receives. *)
Definition GetExtensionList (GetExtensionList_of : BaseImporter → string → string)
    (this : Importer) : option string :=
  extension_list_loop GetExtensionList_of (mImporter this) 0 EmptyString.

(** ** Copy and destruction *)

(** [Importer::Importer(const Importer &other)]: the default constructor,
    then the three property tables of [other]. *)
Definition Importer_copy (fs : string → bool) (importers : list BaseImporter)
    (steps : list BaseProcess) (other : Importer) (h : gmap nat IOSystem)
    : Importer * gmap nat IOSystem :=
  let '(this, h') := Importer_new fs importers steps h in
  (set_properties this (properties other), h').

(** [Importer::~Importer], on the store of the I/O handlers: the assigned
    handler is deleted.  [None]: the handler is not an object of the store
    (a second [delete] of the same object). *)
Definition Importer_delete (this : Importer) (h : gmap nat IOSystem)
    : option (gmap nat IOSystem) :=
  match h !! mIOHandler this with
  | Some _ => Some (delete (mIOHandler this) h)
  | None => None
  end.

(** A sequence of [SetIOHandler] calls. *)
Fixpoint SetIOHandlers (fs : string → bool) (this : Importer)
    (h : gmap nat IOSystem) (calls : list (option nat))
    : Importer * gmap nat IOSystem :=
  match calls with
  | [] => (this, h)
  | p :: rest =>
      let '(this', h') := SetIOHandler fs this h p in
      SetIOHandlers fs this' h' rest
  end.

(** ** The pipeline of the constructor *)

(** The post-processing steps that the constructor names, and the macros
    that leave a step out of the build. *)
Inductive StepName :=
| RemoveVCProcess | RemoveRedundantMatsProcess | FindInstancesProcess
| FindDegeneratesProcess | ComputeUVMappingProcess | TextureTransformStep
| PretransformVertices | TriangulateProcess | SortByPTypeProcess
| FindInvalidDataProcess | FixInfacingNormalsProcess
| SplitLargeMeshesProcess_Triangle | GenFaceNormalsProcess
| ComputeSpatialSortProcess | GenVertexNormalsProcess | CalcTangentsProcess
| JoinVerticesProcess | DestroySpatialSortProcess
| SplitLargeMeshesProcess_Vertex | MakeLeftHandedProcess | FlipUVsProcess
| FlipWindingOrderProcess | LimitBoneWeightsProcess
| ImproveCacheLocalityProcess.

Record BuildConfig := {
  AI_BUILD_NO_REMOVEVC_PROCESS : bool;
  AI_BUILD_NO_REMOVE_REDUNDANTMATERIALS_PROCESS : bool;
  AI_BUILD_NO_FINDINSTANCES_PROCESS : bool;
  AI_BUILD_NO_FINDDEGENERATES_PROCESS : bool;
  AI_BUILD_NO_GENUVCOORDS_PROCESS : bool;
  AI_BUILD_NO_TRANSFORMTEXCOORDS_PROCESS : bool;
  AI_BUILD_NO_PRETRANSFORMVERTICES_PROCESS : bool;
  AI_BUILD_NO_TRIANGULATE_PROCESS : bool;
  AI_BUILD_NO_SORTBYPTYPE_PROCESS : bool;
  AI_BUILD_NO_FINDINVALIDDATA_PROCESS : bool;
  AI_BUILD_NO_FIXINFACINGNORMALS_PROCESS : bool;
  AI_BUILD_NO_SPLITLARGEMESHES_PROCESS : bool;
  AI_BUILD_NO_GENFACENORMALS_PROCESS : bool;
  AI_BUILD_NO_GENVERTEXNORMALS_PROCESS : bool;
  AI_BUILD_NO_CALCTANGENTS_PROCESS : bool;
  AI_BUILD_NO_JOINVERTICES_PROCESS : bool;
  AI_BUILD_NO_MAKELEFTHANDED_PROCESS : bool;
  AI_BUILD_NO_FLIPUVS_PROCESS : bool;
  AI_BUILD_NO_FLIPWINDINGORDER_PROCESS : bool;
  AI_BUILD_NO_LIMITBONEWEIGHTS_PROCESS : bool;
  AI_BUILD_NO_IMPROVECACHELOCALITY_PROCESS : bool
}.

(** [#if (!defined NO) push_back(x) #endif]. *)
Definition push_back_unless {A : Type} (NO : bool) (x : A) : list A :=
  if NO then [] else [x].

(** [mPostProcessingSteps] as the constructor fills it, in the order of
    the [push_back] calls. *)
Definition constructor_steps (cfg : BuildConfig) : list StepName :=
  push_back_unless (AI_BUILD_NO_REMOVEVC_PROCESS cfg) RemoveVCProcess
  ++ push_back_unless (AI_BUILD_NO_REMOVE_REDUNDANTMATERIALS_PROCESS cfg)
       RemoveRedundantMatsProcess
  ++ push_back_unless (AI_BUILD_NO_FINDINSTANCES_PROCESS cfg) FindInstancesProcess
  ++ push_back_unless (AI_BUILD_NO_FINDDEGENERATES_PROCESS cfg) FindDegeneratesProcess
  ++ push_back_unless (AI_BUILD_NO_GENUVCOORDS_PROCESS cfg) ComputeUVMappingProcess
  ++ push_back_unless (AI_BUILD_NO_TRANSFORMTEXCOORDS_PROCESS cfg) TextureTransformStep
  ++ push_back_unless (AI_BUILD_NO_PRETRANSFORMVERTICES_PROCESS cfg) PretransformVertices
  ++ push_back_unless (AI_BUILD_NO_TRIANGULATE_PROCESS cfg) TriangulateProcess
  ++ push_back_unless (AI_BUILD_NO_SORTBYPTYPE_PROCESS cfg) SortByPTypeProcess
  ++ push_back_unless (AI_BUILD_NO_FINDINVALIDDATA_PROCESS cfg) FindInvalidDataProcess
  ++ push_back_unless (AI_BUILD_NO_FIXINFACINGNORMALS_PROCESS cfg)
       FixInfacingNormalsProcess
  ++ push_back_unless (AI_BUILD_NO_SPLITLARGEMESHES_PROCESS cfg)
       SplitLargeMeshesProcess_Triangle
  ++ push_back_unless (AI_BUILD_NO_GENFACENORMALS_PROCESS cfg) GenFaceNormalsProcess
  ++ [ComputeSpatialSortProcess]
  ++ push_back_unless (AI_BUILD_NO_GENVERTEXNORMALS_PROCESS cfg) GenVertexNormalsProcess
  ++ push_back_unless (AI_BUILD_NO_CALCTANGENTS_PROCESS cfg) CalcTangentsProcess
  ++ push_back_unless (AI_BUILD_NO_JOINVERTICES_PROCESS cfg) JoinVerticesProcess
  ++ [DestroySpatialSortProcess]
  ++ push_back_unless (AI_BUILD_NO_SPLITLARGEMESHES_PROCESS cfg)
       SplitLargeMeshesProcess_Vertex
  ++ push_back_unless (AI_BUILD_NO_MAKELEFTHANDED_PROCESS cfg) MakeLeftHandedProcess
  ++ push_back_unless (AI_BUILD_NO_FLIPUVS_PROCESS cfg) FlipUVsProcess
  ++ push_back_unless (AI_BUILD_NO_FLIPWINDINGORDER_PROCESS cfg) FlipWindingOrderProcess
  ++ push_back_unless (AI_BUILD_NO_LIMITBONEWEIGHTS_PROCESS cfg) LimitBoneWeightsProcess
  ++ push_back_unless (AI_BUILD_NO_IMPROVECACHELOCALITY_PROCESS cfg)
       ImproveCacheLocalityProcess.

(** [Importer::Importer()] of a build: [new_step] stands for the [new]
    expressions of the step classes, [importers] for the importers of the
    build. *)
Definition Importer_build (cfg : BuildConfig) (fs : string → bool)
    (importers : list BaseImporter) (new_step : StepName → BaseProcess)
    (h : gmap nat IOSystem) : Importer * gmap nat IOSystem :=
  Importer_new fs importers (new_step <$> constructor_steps cfg) h.

(** * Definitions for the statements *)

(** The calls of [CanRead] of a pass that starts at importer [first] and
    stops after [n] importers. *)
Definition calls_of_pass (checkSig : bool) (first n : nat) : list Probe :=
  map (λ a, (a, checkSig)) (seq first n).

(** Importer [imp], at index [k] of the list, accepts the file and no
    importer before it does. *)
Definition first_accepting (l : list BaseImporter) (pFile : string)
    (io : IOSystem) (checkSig : bool) (k : nat) (imp : BaseImporter) : Prop :=
  l !! k = Some imp
  ∧ CanRead imp pFile (Some io) checkSig = true
  ∧ ∀ (j : nat) (imp' : BaseImporter),
      (j < k)%nat → l !! j = Some imp' → CanRead imp' pFile (Some io) checkSig = false.

(** No importer of the list accepts the file. *)
Definition none_accepting (l : list BaseImporter) (pFile : string)
    (io : IOSystem) (checkSig : bool) : Prop :=
  ∀ (j : nat) (imp' : BaseImporter),
    l !! j = Some imp' → CanRead imp' pFile (Some io) checkSig = false.

(** The dispatcher once [ReadFile] has freed the scene of an earlier
    import. *)
Definition without_scene (this : Importer) : Importer :=
  match mScene this with
  | Some _ => FreeScene this
  | None => this
  end.

(** An importer (a step) reports its failures: the text that comes with a
    failure is never empty. *)
Definition importer_reports_failures (imp : BaseImporter) : Prop :=
  ∀ props pFile io, BaseImporter_ReadFile imp props pFile io ≠ ImportFailed EmptyString.

Definition step_reports_failures (p : BaseProcess) : Prop :=
  ∀ props scene, ExecuteOnScene p props scene ≠ ProcessFailed EmptyString.

(** The dispatcher before call [n] of a sequence of calls: the initial one,
    or the one that call [n - 1] left. *)
Definition before_call (this : Importer)
    (results : list (Importer * option aiScene)) (n : nat) : option Importer :=
  match n with
  | O => Some this
  | S m => fst <$> results !! m
  end.

(** The search loop of a track goes on at [frame]: there is a next key
    and the time is not before it. *)
Definition advances {K : Type} (key_mTime : K → float) (keys : list K)
    (time : float) (frame : nat) : Prop :=
  (frame < length keys - 1)%nat
  ∧ ∃ k, keys !! (frame + 1)%nat = Some k ∧ (time <? key_mTime k)%float = false.

(** The cached frame of a track agrees with the last time: the search at
    the last time goes on at every frame before it. *)
Definition track_inv {K : Type} (key_mTime : K → float) (keys : list K)
    (mLastTime : float) (cached : nat) : Prop :=
  ∀ j : nat, (j < cached)%nat → advances key_mTime keys mLastTime j.

Definition channel_inv (mLastTime : float) (channel : aiNodeAnim)
    (last : nat * nat * nat) : Prop :=
  track_inv vk_mTime (mPositionKeys channel) mLastTime (fst (fst last))
  ∧ track_inv qk_mTime (mRotationKeys channel) mLastTime (snd (fst last))
  ∧ track_inv vk_mTime (mScalingKeys channel) mLastTime (snd last).

(** The cache of an evaluator agrees with its last time, channel by
    channel. *)
Definition evaluator_inv (anim : aiAnimation) (this : AssimpView.AnimEvaluator)
    : Prop :=
  AssimpView.mAnim this = anim
  ∧ length (AssimpView.mLastPositions this) = mNumChannels anim
  ∧ ∀ (a : nat) (channel : aiNodeAnim) (last : nat * nat * nat),
      mChannels anim !! a = Some channel →
      AssimpView.mLastPositions this !! a = Some last →
      channel_inv (AssimpView.mLastTime this) channel last.

(** The exact number of bytes that the accounting attributes to a node
    and its descendants, to a bone, a mesh, a texture and a material. *)
Definition Zsum (l : list Z) : Z := foldr Z.add 0 l.

Fixpoint node_bytes (sz : Sizeof) (n : aiNode) : Z :=
  let (k, children) := n in
  sizeof_aiNode sz + sizeof_uint sz * k
  + sizeof_ptr sz * Z.of_nat (length children)
  + (fix sum (l : list aiNode) : Z :=
       match l with
       | [] => 0
       | child :: l' => node_bytes sz child + sum l'
       end) children.

(** The number of sets [a], [a + 1], ... that a mesh has before the first
    one that it does not have, [n] at most. *)
Fixpoint leading_sets (has : nat → bool) (n a : nat) : nat :=
  match n with
  | O => O
  | S n' => if has a then S (leading_sets has n' (S a)) else O
  end.

Definition bone_bytes (sz : Sizeof) (b : aiBone) : Z :=
  sizeof_aiBone sz + mNumWeights b * sizeof_aiVertexWeight sz.

Definition mesh_bytes (sz : Sizeof) (m : aiMesh) : Z :=
  sizeof_aiMesh sz
  + (if HasPositions m then sizeof_aiVector3D sz * mNumVertices m else 0)
  + (if HasNormals m then sizeof_aiVector3D sz * mNumVertices m else 0)
  + (if HasTangentsAndBitangents m
     then sizeof_aiVector3D sz * mNumVertices m * 2 else 0)
  + Z.of_nat (leading_sets (HasVertexColors m) (AI_MAX_NUMBER_OF_COLOR_SETS sz) 0)
    * (sizeof_aiColor4D sz * mNumVertices m)
  + Z.of_nat (leading_sets (HasTextureCoords m) (AI_MAX_NUMBER_OF_TEXTURECOORDS sz) 0)
    * (sizeof_aiVector3D sz * mNumVertices m)
  + (if HasBones m
     then sizeof_ptr sz * Z.of_nat (mNumBones m)
          + Zsum (bone_bytes sz <$> mBones m)
     else 0)
  + (sizeof_aiFace sz + 3 * sizeof_uint sz) * mNumFaces m.

Definition texture_bytes (sz : Sizeof) (t : aiTexture) : Z :=
  sizeof_aiTexture sz
  + (if bool_decide (mHeight t ≠ 0) then 4 * mHeight t * mWidth t else mWidth t).

Definition material_bytes (sz : Sizeof) (m : aiMaterial) : Z :=
  sizeof_aiMaterial sz + mNumAllocated m * sizeof_ptr sz
  + Zsum (mDataLength <$> mProperties m).

(** Two dispatchers have the same configuration: handler, importers,
    steps and properties.  The scene and the error string may differ. *)
Definition same_configuration (this1 this2 : Importer) : Prop :=
  mIOHandler this1 = mIOHandler this2
  ∧ mIsDefaultHandler this1 = mIsDefaultHandler this2
  ∧ mImporter this1 = mImporter this2
  ∧ mPostProcessingSteps this1 = mPostProcessingSteps this2
  ∧ properties this1 = properties this2
  ∧ bExtraVerbose this1 = bExtraVerbose this2.

(** The I/O handler of the dispatcher is an object of the store, and it
    is a [DefaultIOSystem] when the dispatcher says so. *)
Definition handler_ok (fs : string → bool) (this : Importer)
    (h : gmap nat IOSystem) : Prop :=
  is_Some (h !! mIOHandler this)
  ∧ (mIsDefaultHandler this = true →
     h !! mIOHandler this = Some (DefaultIOSystem fs)).

(** Every handler that a sequence of [SetIOHandler] calls passes is null
    or an object of the store at the time of its call. *)
Fixpoint valid_handler_calls (fs : string → bool) (this : Importer)
    (h : gmap nat IOSystem) (calls : list (option nat)) : Prop :=
  match calls with
  | [] => True
  | p :: rest =>
      match p with
      | Some a => is_Some (h !! a)
      | None => True
      end
      ∧ valid_handler_calls fs (fst (SetIOHandler fs this h p))
          (snd (SetIOHandler fs this h p)) rest
  end.

(** The key times of a track do not decrease. *)
Definition sorted_keys {K : Type} (key_mTime : K → float) (keys : list K) : Prop :=
  ∀ (j : nat) (k1 k2 : K),
    keys !! j = Some k1 → keys !! S j = Some k2 →
    (key_mTime k1 <=? key_mTime k2)%float = true.

(** Frame [r] is the frame of a track at a time: on a track without keys,
    frame 0; otherwise a key of the track such that the time is before
    none of the keys 1 to [r], and before the key behind [r] if there is
    one; and, on a sorted track, before every key behind [r]. *)
Definition frame_at {K : Type} (key_mTime : K → float) (keys : list K)
    (time : float) (r : nat) : Prop :=
  match keys with
  | [] => r = O
  | _ =>
      (r < length keys)%nat
      ∧ (∀ j k, (0 < j ≤ r)%nat → keys !! j = Some k →
                (time <? key_mTime k)%float = false)
      ∧ (∀ k, keys !! S r = Some k → (time <? key_mTime k)%float = true)
      ∧ (sorted_keys key_mTime keys →
         ∀ j k, (r < j)%nat → keys !! j = Some k →
                (time <? key_mTime k)%float = true)
  end.

(** The value of the key at a frame of a track, or the default value of
    a track without keys. *)
Definition present_value {K V : Type} (key_mValue : K → V) (keys : list K)
    (dflt : V) (frame : nat) : V :=
  from_option key_mValue dflt (keys !! frame).

(** The cached frames of a channel are the frames of its three tracks at a
    time. *)
Definition channel_frames_at (time : float) (channel : aiNodeAnim)
    (last : nat * nat * nat) : Prop :=
  frame_at vk_mTime (mPositionKeys channel) time (fst (fst last))
  ∧ frame_at qk_mTime (mRotationKeys channel) time (snd (fst last))
  ∧ frame_at vk_mTime (mScalingKeys channel) time (snd last).

(** The transformation that is built from the keys at the frames of a
    channel. *)
Definition transform_at
    (rotation_matrix : aiQuaternion → AssimpView.aiMatrix4x4)
    (channel : aiNodeAnim) (last : nat * nat * nat)
    : AssimpView.aiMatrix4x4 :=
  AssimpView.build_transform rotation_matrix
    (present_value vk_mValue (mPositionKeys channel)
       {| vx := float32_0; vy := float32_0; vz := float32_0 |} (fst (fst last)))
    (present_value qk_mValue (mRotationKeys channel)
       {| qw := float32_1; qx := float32_0; qy := float32_0; qz := float32_0 |}
       (snd (fst last)))
    (present_value vk_mValue (mScalingKeys channel)
       {| vx := float32_1; vy := float32_1; vz := float32_1 |} (snd last)).

(** The steps between the computation and the destruction of the spatial
    sort, in the group of five whose order the constructor fixes. *)
Definition spatial_sort_user (s : StepName) : bool :=
  match s with
  | GenVertexNormalsProcess | CalcTangentsProcess | JoinVerticesProcess => true
  | _ => false
  end.

(** The build that leaves no step out. *)
Definition full_build : BuildConfig :=
  {| AI_BUILD_NO_REMOVEVC_PROCESS := false;
     AI_BUILD_NO_REMOVE_REDUNDANTMATERIALS_PROCESS := false;
     AI_BUILD_NO_FINDINSTANCES_PROCESS := false;
     AI_BUILD_NO_FINDDEGENERATES_PROCESS := false;
     AI_BUILD_NO_GENUVCOORDS_PROCESS := false;
     AI_BUILD_NO_TRANSFORMTEXCOORDS_PROCESS := false;
     AI_BUILD_NO_PRETRANSFORMVERTICES_PROCESS := false;
     AI_BUILD_NO_TRIANGULATE_PROCESS := false;
     AI_BUILD_NO_SORTBYPTYPE_PROCESS := false;
     AI_BUILD_NO_FINDINVALIDDATA_PROCESS := false;
     AI_BUILD_NO_FIXINFACINGNORMALS_PROCESS := false;
     AI_BUILD_NO_SPLITLARGEMESHES_PROCESS := false;
     AI_BUILD_NO_GENFACENORMALS_PROCESS := false;
     AI_BUILD_NO_GENVERTEXNORMALS_PROCESS := false;
     AI_BUILD_NO_CALCTANGENTS_PROCESS := false;
     AI_BUILD_NO_JOINVERTICES_PROCESS := false;
     AI_BUILD_NO_MAKELEFTHANDED_PROCESS := false;
     AI_BUILD_NO_FLIPUVS_PROCESS := false;
     AI_BUILD_NO_FLIPWINDINGORDER_PROCESS := false;
     AI_BUILD_NO_LIMITBONEWEIGHTS_PROCESS := false;
     AI_BUILD_NO_IMPROVECACHELOCALITY_PROCESS := false |}.

(** * Sample data *)

(** Sizes of a 32-bit build, for the examples. *)
Definition sizeof_32 : Sizeof :=
  {| sizeof_aiScene := 56; sizeof_aiMesh := 92; sizeof_aiVector3D := 12;
     sizeof_aiColor4D := 16; sizeof_ptr := 4; sizeof_aiBone := 1100;
     sizeof_aiVertexWeight := 8; sizeof_aiFace := 8; sizeof_uint := 4;
     sizeof_aiTexture := 16; sizeof_aiAnimation := 1056;
     sizeof_aiNodeAnim := 1052; sizeof_aiVectorKey := 24;
     sizeof_aiQuatKey := 24; sizeof_aiCamera := 1080; sizeof_aiLight := 1112;
     sizeof_aiNode := 1112; sizeof_aiMaterial := 12;
     AI_MAX_NUMBER_OF_COLOR_SETS := 4; AI_MAX_NUMBER_OF_TEXTURECOORDS := 4 |}.

(** The values of [aiPostProcess.h]. *)
Definition aiPostProcess_h : aiPostProcessSteps :=
  {| aiProcess_GenNormals := 0x20; aiProcess_GenSmoothNormals := 0x40;
     aiProcess_ValidateDataStructure := 0x400 |}.

Definition origin : aiVector3D := {| vx := float32_0; vy := float32_0; vz := float32_0 |}.
Definition no_rotation : aiQuaternion := {| qw := float32_1; qx := float32_0; qy := float32_0; qz := float32_0 |}.

(** A channel with [n] position keys at times [0, 1, ...] and no other
    key. *)
Definition position_channel (n : nat) : aiNodeAnim :=
  {| mPositionKeys :=
       map (λ i, {| vk_mTime := PrimFloat.of_uint63 (Uint63.of_Z (Z.of_nat i));
                    vk_mValue := origin |}) (seq 0 n);
     mRotationKeys := []; mScalingKeys := [] |}.

Definition animation_of (channels : list aiNodeAnim) : aiAnimation :=
  {| mDuration := 10%float; mTicksPerSecond := 0%float; mChannels := channels |}.

(** A scene that is a root node and the given animations. *)
Definition scene_of (anims : list aiAnimation) : aiScene :=
  {| mRootNode := mk_aiNode 0 []; mMeshes := []; mMaterials := [];
     mAnimations := anims; mTextures := []; mNumCameras := 0;
     mNumLights := 0 |}.

(** A file system with no file but [model.obj] and [notes.txt]. *)
Definition sample_fs (pFile : string) : bool :=
  bool_decide (pFile = "model.obj") || bool_decide (pFile = "notes.txt").

(** An importer that accepts the files named [model.obj] and decodes them
    to [scene]. *)
Definition obj_importer (scene : aiScene) : BaseImporter :=
  {| CanRead := λ pFile _ _, bool_decide (pFile = "model.obj");
     BaseImporter_ReadFile := λ _ _ _, Imported scene |}.

(** A step that services the triangulation flag only. *)
Definition aiProcess_Triangulate : Z := 0x8.
Definition triangulate_step : BaseProcess :=
  {| IsActive := λ pFlags, bool_decide (Z.land pFlags aiProcess_Triangulate ≠ 0);
     ExecuteOnScene := λ _ scene, Processed scene |}.

(** The validation and the preprocessor of the examples leave the scene as
    it is. *)
Definition accept_all : BaseProcess :=
  {| IsActive := λ _, true; ExecuteOnScene := λ _ scene, Processed scene |}.

(** A dispatcher with one importer and one step, on an empty store. *)
Definition sample_dispatcher (scene : aiScene) : Importer * gmap nat IOSystem :=
  Importer_new sample_fs [obj_importer scene] [triangulate_step] ∅.

(** The dispatcher after it has loaded [scene]. *)
Definition loaded (scene : aiScene) : Importer :=
  set_mScene (fst (sample_dispatcher scene)) (Some scene).

(** Scenes of the examples: one animation with a channel of two keys; two
    animations of one channel each; one animation with channels of one and
    of five keys. *)
Definition scene_1x1 : aiScene := scene_of [animation_of [position_channel 2]].
Definition scene_2x1 : aiScene :=
  scene_of [animation_of [position_channel 1]; animation_of [position_channel 1]].
Definition scene_1x2 : aiScene :=
  scene_of [animation_of [position_channel 1; position_channel 5]].

(** A handler of the caller, at an address of its own. *)
Definition custom_io : IOSystem :=
  {| Exists := λ _, true; is_DefaultIOSystem := false |}.

Definition custom_ptr : nat := 5%nat.

(** A scene with one mesh (3 vertices with positions and normals, one
    colour set, two texture coordinate sets, one bone of two weights, one
    face), a compressed texture of 100 bytes and a raw texture of 2 by 2
    texels, one animation, one camera, two lights, a root node with one
    mesh and two children, and one material (5 slots allocated, properties
    of 10 and 20 bytes). *)
Definition scene_full : aiScene :=
  {| mRootNode := mk_aiNode 1 [mk_aiNode 0 []; mk_aiNode 2 []];
     mMeshes :=
       [{| mNumVertices := 3; mNumFaces := 1;
           HasPositions := true; HasNormals := true;
           HasTangentsAndBitangents := false;
           HasVertexColors := λ a, bool_decide (a < 1)%nat;
           HasTextureCoords := λ a, bool_decide (a < 2)%nat;
           HasBones := true;
           mBones := [{| mNumWeights := 2 |}] |}];
     mMaterials :=
       [{| mNumAllocated := 5;
           mProperties := [{| mDataLength := 10 |}; {| mDataLength := 20 |}] |}];
     mAnimations := [animation_of [position_channel 2]];
     mTextures := [{| mWidth := 100; mHeight := 0 |};
                   {| mWidth := 2; mHeight := 2 |}];
     mNumCameras := 1;
     mNumLights := 2 |}.

(** The dispatcher of the examples and the store of its I/O handler. *)
Definition sample_this : Importer := fst (sample_dispatcher scene_1x1).
Definition sample_store : gmap nat IOSystem := snd (sample_dispatcher scene_1x1).

(** [ReadFile] of the examples: the validation and the preprocessor leave
    the scene as it is. *)
Definition sample_ReadFile := ReadFile aiPostProcess_h accept_all id.
Definition sample_ReadFiles := ReadFiles aiPostProcess_h accept_all id.

(** [fmod x y] for [0 <= x] and [0 < y], by repeated subtraction (at most
    [fuel] times). *)
Fixpoint fmod_sub (fuel : nat) (x y : float) : float :=
  match fuel with
  | O => x
  | S fuel' => if (x <? y)%float then x else fmod_sub fuel' (x - y)%float y
  end.

Definition sample_fmod : float → float → float := fmod_sub 1000.

(** The rotation matrix of a quaternion. *)
Definition quaternion_matrix (q : aiQuaternion) : AssimpView.aiMatrix4x4 :=
  let (w, x, y, z) := q in
  let mul := float32_mul in
  let add := float32_add in
  let sub := float32_sub in
  let two := float32_2 in
  let one := float32_1 in
  {| AssimpView.a1 := sub one (mul two (add (mul y y) (mul z z)));
     AssimpView.a2 := mul two (sub (mul x y) (mul z w));
     AssimpView.a3 := mul two (add (mul x z) (mul y w));
     AssimpView.a4 := float32_0;
     AssimpView.b1 := mul two (add (mul x y) (mul z w));
     AssimpView.b2 := sub one (mul two (add (mul x x) (mul z z)));
     AssimpView.b3 := mul two (sub (mul y z) (mul x w));
     AssimpView.b4 := float32_0;
     AssimpView.c1 := mul two (sub (mul x z) (mul y w));
     AssimpView.c2 := mul two (add (mul y z) (mul x w));
     AssimpView.c3 := sub one (mul two (add (mul x x) (mul y y)));
     AssimpView.c4 := float32_0;
     AssimpView.d1 := float32_0; AssimpView.d2 := float32_0;
     AssimpView.d3 := float32_0; AssimpView.d4 := float32_1 |}.

(** An animation of ten ticks with the default rate and one channel of
    five position keys, at the ticks 0 to 4; and one at two ticks per
    second. *)
Definition sample_animation : aiAnimation := animation_of [position_channel 5].

Definition slow_animation : aiAnimation :=
  {| mDuration := 10%float; mTicksPerSecond := 2%float;
     mChannels := [position_channel 5] |}.

(** An animation without a duration (the value -1 of a loader that does
    not know it). *)
Definition still_animation : aiAnimation :=
  {| mDuration := (-1)%float; mTicksPerSecond := 0%float;
     mChannels := [position_channel 5] |}.

Definition sample_Evaluate := AssimpView.Evaluate sample_fmod quaternion_matrix.
Definition sample_Evaluates := AssimpView.Evaluates sample_fmod quaternion_matrix.

(** An importer that accepts the files named [notes.txt] and fails on
    them with a text; a dispatcher with it after the importer of
    [model.obj]; a step that is active for the triangulation flag and fails
    fatally. *)
Definition txt_importer : BaseImporter :=
  {| CanRead := λ pFile _ _, bool_decide (pFile = "notes.txt");
     BaseImporter_ReadFile := λ _ _ _, ImportFailed "not a model" |}.

Definition failing_step : BaseProcess :=
  {| IsActive := λ pFlags, bool_decide (Z.land pFlags aiProcess_Triangulate ≠ 0);
     ExecuteOnScene := λ _ _, ProcessFailed "degenerate mesh" |}.

Definition sample_this2 : Importer :=
  fst (Importer_new sample_fs [obj_importer scene_1x1; txt_importer]
         [accept_all; failing_step; triangulate_step] ∅).

(** The extensions of the importers of the examples, and the importers'
    [GetExtensionList]. *)
Definition sample_extensions (imp : BaseImporter) : string :=
  if CanRead imp "model.obj" None false then "*.obj" else "*.txt;*.text".

Definition sample_GetExtensionList_of (imp : BaseImporter) (append : string)
    : string :=
  append +:+ sample_extensions imp.

(** * Properties *)

(** ** Memory accounting *)

Lemma wrap32_add_l (a b : Z) : wrap32 (wrap32 a + b) = wrap32 (a + b).
Proof. unfold wrap32. apply Zplus_mod_idemp_l. Qed.

Lemma wrap32_add_r (a b : Z) : wrap32 (a + wrap32 b) = wrap32 (a + b).
Proof. unfold wrap32. apply Zplus_mod_idemp_r. Qed.

Lemma wrap32_range (a : Z) : 0 ≤ wrap32 a < 2 ^ 32.
Proof. unfold wrap32. apply Z.mod_pos_bound. lia. Qed.

Lemma for_loop_S {S : Type} (body : nat → S → option S) (n i : nat) (s : S) :
  for_loop (Datatypes.S n) i body s
  = body i s ≫= for_loop n (Datatypes.S i) body.
Proof. reflexivity. Qed.

(** A loop whose body is defined at every index below the bound is
    defined. *)
Lemma for_loop_is_Some {S : Type} (body : nat → S → option S) (n : nat) :
  ∀ (i : nat) (s : S),
    (∀ j s', (i ≤ j < i + n)%nat → is_Some (body j s')) →
    is_Some (for_loop n i body s).
Proof.
  induction n as [|n IH]; intros i s Hbody; simpl.
  - eauto.
  - destruct (Hbody i s) as [s' Hs']; [lia|].
    rewrite Hs'. simpl. apply IH. intros j s'' Hj. apply Hbody. lia.
Qed.

(** C2, as the code has it: for a loaded scene, [total] is the size of
    the [aiScene] structure plus the sum of the per-category fields, as an
    [unsigned int]; the call leaves the dispatcher, and so the scene, as it
    was. *)
Theorem GetMemoryRequirements_total (sz : Sizeof) (this this' : Importer)
    (scene : aiScene) (info : aiMemoryInfo) :
  mScene this = Some scene →
  GetMemoryRequirements sz this = Some (this', info) →
  this' = this ∧
  total info =
    wrap32 (sizeof_aiScene sz
            + (meshes info + materials info + animations info + textures info
               + cameras info + lights info + nodes info)).
Proof.
  intros Hscene Hget. unfold GetMemoryRequirements in Hget.
  rewrite Hscene in Hget. simplify_option_eq. split; [done|].
  simpl. repeat (rewrite <- ?Z.add_assoc; rewrite wrap32_add_l).
  f_equal. lia.
Qed.

(** The accounting is defined on every scene in which each animation
    either has no channel or has more channels than its own index in
    [mAnimations] (so that [mChannels[i]] exists); scenes without
    animations are among them. *)
Lemma GetMemoryRequirements_defined (sz : Sizeof) (this : Importer) (scene : aiScene) :
  mScene this = Some scene →
  (∀ i pc, mAnimations scene !! i = Some pc →
           mNumChannels pc = O ∨ (i < mNumChannels pc)%nat) →
  is_Some (GetMemoryRequirements sz this).
Proof.
  intros Hscene Hanim. unfold GetMemoryRequirements. rewrite Hscene.
  assert (Hm : ∀ acc, is_Some (for_loop (mNumMeshes scene) 0 (mesh_weight sz scene) acc)).
  { intros acc. apply for_loop_is_Some. intros j s' Hj.
    unfold mesh_weight, mNumMeshes in *.
    destruct (lookup_lt_is_Some_2 (mMeshes scene) j) as [m Hmj]; [lia|].
    rewrite Hmj. simpl.
    match goal with |- is_Some (?x ≫= _) => assert (Hb : is_Some x) end.
    { destruct (HasBones m); [|eauto]. apply for_loop_is_Some.
      intros p s'' Hp. unfold mNumBones in Hp.
      destruct (lookup_lt_is_Some_2 (mBones m) p) as [b Hb]; [lia|].
      rewrite Hb. simpl. eauto. }
    destruct Hb as [x ->]. simpl. eauto. }
  assert (Ht : ∀ acc, is_Some (for_loop (mNumTextures scene) 0 (texture_weight sz scene) acc)).
  { intros acc. apply for_loop_is_Some. intros j s' Hj.
    unfold texture_weight, mNumTextures in *.
    destruct (lookup_lt_is_Some_2 (mTextures scene) j) as [m Hmj]; [lia|].
    rewrite Hmj. simpl. case_bool_decide; eauto. }
  assert (Ha : ∀ acc, is_Some (for_loop (mNumAnimations scene) 0 (animation_weight sz scene) acc)).
  { intros acc. apply for_loop_is_Some. intros j s' Hj.
    unfold animation_weight, mNumAnimations in *.
    destruct (lookup_lt_is_Some_2 (mAnimations scene) j) as [pc Hpc]; [lia|].
    rewrite Hpc. simpl. destruct (Hanim j pc Hpc) as [Hzero|Hlt].
    - rewrite Hzero. simpl. eauto.
    - apply for_loop_is_Some. intros a s'' _. unfold mNumChannels in Hlt.
      destruct (lookup_lt_is_Some_2 (mChannels pc) j) as [pc2 Hpc2]; [lia|].
      rewrite Hpc2. simpl. eauto. }
  assert (Hmat : ∀ acc, is_Some (for_loop (mNumMaterials scene) 0 (material_weight sz scene) acc)).
  { intros acc. apply for_loop_is_Some. intros j s' Hj.
    unfold material_weight, mNumMaterials in *.
    destruct (lookup_lt_is_Some_2 (mMaterials scene) j) as [m Hmj]; [lia|].
    rewrite Hmj. simpl. apply for_loop_is_Some. intros p s'' Hp.
    unfold mNumProperties in Hp.
    destruct (lookup_lt_is_Some_2 (mProperties m) p) as [b Hb]; [lia|].
    rewrite Hb. simpl. eauto. }
  destruct (Hm 0) as [m ->]. destruct (Ht 0) as [t ->]. simpl.
  destruct (Ha 0) as [a ->]. simpl.
  destruct (Hmat 0) as [x ->]. simpl. eauto.
Qed.

(** The accounting of [scene_full], category by category. *)
Example GetMemoryRequirements_scene_full :
  GetMemoryRequirements sizeof_32 (loaded scene_full)
  = Some (loaded scene_full,
          {| textures := (16 + 100) + (16 + 4 * 2 * 2);
             materials := 12 + 5 * 4 + 10 + 20;
             meshes := 92 + 3 * 12 + 3 * 12 + 3 * 16 + 2 * (3 * 12)
                       + (4 + 1100 + 2 * 8) + (8 + 3 * 4);
             nodes := (1112 + 4 + 2 * 4) + 1112 + (1112 + 2 * 4);
             animations := 1056 + 1052 + 2 * 24;
             cameras := 1080;
             lights := 2 * 1112;
             total := 10506 |}).
Proof. reflexivity. Qed.

(** The theorem on a loaded scene of one animation. *)
Lemma GetMemoryRequirements_total_witness :
  ∃ info : aiMemoryInfo,
    GetMemoryRequirements sizeof_32 (loaded scene_1x1)
    = Some (loaded scene_1x1, info)
    ∧ total info =
        wrap32 (sizeof_aiScene sizeof_32
                + (meshes info + materials info + animations info
                   + textures info + cameras info + lights info + nodes info)).
Proof.
  eexists. split; [reflexivity|].
  exact (proj2 (GetMemoryRequirements_total sizeof_32 (loaded scene_1x1)
                  (loaded scene_1x1) scene_1x1 _ eq_refl eq_refl)).
Defined.

(** C2 as stated fails: on a loaded scene of one animation, [total] is
    3324 while the per-category fields sum to 3268; the difference is
    [sizeof(aiScene)]. *)
Lemma GetMemoryRequirements_total_not_sum :
  ∃ info : aiMemoryInfo,
    GetMemoryRequirements sizeof_32 (loaded scene_1x1)
    = Some (loaded scene_1x1, info)
    ∧ total info = 3324
    ∧ meshes info + materials info + animations info + textures info
      + cameras info + lights info + nodes info = 3268.
Proof. eexists. split; [reflexivity|]. split; reflexivity. Qed.

(** C3: the inner loop of the animation walk reads [mChannels[i]], [i]
    being the index of the animation.  With two animations of one channel
    each, the walk of the second animation reads [mChannels[1]], outside of
    the array, where the walk by the index of the channel is defined; with
    one animation of two channels (1 and 5 position keys), the first
    channel is counted twice and the second never. *)
Theorem GetMemoryRequirements_channel_index :
  (GetMemoryRequirements sizeof_32 (loaded scene_2x1) = None
   ∧ for_loop 2 0 (animation_weight sizeof_32 scene_2x1) 0 = None
   ∧ for_loop 2 0 (animation_weight_by_channel sizeof_32 scene_2x1) 0
     = Some (2 * (1056 + (1052 + 1 * 24))))
  ∧
  (for_loop 1 0 (animation_weight sizeof_32 scene_1x2) 0
   = Some (1056 + (1052 + 1 * 24) + (1052 + 1 * 24))
   ∧ for_loop 1 0 (animation_weight_by_channel sizeof_32 scene_1x2) 0
     = Some (1056 + (1052 + 1 * 24) + (1052 + 5 * 24))).
Proof. repeat split; reflexivity. Qed.

(** ** Strings *)

Lemma contains_prefix (needle rest : string) : contains needle (needle +:+ rest).
Proof. exists EmptyString, rest. reflexivity. Qed.

Lemma app_String_l (x : ascii) (s t : string) : String x s +:+ t = String x (s +:+ t).
Proof. reflexivity. Qed.

(** [find_last_of] finds a position exactly when the character occurs. *)
Lemma find_last_of_is_Some (s : string) (c : ascii) :
  is_Some (find_last_of s c) ↔ ∃ pre post : string, s = pre +:+ String c post.
Proof.
  induction s as [|x s IH]; simpl.
  - split.
    + intros [k Hk]. discriminate.
    + intros (pre & post & H). destruct pre; discriminate.
  - destruct (find_last_of s c) as [k|] eqn:Hf.
    + split; [|eauto]. intros _.
      destruct (proj1 IH) as (pre & post & ->); [eauto|].
      exists (String x pre), post. reflexivity.
    + destruct (decide (x = c)) as [->|Hne].
      * split; [|eauto]. intros _. exists EmptyString, s. reflexivity.
      * split.
        -- intros [k Hk]. discriminate.
        -- intros (pre & post & H).
           destruct pre as [|y pre]; injection H as Hx Hs.
           ++ congruence.
           ++ destruct (proj2 IH) as [k Hk]; [eauto|]. discriminate.
Qed.

(** ** Selection of the importer *)

(** ** Selection of the importer *)

Lemma probe_importers_hit (l : list BaseImporter) (pFile : string)
    (io : IOSystem) (checkSig : bool) :
  ∀ (a k : nat) (imp : BaseImporter),
    first_accepting l pFile io checkSig k imp →
    probe_importers l a pFile io checkSig
    = (Some imp, calls_of_pass checkSig a (S k)).
Proof.
  induction l as [|x l IH]; intros a k imp (Hk & Hacc & Hbefore).
  - discriminate.
  - destruct k as [|k]; simpl in *.
    + injection Hk as ->. rewrite Hacc. reflexivity.
    + rewrite (Hbefore O x) by (done || lia).
      rewrite (IH (S a) k imp).
      * reflexivity.
      * split; [done|]. split; [done|].
        intros j imp' Hj Hl. apply (Hbefore (S j) imp'); [lia|done].
Qed.

Lemma probe_importers_miss (l : list BaseImporter) (pFile : string)
    (io : IOSystem) (checkSig : bool) :
  ∀ a : nat,
    none_accepting l pFile io checkSig →
    probe_importers l a pFile io checkSig
    = (None, calls_of_pass checkSig a (length l)).
Proof.
  induction l as [|x l IH]; intros a Hnone; simpl.
  - reflexivity.
  - rewrite (Hnone O x) by done. rewrite (IH (S a)).
    + reflexivity.
    + intros j imp' Hl. apply (Hnone (S j) imp'). done.
Qed.

(** A pass either has a first accepting importer or none at all. *)
Lemma first_accepting_or_none (l : list BaseImporter) (pFile : string)
    (io : IOSystem) (checkSig : bool) :
  (∃ k imp, first_accepting l pFile io checkSig k imp)
  ∨ none_accepting l pFile io checkSig.
Proof.
  induction l as [|x l IH].
  - right. intros j imp' Hl. discriminate.
  - destruct (CanRead x pFile (Some io) checkSig) eqn:Hx.
    + left. exists O, x. split; [done|]. split; [done|]. intros j imp' Hj. lia.
    + destruct IH as [(k & imp & Hk & Hacc & Hbefore)|Hnone].
      * left. exists (S k), imp. split; [done|]. split; [done|].
        intros [|j] imp' Hj Hl; simpl in Hl.
        -- congruence.
        -- apply (Hbefore j imp'); [lia|done].
      * right. intros [|j] imp' Hl; simpl in Hl.
        -- congruence.
        -- apply (Hnone j imp'). done.
Qed.

Lemma first_accepting_not_none (l : list BaseImporter) (pFile : string)
    (io : IOSystem) (checkSig : bool) (k : nat) (imp : BaseImporter) :
  first_accepting l pFile io checkSig k imp →
  ¬ none_accepting l pFile io checkSig.
Proof. intros (Hk & Hacc & _) Hnone. rewrite (Hnone k imp Hk) in Hacc. done. Qed.

Lemma elem_of_calls_of_pass (checkSig b : bool) (first n a : nat) :
  (a, b) ∈ calls_of_pass checkSig first n → b = checkSig.
Proof.
  unfold calls_of_pass. intros H. apply list_elem_of_fmap in H.
  destruct H as (i & Heq & _). congruence.
Qed.

Lemma select_importer_pass_one (l : list BaseImporter) (pFile : string)
    (io : IOSystem) (k : nat) (imp : BaseImporter) :
  first_accepting l pFile io false k imp →
  select_importer l pFile io = (Some imp, calls_of_pass false 0 (S k)).
Proof.
  intros H. unfold select_importer.
  rewrite (probe_importers_hit l pFile io false 0 k imp H). reflexivity.
Qed.

Lemma select_importer_no_dot (l : list BaseImporter) (pFile : string)
    (io : IOSystem) :
  none_accepting l pFile io false →
  find_last_of pFile "."%char = None →
  select_importer l pFile io = (None, calls_of_pass false 0 (length l)).
Proof.
  intros H Hdot. unfold select_importer.
  rewrite (probe_importers_miss l pFile io false 0 H), Hdot. reflexivity.
Qed.

Lemma select_importer_pass_two (l : list BaseImporter) (pFile : string)
    (io : IOSystem) :
  none_accepting l pFile io false →
  is_Some (find_last_of pFile "."%char) →
  select_importer l pFile io
  = (fst (probe_importers l 0 pFile io true),
     calls_of_pass false 0 (length l) ++ snd (probe_importers l 0 pFile io true)).
Proof.
  intros H [s Hdot]. unfold select_importer.
  rewrite (probe_importers_miss l pFile io false 0 H), Hdot.
  destruct (probe_importers l 0 pFile io true). reflexivity.
Qed.

Section DispatchProperties.

Variable flags : aiPostProcessSteps.
Variable ValidateDSProcess : BaseProcess.
Variable ScenePreprocessor_ProcessScene : aiScene → aiScene.

Local Abbreviation ReadFile' :=
  (ReadFile flags ValidateDSProcess ScenePreprocessor_ProcessScene).
Local Abbreviation ReadFile_try' :=
  (ReadFile_try flags ValidateDSProcess ScenePreprocessor_ProcessScene).
Local Abbreviation import_with' :=
  (import_with flags ValidateDSProcess ScenePreprocessor_ProcessScene).
Local Abbreviation ReadFiles' :=
  (ReadFiles flags ValidateDSProcess ScenePreprocessor_ProcessScene).

Lemma mImporter_without_scene (this : Importer) :
  mImporter (without_scene this) = mImporter this.
Proof. unfold without_scene. destruct (mScene this); reflexivity. Qed.

Lemma mScene_without_scene (this : Importer) : mScene (without_scene this) = None.
Proof. unfold without_scene. destruct (mScene this) eqn:H; [reflexivity|done]. Qed.

Lemma mErrorString_without_scene (this : Importer) :
  mErrorString (without_scene this) = mErrorString this.
Proof. unfold without_scene. destruct (mScene this); reflexivity. Qed.

(** C4: the selection of the importer in [ReadFile], for a file that
    exists.  Pass one calls [CanRead] with [checkSig = false] on the
    importers in order and stops at the first that accepts; pass two (the
    calls with [checkSig = true]) runs only when pass one selected nobody
    and the path has a dot, and selects in the same way; with no importer
    selected, [ReadFile] returns null, holds no scene and the error string
    contains "No suitable reader". *)
Theorem ReadFile_importer_selection (h : gmap nat IOSystem) (this : Importer)
    (io : IOSystem) (pFile : string) (pFlags : Z) :
  h !! mIOHandler this = Some io →
  Exists io pFile = true →
  let l := mImporter this in
  let sel := select_importer l pFile io in
  let has_dot := ∃ pre post : string, pFile = pre +:+ String "."%char post in
  (∀ k imp, first_accepting l pFile io false k imp →
     sel = (Some imp, calls_of_pass false 0 (S k)))
  ∧ (∀ a, (a, true) ∈ snd sel → none_accepting l pFile io false ∧ has_dot)
  ∧ (none_accepting l pFile io false → has_dot →
     (∀ k imp, first_accepting l pFile io true k imp →
        sel = (Some imp,
               calls_of_pass false 0 (length l) ++ calls_of_pass true 0 (S k)))
     ∧ (none_accepting l pFile io true →
        sel = (None,
               calls_of_pass false 0 (length l) ++ calls_of_pass true 0 (length l))))
  ∧ (none_accepting l pFile io false → ¬ has_dot →
     sel = (None, calls_of_pass false 0 (length l)))
  ∧ (∀ imp, fst sel = Some imp →
     ReadFile' h this pFile pFlags
     = Some (ReadFile_finish (import_with' (without_scene this) imp io pFile pFlags)))
  ∧ (fst sel = None →
     ∃ this', ReadFile' h this pFile pFlags = Some (this', None)
       ∧ GetScene this' = None
       ∧ contains "No suitable reader" (GetErrorString this')).
Proof.
  intros Hio Hex l sel has_dot.
  assert (Hread : ReadFile' h this pFile pFlags
                  = Some (ReadFile_finish
                            (match fst sel with
                             | None =>
                                 (set_mErrorString (without_scene this)
                                    ("No suitable reader found for the file format of file "
                                       +:+ dquote +:+ pFile +:+ dquote +:+ "."),
                                  Returned None)
                             | Some imp =>
                                 import_with' (without_scene this) imp io pFile pFlags
                             end))).
  { unfold ReadFile, ReadFile_try. rewrite Hio. simpl.
    fold (without_scene this). rewrite Hex. simpl.
    rewrite mImporter_without_scene. reflexivity. }
  split; [|split; [|split; [|split; [|split]]]].
  - intros k imp H. apply select_importer_pass_one. exact H.
  - intros a Ha.
    destruct (first_accepting_or_none l pFile io false) as [(k & imp & H)|Hnone].
    + subst sel. rewrite (select_importer_pass_one l pFile io k imp H) in Ha.
      apply elem_of_calls_of_pass in Ha. discriminate.
    + split; [exact Hnone|].
      destruct (find_last_of pFile "."%char) as [s|] eqn:Hdot.
      * apply find_last_of_is_Some. rewrite Hdot. eauto.
      * subst sel. rewrite (select_importer_no_dot l pFile io Hnone Hdot) in Ha.
        apply elem_of_calls_of_pass in Ha. discriminate.
  - intros Hnone Hdot. apply find_last_of_is_Some in Hdot.
    subst sel. rewrite (select_importer_pass_two l pFile io Hnone Hdot). split.
    + intros k imp H. rewrite (probe_importers_hit l pFile io true 0 k imp H).
      reflexivity.
    + intros H. rewrite (probe_importers_miss l pFile io true 0 H). reflexivity.
  - intros Hnone Hdot. apply select_importer_no_dot; [exact Hnone|].
    destruct (find_last_of pFile "."%char) as [s|] eqn:Hf; [|reflexivity].
    exfalso. apply Hdot. apply find_last_of_is_Some. rewrite Hf. eauto.
  - intros imp Hsel. rewrite Hread, Hsel. reflexivity.
  - intros Hsel. rewrite Hread, Hsel. simpl. eexists. split; [reflexivity|].
    split.
    + unfold GetScene. simpl. apply mScene_without_scene.
    + unfold GetErrorString. simpl.
      exists EmptyString,
        (" found for the file format of file "
           +:+ dquote +:+ pFile +:+ dquote +:+ ".").
      reflexivity.
Qed.

(** C6: when the I/O handler does not find the path, [ReadFile] returns
    null, holds no scene, and the error string is "Unable to open file",
    a space and the path between double quotes, and a full stop. *)
Theorem ReadFile_unable_to_open (h : gmap nat IOSystem) (this : Importer)
    (io : IOSystem) (pFile : string) (pFlags : Z) :
  h !! mIOHandler this = Some io →
  Exists io pFile = false →
  ∃ this', ReadFile' h this pFile pFlags = Some (this', None)
    ∧ GetScene this' = None
    ∧ GetErrorString this'
      = "Unable to open file " +:+ dquote +:+ pFile +:+ dquote +:+ "."
    ∧ ∃ mid post : string,
        GetErrorString this' = "Unable to open file" +:+ mid +:+ pFile +:+ post.
Proof.
  intros Hio Hex. unfold ReadFile, ReadFile_try.
  rewrite Hio. simpl. fold (without_scene this). rewrite Hex. simpl.
  eexists. split; [reflexivity|]. split; [|split].
  - unfold GetScene. simpl. apply mScene_without_scene.
  - reflexivity.
  - exists (" " +:+ dquote), (dquote +:+ "."). reflexivity.
Qed.

(** ** Scene and error string after [ReadFile] *)

Lemma probe_importers_elem_of (l : list BaseImporter) (pFile : string)
    (io : IOSystem) (checkSig : bool) :
  ∀ (a : nat) (imp : BaseImporter),
    fst (probe_importers l a pFile io checkSig) = Some imp → imp ∈ l.
Proof.
  induction l as [|x l IH]; intros a imp; simpl.
  - discriminate.
  - destruct (CanRead x pFile (Some io) checkSig).
    + simpl. intros [= ->]. left.
    + destruct (probe_importers l (S a) pFile io checkSig) as [r t] eqn:Hp.
      simpl. intros ->. right. apply (IH (S a)). rewrite Hp. reflexivity.
Qed.

Lemma select_importer_elem_of (l : list BaseImporter) (pFile : string)
    (io : IOSystem) (imp : BaseImporter) :
  fst (select_importer l pFile io) = Some imp → imp ∈ l.
Proof.
  unfold select_importer.
  destruct (probe_importers l 0 pFile io false) as [[i|] t1] eqn:H1.
  - simpl. intros [= ->]. apply (probe_importers_elem_of l pFile io false 0).
    rewrite H1. reflexivity.
  - destruct (find_last_of pFile "."%char); [|discriminate].
    destruct (probe_importers l 0 pFile io true) as [r t2] eqn:H2.
    simpl. intros ->. apply (probe_importers_elem_of l pFile io true 0).
    rewrite H2. reflexivity.
Qed.

Lemma post_process_reports_failures (steps : list BaseProcess)
    (props : PropertyMap) (pFlags : Z) :
  Forall step_reports_failures steps →
  ∀ scene, post_process steps props pFlags scene ≠ ProcessFailed EmptyString.
Proof.
  induction 1 as [|p steps Hp _ IH]; intros scene; simpl.
  - discriminate.
  - destruct (IsActive p pFlags); [|apply IH].
    destruct (ExecuteOnScene p props scene) eqn:He.
    + apply IH.
    + intros [= ->]. exact (Hp props scene He).
    + discriminate.
Qed.

(** Names the dispatcher that a finished call leaves, and settles the
    parts of the goal that hold by computation. *)
Ltac finished_with :=
  simpl;
  match goal with
  | |- ∃ _, (?a, _) = _ ∧ _ => exists a
  end;
  split; [reflexivity|];
  split; [done|]; split; [done|]; split; [done|]; split; try done.

(** What [import_with] leaves, entered without a scene: the scene and the
    error string as before, or no scene and a text. *)
Lemma import_with_outcome (this : Importer) (imp : BaseImporter)
    (io : IOSystem) (pFile : string) (pFlags : Z) :
  mScene this = None →
  importer_reports_failures imp →
  Forall step_reports_failures (mPostProcessingSteps this) →
  step_reports_failures ValidateDSProcess →
  ∃ this', ReadFile_finish (import_with' this imp io pFile pFlags)
           = (this', GetScene this')
    ∧ mIOHandler this' = mIOHandler this
    ∧ mImporter this' = mImporter this
    ∧ mPostProcessingSteps this' = mPostProcessingSteps this
    ∧ (GetScene this' ≠ None → GetErrorString this' = GetErrorString this)
    ∧ (GetScene this' = None → GetErrorString this' ≠ EmptyString).
Proof.
  intros Hnone Himp Hsteps Hval. unfold import_with.
  destruct (BaseImporter_ReadFile imp (properties this) pFile io) as [scene|text|what] eqn:Hr.
  - match goal with
    | |- context [match ?v with Processed _ => _ | ProcessFailed _ => _ | ProcessThrew _ => _ end] =>
        destruct v as [scene'|text|what] eqn:Hv
    end.
    + match goal with
      | |- context [post_process ?s ?p ?f ?sc] =>
          pose proof (post_process_reports_failures s p f Hsteps sc) as Hpp;
          destruct (post_process s p f sc) as [scene''|text|what]
      end.
      * finished_with.
      * finished_with. intros _ Htext. simpl in Htext. subst text.
        exact (Hpp eq_refl).
      * finished_with.
    + finished_with. intros _ Htext. simpl in Htext. subst text.
      case_bool_decide; [|discriminate]. exact (Hval _ _ Hv).
    + finished_with.
  - finished_with.
    intros _ Htext. simpl in Htext. subst text. exact (Himp _ _ _ Hr).
  - finished_with.
Qed.

(** One call of [ReadFile]. *)
Lemma ReadFile_call (h : gmap nat IOSystem) (this : Importer)
    (pFile : string) (pFlags : Z) :
  is_Some (h !! mIOHandler this) →
  Forall importer_reports_failures (mImporter this) →
  Forall step_reports_failures (mPostProcessingSteps this) →
  step_reports_failures ValidateDSProcess →
  ∃ this', ReadFile' h this pFile pFlags = Some (this', GetScene this')
    ∧ mIOHandler this' = mIOHandler this
    ∧ mImporter this' = mImporter this
    ∧ mPostProcessingSteps this' = mPostProcessingSteps this
    ∧ (GetScene this' ≠ None → GetErrorString this' = GetErrorString this)
    ∧ (GetScene this' = None → GetErrorString this' ≠ EmptyString).
Proof.
  intros [io Hio] Himps Hsteps Hval.
  unfold ReadFile, ReadFile_try.
  rewrite Hio. simpl. fold (without_scene this).
  assert (Hfree : ∀ e r,
    ∃ this', ReadFile_finish (set_mErrorString (without_scene this) (String e r), Returned None)
             = (this', GetScene this')
      ∧ mIOHandler this' = mIOHandler this
      ∧ mImporter this' = mImporter this
      ∧ mPostProcessingSteps this' = mPostProcessingSteps this
      ∧ (GetScene this' ≠ None → GetErrorString this' = GetErrorString this)
      ∧ (GetScene this' = None → GetErrorString this' ≠ EmptyString)).
  { intros e r. exists (set_mErrorString (without_scene this) (String e r)).
    split.
    - simpl. unfold GetScene. simpl. rewrite mScene_without_scene. reflexivity.
    - unfold GetScene, GetErrorString, without_scene. simpl.
      destruct (mScene this) eqn:Hs; simpl; rewrite ?Hs; repeat split; done. }
  destruct (Exists io pFile); simpl.
  - match goal with
    | |- context [select_importer ?l ?f ?i] =>
        pose proof (select_importer_elem_of l f i) as Hin;
        destruct (fst (select_importer l f i)) as [imp|]
    end.
    + rewrite mImporter_without_scene in Hin.
      destruct (import_with_outcome (without_scene this) imp io pFile pFlags)
        as (this' & Heq & H1 & H2 & H3 & H4 & H5).
      * apply mScene_without_scene.
      * pose proof (Hin imp eq_refl) as Hel.
        rewrite Forall_forall in Himps. exact (Himps imp Hel).
      * unfold without_scene. destruct (mScene this); exact Hsteps.
      * exact Hval.
      * exists this'. rewrite Heq. split; [reflexivity|].
        unfold GetErrorString in *. rewrite mErrorString_without_scene in H4.
        unfold without_scene in H1, H2, H3.
        destruct (mScene this); simpl in *; repeat split; done.
    + destruct (Hfree "N"%char
                  ("o suitable reader found for the file format of file "
                     +:+ dquote +:+ pFile +:+ dquote +:+ "."))
        as (this' & Heq & H). exists this'. split; [|exact H].
      f_equal. exact Heq.
  - destruct (Hfree "U"%char
                ("nable to open file " +:+ dquote +:+ pFile +:+ dquote +:+ "."))
      as (this' & Heq & H). exists this'. split; [|exact H].
    f_equal. exact Heq.
Qed.

Lemma before_call_cons (this : Importer) (r0 : Importer * option aiScene)
    (rs : list (Importer * option aiScene)) (m : nat) :
  before_call this (r0 :: rs) (S m) = before_call (fst r0) rs m.
Proof. destruct m; reflexivity. Qed.

(** A sequence of calls: every call returns, and is described by
    [ReadFile_call]. *)
Lemma ReadFiles_calls (h : gmap nat IOSystem) (calls : list (string * Z)) :
  ∀ this : Importer,
    is_Some (h !! mIOHandler this) →
    Forall importer_reports_failures (mImporter this) →
    Forall step_reports_failures (mPostProcessingSteps this) →
    step_reports_failures ValidateDSProcess →
    ∃ results, ReadFiles' h this calls = Some results
      ∧ length results = length calls
      ∧ ∀ n this_n r prev,
          results !! n = Some (this_n, r) →
          before_call this results n = Some prev →
          r = GetScene this_n
          ∧ (GetScene this_n ≠ None → GetErrorString this_n = GetErrorString prev)
          ∧ (GetScene this_n = None → GetErrorString this_n ≠ EmptyString).
Proof.
  induction calls as [|[pFile pFlags] rest IH]; intros this Hio Himps Hsteps Hval.
  - exists []. split; [reflexivity|]. split; [reflexivity|].
    intros n this_n r prev Hn. discriminate.
  - destruct (ReadFile_call h this pFile pFlags Hio Himps Hsteps Hval)
      as (this1 & Hcall & H1 & H2 & H3 & Hok & Hfail).
    destruct (IH this1) as (rs & Hrs & Hlen & Hall).
    + rewrite H1. exact Hio.
    + rewrite H2. exact Himps.
    + rewrite H3. exact Hsteps.
    + exact Hval.
    + exists ((this1, GetScene this1) :: rs). split; [|split].
      * simpl. rewrite Hcall. simpl. rewrite Hrs. reflexivity.
      * simpl. rewrite Hlen. reflexivity.
      * intros [|m] this_n r prev Hn Hprev.
        -- simpl in Hn, Hprev. injection Hn as <- <-. injection Hprev as <-.
           split; [reflexivity|]. split; assumption.
        -- rewrite before_call_cons in Hprev. simpl in Hn, Hprev.
           exact (Hall m this_n r prev Hn Hprev).
Qed.

(** C1, as the code has it.  The importers, the validation and the steps
    are taken to report a failure with a text that is not empty.  Every
    call of a sequence returns; after each call [GetScene] is what the call
    returned; a call that leaves no scene leaves an error string that is not
    empty; a call that leaves a scene leaves the error string as it was
    before the call.  So an empty error string always comes with a scene,
    and a scene comes with an empty error string when the error string was
    empty before the sequence and no earlier call of the sequence failed. *)
Theorem ReadFiles_scene_and_error (h : gmap nat IOSystem) (this : Importer)
    (calls : list (string * Z)) :
  is_Some (h !! mIOHandler this) →
  Forall importer_reports_failures (mImporter this) →
  Forall step_reports_failures (mPostProcessingSteps this) →
  step_reports_failures ValidateDSProcess →
  ∃ results, ReadFiles' h this calls = Some results
    ∧ length results = length calls
    ∧ ∀ n this_n r prev,
        results !! n = Some (this_n, r) →
        before_call this results n = Some prev →
        r = GetScene this_n
        ∧ (GetScene this_n ≠ None → GetErrorString this_n = GetErrorString prev)
        ∧ (GetScene this_n = None → GetErrorString this_n ≠ EmptyString)
        ∧ (GetErrorString this_n = EmptyString → GetScene this_n ≠ None)
        ∧ (GetErrorString this = EmptyString →
           (∀ m s r', (m < n)%nat → results !! m = Some (s, r') → GetScene s ≠ None) →
           (GetScene this_n ≠ None ↔ GetErrorString this_n = EmptyString)).
Proof.
  intros Hio Himps Hsteps Hval.
  destruct (ReadFiles_calls h calls this Hio Himps Hsteps Hval)
    as (results & Hres & Hlen & Hall).
  exists results. split; [exact Hres|]. split; [exact Hlen|].
  assert (Hprev : ∀ n prev,
            GetErrorString this = EmptyString →
            (∀ m s r', (m < n)%nat → results !! m = Some (s, r') → GetScene s ≠ None) →
            before_call this results n = Some prev →
            GetErrorString prev = EmptyString).
  { induction n as [|n IHn]; intros prev Hempty Hbefore Hp.
    - injection Hp as <-. exact Hempty.
    - simpl in Hp. destruct (results !! n) as [[s r']|] eqn:Hn; [|discriminate].
      injection Hp as <-.
      assert (Hlt : (n < length results)%nat) by (eapply lookup_lt_Some; eauto).
      destruct (before_call this results n) as [p|] eqn:Hbp.
      + destruct (Hall n s r' p Hn Hbp) as (_ & Hok & _).
        rewrite Hok by (apply (Hbefore n s r'); [lia|done]).
        apply IHn; [exact Hempty| |reflexivity].
        intros m s' r'' Hm. apply Hbefore. lia.
      + destruct n as [|k]; [discriminate|]. simpl in Hbp.
        destruct (lookup_lt_is_Some_2 results k) as [x Hx]; [lia|].
        rewrite Hx in Hbp. discriminate. }
  intros n this_n r prev Hn Hp.
  destruct (Hall n this_n r prev Hn Hp) as (Hr & Hok & Hfail).
  split; [exact Hr|]. split; [exact Hok|]. split; [exact Hfail|]. split.
  - intros Hempty Hnone. exact (Hfail Hnone Hempty).
  - intros Hempty Hbefore. split.
    + intros Hscene. rewrite (Hok Hscene).
      exact (Hprev n prev Hempty Hbefore Hp).
    + intros He Hnone. exact (Hfail Hnone He).
Qed.

End DispatchProperties.

(** ** The examples *)

Lemma sample_handler :
  sample_store !! mIOHandler sample_this = Some (DefaultIOSystem sample_fs).
Proof. reflexivity. Qed.

(** [loaded] is the dispatcher after a successful import. *)
Example sample_ReadFile_loaded :
  sample_ReadFile sample_store sample_this "model.obj" 0
  = Some (loaded scene_1x1, Some scene_1x1).
Proof. reflexivity. Qed.

Lemma sample_reports_failures :
  Forall importer_reports_failures (mImporter sample_this)
  ∧ Forall step_reports_failures (mPostProcessingSteps sample_this)
  ∧ step_reports_failures accept_all.
Proof.
  split; [|split].
  - constructor; [|constructor]. intros props pFile io. discriminate.
  - constructor; [|constructor]. intros props scene. discriminate.
  - intros props scene. discriminate.
Qed.

(** The theorem on a failed import followed by a successful one. *)
Lemma ReadFiles_scene_and_error_witness :
  ∃ results,
    sample_ReadFiles sample_store sample_this
      [("missing.obj", 0); ("model.obj", 0)] = Some results
    ∧ length results = 2%nat.
Proof.
  destruct (ReadFiles_scene_and_error aiPostProcess_h accept_all id
              sample_store sample_this [("missing.obj", 0); ("model.obj", 0)])
    as (results & Hres & Hlen & _).
  - exists (DefaultIOSystem sample_fs). reflexivity.
  - exact (proj1 sample_reports_failures).
  - exact (proj1 (proj2 sample_reports_failures)).
  - exact (proj2 (proj2 sample_reports_failures)).
  - exists results. split; [exact Hres|exact Hlen].
Defined.

(** C1 as stated fails: an import of a file that does not exist, then a
    successful import on the same dispatcher.  After the second call the
    dispatcher holds the scene and the error string is still the message
    of the first call. *)
Lemma ReadFile_keeps_error_string :
  ∃ this1 this2,
    sample_ReadFiles sample_store sample_this
      [("missing.obj", 0); ("model.obj", 0)]
    = Some [(this1, None); (this2, Some scene_1x1)]
    ∧ GetScene this2 = Some scene_1x1
    ∧ GetErrorString this2
      = "Unable to open file " +:+ dquote +:+ "missing.obj" +:+ dquote +:+ ".".
Proof. eexists. eexists. split; [reflexivity|]. split; reflexivity. Qed.

(** The import of the empty path. *)
Lemma ReadFile_unable_to_open_witness :
  ∃ this', sample_ReadFile sample_store sample_this "" 0 = Some (this', None)
    ∧ GetScene this' = None
    ∧ GetErrorString this' = "Unable to open file " +:+ dquote +:+ dquote +:+ "."
    ∧ ∃ mid post : string,
        GetErrorString this' = "Unable to open file" +:+ mid +:+ "" +:+ post.
Proof.
  exact (ReadFile_unable_to_open aiPostProcess_h accept_all id sample_store
           sample_this (DefaultIOSystem sample_fs) "" 0 eq_refl eq_refl).
Defined.

(** A file that the first pass resolves, and a file with a dot in its name
    that no importer accepts in either pass. *)
Lemma ReadFile_importer_selection_witness :
  select_importer (mImporter sample_this) "model.obj" (DefaultIOSystem sample_fs)
  = (Some (obj_importer scene_1x1), calls_of_pass false 0 1)
  ∧ ∃ this',
      sample_ReadFile sample_store sample_this "notes.txt" 0
      = Some (this', None)
      ∧ GetScene this' = None
      ∧ contains "No suitable reader" (GetErrorString this').
Proof.
  split.
  - refine (proj1 (ReadFile_importer_selection aiPostProcess_h accept_all id
                     sample_store sample_this (DefaultIOSystem sample_fs)
                     "model.obj" 0 eq_refl eq_refl) O (obj_importer scene_1x1) _).
    split; [reflexivity|]. split; [reflexivity|]. intros j imp' Hj. lia.
  - refine (proj2 (proj2 (proj2 (proj2 (proj2
              (ReadFile_importer_selection aiPostProcess_h accept_all id
                 sample_store sample_this
                 (DefaultIOSystem sample_fs) "notes.txt" 0 eq_refl eq_refl))))) _).
    reflexivity.
Defined.

(** ** Flag validation *)

Lemma land_pow2_testbit (a j : Z) :
  0 ≤ j → (Z.land a (2 ^ j) ≠ 0 ↔ Z.testbit a j = true).
Proof.
  intros Hj. split.
  - intros Hne. destruct (Z.testbit a j) eqn:Hbit; [reflexivity|].
    exfalso. apply Hne. apply Z.bits_inj'. intros n Hn.
    rewrite Z.land_spec, Z.bits_0, Z.pow2_bits_eqb by lia.
    destruct (Z.eqb_spec j n) as [->|_].
    + rewrite Hbit. reflexivity.
    + apply andb_false_r.
  - intros Hbit Hz.
    assert (H : Z.testbit (Z.land a (2 ^ j)) j = true).
    { rewrite Z.land_spec, Hbit, Z.pow2_bits_eqb, Z.eqb_refl by lia. reflexivity. }
    rewrite Hz, Z.bits_0 in H. discriminate.
Qed.

Lemma wrap32_shiftl_pow2 (k : Z) :
  0 ≤ k < 31 → wrap32 (Z.shiftl (2 ^ k) 1) = 2 ^ (k + 1).
Proof.
  intros Hk. rewrite Z.shiftl_mul_pow2 by lia.
  replace (2 ^ k * 2 ^ 1) with (2 ^ (k + 1)) by (rewrite Z.pow_add_r; lia).
  unfold wrap32. apply Z.mod_small. split; [lia|].
  apply Z.pow_lt_mono_r; lia.
Qed.

(** The loop over the masks, entered at [2^k]: it ends within [32 - k]
    evaluations of its condition, and it succeeds exactly when every flag
    bit from [k] to 30 has a step. *)
Lemma mask_loop_spec (steps : list BaseProcess) (pFlags : Z) :
  ∀ (fuel : nat) (k : Z),
    0 ≤ k ≤ 31 → 32 - k ≤ Z.of_nat fuel →
    ∃ b, mask_loop fuel steps pFlags (2 ^ k) = Some b
      ∧ (b = true ↔
         ∀ j, k ≤ j < 31 → Z.testbit pFlags j = true →
              have_step steps (2 ^ j) = true).
Proof.
  induction fuel as [|fuel IH]; intros k Hk Hfuel; [lia|]. simpl.
  case_bool_decide as Hlt.
  - assert (Hk31 : k < 31).
    { destruct (Z.lt_ge_cases k 31) as [?|Hge]; [done|].
      assert (k = 31) by lia. subst k. lia. }
    destruct (bool_decide (Z.land pFlags (2 ^ k) ≠ 0) && negb (have_step steps (2 ^ k)))
      eqn:Hbad.
    + exists false. split; [reflexivity|]. split; [discriminate|].
      intros Hall. apply andb_true_iff in Hbad as [Hset Hnot].
      apply bool_decide_eq_true in Hset. apply land_pow2_testbit in Hset; [|lia].
      rewrite (Hall k) in Hnot by (lia || done). discriminate.
    + rewrite wrap32_shiftl_pow2 by lia.
      destruct (IH (k + 1)) as (b & Hb & Hiff); [lia|lia|].
      exists b. split; [exact Hb|]. rewrite Hiff. split.
      * intros Hall j Hj Hbit. destruct (Z.eq_dec j k) as [->|Hne].
        -- apply andb_false_iff in Hbad as [Hclear|Hhave].
           ++ apply bool_decide_eq_false in Hclear.
              exfalso. apply Hclear. apply land_pow2_testbit; [lia|done].
           ++ apply negb_false_iff in Hhave. exact Hhave.
        -- apply Hall; [lia|done].
      * intros Hall j Hj Hbit. apply Hall; [lia|done].
  - assert (k = 31).
    { destruct (Z.eq_dec k 31) as [?|Hne]; [done|]. exfalso. apply Hlt.
      apply Z.pow_lt_mono_r; lia. }
    subst k. exists true. split; [reflexivity|]. split; [|done].
    intros _ j Hj. lia.
Qed.

Lemma mask_loop_finishes (steps : list BaseProcess) (pFlags : Z) :
  is_Some (mask_loop 32 steps pFlags 1).
Proof.
  destruct (mask_loop_spec steps pFlags 32 0) as (b & Hb & _); [lia|lia|].
  exists b. exact Hb.
Qed.

(** What [ValidateFlags] checks: the two normal-generation flags are not
    both set, and every flag bit from 0 to 30 that is set, the validation
    flag apart, has a step that is active for it.  Bit 31 is outside of the
    range of the loop. *)
Lemma ValidateFlags_spec (flags : aiPostProcessSteps) (this : Importer) (pFlags : Z) :
  ValidateFlags flags this pFlags = true ↔
    ¬ (Z.land pFlags (aiProcess_GenSmoothNormals flags) ≠ 0
       ∧ Z.land pFlags (aiProcess_GenNormals flags) ≠ 0)
    ∧ ∀ j, 0 ≤ j < 31 →
        Z.testbit pFlags j = true →
        Z.testbit (aiProcess_ValidateDataStructure flags) j = false →
        ∃ p, p ∈ mPostProcessingSteps this ∧ IsActive p (2 ^ j) = true.
Proof.
  unfold ValidateFlags, _ValidateFlags.
  set (pFlags' := Z.land pFlags (Z.lnot (aiProcess_ValidateDataStructure flags))).
  destruct (mask_loop_spec (mPostProcessingSteps this) pFlags' 32 0)
    as (b & Hb & Hiff); [lia|lia|].
  change (2 ^ 0) with 1 in Hb. rewrite Hb.
  assert (Hhave : ∀ j, have_step (mPostProcessingSteps this) (2 ^ j) = true ↔
                       ∃ p, p ∈ mPostProcessingSteps this ∧ IsActive p (2 ^ j) = true).
  { intros j. unfold have_step. rewrite existsb_exists. split.
    - intros (p & Hin & Hact). exists p. split; [|done].
      apply list_elem_of_In. exact Hin.
    - intros (p & Hin & Hact). exists p. split; [|done].
      apply list_elem_of_In. exact Hin. }
  assert (Hbits : ∀ j, 0 ≤ j → Z.testbit pFlags' j = true ↔
                       Z.testbit pFlags j = true
                       ∧ Z.testbit (aiProcess_ValidateDataStructure flags) j = false).
  { intros j Hj. unfold pFlags'. rewrite Z.land_spec, Z.lnot_spec by lia.
    rewrite andb_true_iff, negb_true_iff. reflexivity. }
  destruct (bool_decide (Z.land pFlags (aiProcess_GenSmoothNormals flags) ≠ 0)) eqn:H1;
    destruct (bool_decide (Z.land pFlags (aiProcess_GenNormals flags) ≠ 0)) eqn:H2;
    simpl;
    try apply bool_decide_eq_true in H1; try apply bool_decide_eq_false in H1;
    try apply bool_decide_eq_true in H2; try apply bool_decide_eq_false in H2.
  - split; [discriminate|]. intros [Hboth _]. exfalso. apply Hboth. done.
  - rewrite Hiff. split.
    + intros Hall. split; [tauto|]. intros j Hj Hbit Hval.
      apply Hhave. apply Hall; [lia|]. apply Hbits; [lia|done].
    + intros [_ Hall] j Hj Hbit. apply Hbits in Hbit as [Hbit Hval]; [|lia].
      apply Hhave. apply Hall; [lia|done|done].
  - rewrite Hiff. split.
    + intros Hall. split; [tauto|]. intros j Hj Hbit Hval.
      apply Hhave. apply Hall; [lia|]. apply Hbits; [lia|done].
    + intros [_ Hall] j Hj Hbit. apply Hbits in Hbit as [Hbit Hval]; [|lia].
      apply Hhave. apply Hall; [lia|done|done].
  - rewrite Hiff. split.
    + intros Hall. split; [tauto|]. intros j Hj Hbit Hval.
      apply Hhave. apply Hall; [lia|]. apply Hbits; [lia|done].
    + intros [_ Hall] j Hj Hbit. apply Hbits in Hbit as [Hbit Hval]; [|lia].
      apply Hhave. apply Hall; [lia|done|done].
Qed.

(** C5: a flag set that is bit 31 alone does not contain the two
    normal-generation flags, bit 31 is not the validation flag, and no step
    of the dispatcher is active for it; [ValidateFlags] accepts it.  The
    same dispatcher rejects bit 30, accepts the triangulation flag and the
    validation flag, and rejects the two normal-generation flags
    together. *)
Theorem ValidateFlags_bit_31 :
  ValidateFlags aiPostProcess_h sample_this 0x80000000 = true
  ∧ Z.land 0x80000000 (aiProcess_GenSmoothNormals aiPostProcess_h) = 0
  ∧ Z.land 0x80000000 (aiProcess_GenNormals aiPostProcess_h) = 0
  ∧ Z.land 0x80000000 (aiProcess_ValidateDataStructure aiPostProcess_h) = 0
  ∧ (∀ p, p ∈ mPostProcessingSteps sample_this → IsActive p 0x80000000 = false)
  ∧ ValidateFlags aiPostProcess_h sample_this 0x40000000 = false
  ∧ ValidateFlags aiPostProcess_h sample_this aiProcess_Triangulate = true
  ∧ ValidateFlags aiPostProcess_h sample_this 0x400 = true
  ∧ ValidateFlags aiPostProcess_h sample_this 0x60 = false.
Proof.
  repeat split; try reflexivity.
  intros p Hp. apply list_elem_of_singleton in Hp. subst p. reflexivity.
Qed.

(** ** I/O handler *)




(** ** Configuration properties *)

Lemma GetGenericProperty_Set {T : Type} (list : gmap string T)
    (szName : string) (value errorReturn : T) :
  GetGenericProperty (fst (SetGenericProperty list szName value)) szName errorReturn
  = value.
Proof.
  unfold GetGenericProperty, SetGenericProperty. simpl.
  rewrite lookup_insert_eq. reflexivity.
Qed.

(** The stores after a history of calls hold no key that the history has
    not written. *)
Lemma set_properties_seq_absent (history : list PropertyCall) (k : string) :
  ∀ this : Importer,
    (mIntProperties this !! k = None → Some k ∉ integer_key <$> history →
     mIntProperties (set_properties_seq this history) !! k = None)
    ∧ (mFloatProperties this !! k = None → Some k ∉ float_key <$> history →
       mFloatProperties (set_properties_seq this history) !! k = None)
    ∧ (mStringProperties this !! k = None → Some k ∉ string_key <$> history →
       mStringProperties (set_properties_seq this history) !! k = None).
Proof.
  induction history as [|c history IH]; intros this.
  - done.
  - destruct (IH (set_property this c)) as (Hi & Hf & Hs).
    split; [|split]; intros Hnone Hnot; simpl;
      rewrite fmap_cons, not_elem_of_cons in Hnot; destruct Hnot as [Hc Hrest].
    + apply Hi; [|exact Hrest]. destruct c as [k' v|k' v|k' v]; simpl; try done.
      rewrite lookup_insert_ne; [done|]. simpl in Hc. congruence.
    + apply Hf; [|exact Hrest]. destruct c as [k' v|k' v|k' v]; simpl; try done.
      rewrite lookup_insert_ne; [done|]. simpl in Hc. congruence.
    + apply Hs; [|exact Hrest]. destruct c as [k' v|k' v|k' v]; simpl; try done.
      rewrite lookup_insert_ne; [done|]. simpl in Hc. congruence.
Qed.

(** C8: a get after a set of the same key returns the value that was set,
    whatever the default; on a dispatcher whose history since its
    construction has no set of the key in the integer store, the get
    returns the default; the same for the float and the string operations,
    each on its own store (a set in one store does not count for the
    other two). *)
Theorem property_round_trip :
  (∀ (this : Importer) (k : string) (v d : Z),
     GetPropertyInteger (fst (SetPropertyInteger this k v)) k d = v)
  ∧ (∀ (this : Importer) (k : string) (v d : float32),
     GetPropertyFloat (fst (SetPropertyFloat this k v)) k d = v)
  ∧ (∀ (this : Importer) (k : string) (v d : string),
     GetPropertyString (fst (SetPropertyString this k v)) k d = v)
  ∧ ∀ (fs : string → bool) (importers : list BaseImporter)
      (steps : list BaseProcess) (h : gmap nat IOSystem)
      (history : list PropertyCall) (k : string),
      let this :=
        set_properties_seq (fst (Importer_new fs importers steps h)) history in
      (Some k ∉ integer_key <$> history →
       ∀ d : Z, GetPropertyInteger this k d = d)
      ∧ (Some k ∉ float_key <$> history →
         ∀ d : float32, GetPropertyFloat this k d = d)
      ∧ (Some k ∉ string_key <$> history →
         ∀ d : string, GetPropertyString this k d = d).
Proof.
  split; [|split; [|split]].
  - intros this k v d. apply (GetGenericProperty_Set (mIntProperties this)).
  - intros this k v d. apply (GetGenericProperty_Set (mFloatProperties this)).
  - intros this k v d. apply (GetGenericProperty_Set (mStringProperties this)).
  - intros fs importers steps h history k this.
    destruct (set_properties_seq_absent history k
                (fst (Importer_new fs importers steps h))) as (Hi & Hf & Hs).
    unfold GetPropertyInteger, GetPropertyFloat, GetPropertyString,
      GetGenericProperty.
    split; [|split]; intros Hnot d; subst this.
    + rewrite Hi; [reflexivity|apply lookup_empty|exact Hnot].
    + rewrite Hf; [reflexivity|apply lookup_empty|exact Hnot].
    + rewrite Hs; [reflexivity|apply lookup_empty|exact Hnot].
Qed.

(** A key that the history writes in the float and the string store only:
    the integer get returns the default, and the value once it is set. *)
Lemma property_round_trip_witness :
  let history := [CallSetPropertyFloat "limit" float32_2;
                  CallSetPropertyInteger "other" 7;
                  CallSetPropertyString "limit" "x"] in
  (Some "limit" ∉ integer_key <$> history)
  ∧ GetPropertyInteger
      (set_properties_seq
         (fst (Importer_new sample_fs [] [] ∅)) history) "limit" (-1) = -1
  ∧ GetPropertyInteger
      (fst (SetPropertyInteger
              (set_properties_seq (fst (Importer_new sample_fs [] [] ∅)) history)
              "limit" 4)) "limit" (-1) = 4.
Proof.
  intros history.
  assert (Hnot : Some "limit" ∉ integer_key <$> history).
  { intros Hin. vm_compute in Hin. repeat (inversion Hin as [|? ? ? Hin']; subst; clear Hin; rename Hin' into Hin). }
  split; [exact Hnot|]. split.
  - exact (proj1 (proj2 (proj2 (proj2 property_round_trip)) sample_fs [] [] ∅
                    history "limit") Hnot (-1)).
  - exact (proj1 property_round_trip _ "limit" 4 (-1)).
Defined.

(** * The animation evaluator *)

Import AssimpView.

(** ** Order of the time stamps *)

Lemma SFltb_SFleb_trans (a b k : spec_float) :
  SFleb a b = true → SFltb a k = false → SFltb b k = false.
Proof.
  unfold SFleb, SFltb.
  destruct a as [sa|sa| |sa ma ea], b as [sb|sb| |sb mb eb],
           k as [sk|sk| |sk mk ek];
    simpl; try congruence;
    repeat match goal with
           | s : bool |- _ => destruct s
           end; simpl; try congruence;
    repeat match goal with
           | |- context [Z.compare ?x ?y] => destruct (Z.compare_spec x y)
           end; try congruence; try lia;
    repeat match goal with
           | |- context [PosDef.Pos.compare_cont Eq ?x ?y] =>
               change (PosDef.Pos.compare_cont Eq x y) with (Pos.compare x y);
               destruct (Pos.compare_spec x y)
           end; simpl; try congruence; try lia.
Qed.

(** A time that is not before a key stays so when it grows. *)
Lemma ltb_false_leb_trans (t0 t k : float) :
  (t0 <=? t)%float = true → (t0 <? k)%float = false → (t <? k)%float = false.
Proof. rewrite leb_spec, !ltb_spec. apply SFltb_SFleb_trans. Qed.

(** ** The search of one track *)

Section TrackProperties.

Context {K : Type}.
Variable key_mTime : K → float.
Variable keys : list K.

Lemma advances_mono (t0 t : float) (j : nat) :
  (t0 <=? t)%float = true →
  advances key_mTime keys t0 j → advances key_mTime keys t j.
Proof.
  intros Hle (Hlt & k & Hk & Hnot). split; [exact Hlt|].
  exists k. split; [exact Hk|]. exact (ltb_false_leb_trans t0 t _ Hle Hnot).
Qed.

(** The loop ends within the fuel, at the first frame from [frame] on
    where it does not go on. *)
Lemma find_frame_spec (time : float) :
  ∀ fuel frame : nat,
    (length keys - 1 - frame < fuel)%nat →
    ∃ r, find_frame key_mTime keys time fuel frame = Some r
      ∧ (frame ≤ r)%nat
      ∧ (∀ j, (frame ≤ j < r)%nat → advances key_mTime keys time j)
      ∧ ¬ advances key_mTime keys time r
      ∧ ((frame ≤ length keys - 1)%nat → (r ≤ length keys - 1)%nat).
Proof.
  induction fuel as [|fuel IH]; intros frame Hfuel; [lia|]. simpl.
  case_bool_decide as Hlt.
  - destruct (lookup_lt_is_Some_2 keys (frame + 1)) as [k Hk]; [lia|].
    rewrite Hk. simpl. destruct (time <? key_mTime k)%float eqn:Hcmp.
    + exists frame. split; [reflexivity|]. split; [lia|]. split; [intros j; lia|].
      split; [|lia]. intros (_ & k' & Hk' & Hnot). congruence.
    + destruct (IH (frame + 1)%nat) as (r & Hr & Hge & Hadv & Hstop & Hbound); [lia|].
      exists r. split; [exact Hr|]. split; [lia|]. split; [|split; [exact Hstop|lia]].
      intros j Hj. destruct (decide (j = frame)) as [->|Hne].
      * split; [exact Hlt|]. exists k. split; [exact Hk|exact Hcmp].
      * apply Hadv. lia.
  - exists frame. split; [reflexivity|]. split; [lia|]. split; [intros j; lia|].
    split; [|lia]. intros (Hlt' & _). contradiction.
Qed.

(** The frame where the search stops is determined by the time. *)
Lemma stop_unique (time : float) (r1 r2 : nat) :
  (∀ j, (j < r1)%nat → advances key_mTime keys time j) →
  ¬ advances key_mTime keys time r1 →
  (∀ j, (j < r2)%nat → advances key_mTime keys time j) →
  ¬ advances key_mTime keys time r2 →
  r1 = r2.
Proof.
  intros H1 Hs1 H2 Hs2.
  destruct (lt_eq_lt_dec r1 r2) as [[Hlt|Heq]|Hgt]; [|exact Heq|].
  - exfalso. apply Hs1. apply H2. exact Hlt.
  - exfalso. apply Hs2. apply H1. exact Hgt.
Qed.

Lemma track_inv_nil (mLastTime : float) (cached : nat) :
  keys = [] → track_inv key_mTime keys mLastTime cached → cached = O.
Proof.
  intros -> Hinv. destruct cached as [|c]; [reflexivity|].
  destruct (Hinv O) as (Hlt & _); [lia|]. simpl in Hlt. lia.
Qed.

(** A track with keys: the search from the cached frame selects the key
    that the search from frame 0 selects, and the new cache agrees with
    the time. *)
Lemma evaluate_track_cached (time mLastTime : float) (cached : nat) :
  (0 < length keys)%nat →
  track_inv key_mTime keys mLastTime cached →
  ∃ k r,
    evaluate_track key_mTime keys time mLastTime cached = Some (k, r)
    ∧ evaluate_track_from_start key_mTime keys time = Some (k, r)
    ∧ track_inv key_mTime keys time r.
Proof.
  intros Hlen Hinv.
  destruct (find_frame_spec time (length keys) 0)
    as (r0 & Hr0 & _ & Hadv0 & Hstop0 & Hbound0); [lia|].
  destruct (lookup_lt_is_Some_2 keys r0) as [k Hk]; [lia|].
  assert (Href : evaluate_track_from_start key_mTime keys time = Some (k, r0)).
  { unfold evaluate_track_from_start. rewrite Hr0. simpl. rewrite Hk. reflexivity. }
  assert (Hinv0 : track_inv key_mTime keys time r0).
  { intros j Hj. apply Hadv0. lia. }
  exists k, r0. split; [|split; [exact Href|exact Hinv0]].
  unfold evaluate_track. destruct (mLastTime <=? time)%float eqn:Hle.
  - destruct (find_frame_spec time (length keys) cached)
      as (rc & Hrc & Hge & Hadvc & Hstopc & _); [lia|].
    assert (rc = r0) as ->.
    { apply (stop_unique time); [|exact Hstopc|exact Hinv0|exact Hstop0].
      intros j Hj. destruct (decide (j < cached)%nat) as [Hjc|Hjc].
      - apply (advances_mono mLastTime time j Hle). apply Hinv. exact Hjc.
      - apply Hadvc. lia. }
    rewrite Hrc. simpl. rewrite Hk. reflexivity.
  - rewrite Hr0. simpl. rewrite Hk. reflexivity.
Qed.

End TrackProperties.

(** One track inside of the body of the channel loop: with keys, the
    search; without keys, the default value and the cache as it is. *)
Lemma track_slot {K V : Type} (key_mTime : K → float) (key_mValue : K → V)
    (keys : list K) (dflt : V) (time mLastTime : float) (cached : nat) :
  track_inv key_mTime keys mLastTime cached →
  ∃ v c',
    (if bool_decide (0 < length keys)%nat
     then p ← evaluate_track key_mTime keys time mLastTime cached;
          Some (key_mValue (fst p), snd p)
     else Some (dflt, cached)) = Some (v, c')
    ∧ (if bool_decide (0 < length keys)%nat
       then p ← evaluate_track_from_start key_mTime keys time;
            Some (key_mValue (fst p), snd p)
       else Some (dflt, O)) = Some (v, c')
    ∧ track_inv key_mTime keys time c'.
Proof.
  intros Hinv. case_bool_decide as Hlen.
  - destruct (evaluate_track_cached key_mTime keys time mLastTime cached Hlen Hinv)
      as (k & r & Hc & Hs & Hinv').
    exists (key_mValue k), r. rewrite Hc, Hs. simpl. done.
  - assert (Hnil : keys = []) by (destruct keys; [done|simpl in Hlen; lia]).
    rewrite (track_inv_nil key_mTime keys mLastTime cached Hnil Hinv).
    exists dflt, O. split; [reflexivity|]. split; [reflexivity|].
    intros j Hj. lia.
Qed.

Section EvaluateProperties.

Variable fmod : float → float → float.
Variable rotation_matrix : aiQuaternion → aiMatrix4x4.

(** The body of the channel loop on a cache that agrees with the last
    time: the transformation and the frames are those of the reference,
    and the new cache agrees with the time. *)
Lemma evaluate_channel_cached (time mLastTime : float) (channel : aiNodeAnim)
    (last : nat * nat * nat) :
  channel_inv mLastTime channel last →
  ∃ mat last',
    evaluate_channel rotation_matrix time mLastTime channel last = Some (mat, last')
    ∧ reference_channel rotation_matrix time channel = Some (mat, last')
    ∧ channel_inv time channel last'.
Proof.
  destruct last as [[l0 l1] l2]. intros (Hp & Hr & Hs). simpl in Hp, Hr, Hs.
  destruct (track_slot vk_mTime vk_mValue (mPositionKeys channel)
              {| vx := float32_0; vy := float32_0; vz := float32_0 |} time mLastTime l0 Hp)
    as (vp & cp & Hp1 & Hp2 & Hp3).
  destruct (track_slot qk_mTime qk_mValue (mRotationKeys channel)
              {| qw := float32_1; qx := float32_0; qy := float32_0; qz := float32_0 |} time mLastTime l1 Hr)
    as (vr & cr & Hr1 & Hr2 & Hr3).
  destruct (track_slot vk_mTime vk_mValue (mScalingKeys channel)
              {| vx := float32_1; vy := float32_1; vz := float32_1 |} time mLastTime l2 Hs)
    as (vs & cs & Hs1 & Hs2 & Hs3).
  exists (build_transform rotation_matrix vp vr vs), (cp, cr, cs).
  unfold evaluate_channel, reference_channel, evaluate_channel_with,
    mNumPositionKeys, mNumRotationKeys, mNumScalingKeys.
  rewrite Hp1, Hp2, Hr1, Hr2, Hs1, Hs2. simpl.
  split; [reflexivity|]. split; [reflexivity|]. split; [|split]; assumption.
Qed.

(** The loop over the channels from channel [a] on. *)
Lemma channel_loop_reference (anim : aiAnimation) (time mLastTime : float) :
  ∀ (n a : nat) (lp : list (nat * nat * nat)) (tr : list aiMatrix4x4),
    (a + n)%nat = mNumChannels anim →
    length lp = mNumChannels anim →
    length tr = mNumChannels anim →
    (∀ i channel last, (a ≤ i)%nat →
       mChannels anim !! i = Some channel → lp !! i = Some last →
       channel_inv mLastTime channel last) →
    ∃ refs,
      mapM (reference_channel rotation_matrix time) (drop a (mChannels anim))
      = Some refs
      ∧ for_loop n a (channel_body rotation_matrix anim time mLastTime) (lp, tr)
        = Some (take a lp ++ refs.*2, take a tr ++ refs.*1)
      ∧ Forall2 (channel_inv time) (drop a (mChannels anim)) (refs.*2).
Proof.
  unfold mNumChannels.
  induction n as [|n IH]; intros a lp tr Han Hlp Htr Hinv.
  - exists []. rewrite drop_ge by lia. split; [reflexivity|]. split.
    + simpl. rewrite !app_nil_r, !take_ge by lia. reflexivity.
    + constructor.
  - destruct (lookup_lt_is_Some_2 (mChannels anim) a) as [channel Hch]; [lia|].
    destruct (lookup_lt_is_Some_2 lp a) as [last Hlast]; [lia|].
    destruct (lookup_lt_is_Some_2 tr a) as [mat0 Hmat0]; [lia|].
    destruct (evaluate_channel_cached time mLastTime channel last)
      as (mat & last' & Hev & Href & Hinv'); [eapply Hinv; eauto|].
    destruct (IH (S a) (<[a := last']> lp) (<[a := mat]> tr))
      as (refs & Hrefs & Hloop & Hall).
    + lia.
    + rewrite length_insert. exact Hlp.
    + rewrite length_insert. exact Htr.
    + intros i ch l Hi Hc Hl. rewrite list_lookup_insert_ne in Hl by lia.
      apply (Hinv i ch l); [lia|done|done].
    + exists ((mat, last') :: refs).
      rewrite (drop_S _ _ _ Hch). split; [|split].
      * simpl. rewrite Href. simpl. rewrite Hrefs. reflexivity.
      * assert (Hbody : channel_body rotation_matrix anim time mLastTime a (lp, tr)
                        = Some (<[a := last']> lp, <[a := mat]> tr)).
        { unfold channel_body. rewrite Hch. simpl. rewrite Hlast. simpl.
          rewrite Hev. simpl. rewrite bool_decide_eq_true_2 by lia. reflexivity. }
        rewrite for_loop_S, Hbody. simpl.
        rewrite Hloop. f_equal. f_equal.
        -- rewrite (take_S_r (<[a:=last']> lp) a last').
           ++ rewrite take_insert_ge by lia. rewrite <- app_assoc. reflexivity.
           ++ apply list_lookup_insert_eq. lia.
        -- rewrite (take_S_r (<[a:=mat]> tr) a mat).
           ++ rewrite take_insert_ge by lia. rewrite <- app_assoc. reflexivity.
           ++ apply list_lookup_insert_eq. lia.
      * simpl. constructor; [exact Hinv'|exact Hall].
Qed.

Lemma evaluator_inv_new (anim : aiAnimation) :
  evaluator_inv anim (AnimEvaluator_new anim).
Proof.
  split; [reflexivity|]. split; [apply length_replicate|].
  intros a channel last _ Hlast. simpl in Hlast.
  apply lookup_replicate_1 in Hlast as [-> _].
  split; [|split]; intros j Hj; simpl in Hj; lia.
Qed.

(** One call of [Evaluate] on an evaluator whose cache agrees with its
    last time. *)
Lemma Evaluate_step (anim : aiAnimation) (this : AnimEvaluator) (pTime : float) :
  evaluator_inv anim this →
  ∃ this' refs,
    Evaluate fmod rotation_matrix this pTime = Some this'
    ∧ Evaluate_reference fmod rotation_matrix anim pTime = Some refs
    ∧ mTransforms this' = refs.*1
    ∧ mLastPositions this' = refs.*2
    ∧ evaluator_inv anim this'.
Proof.
  intros (Hanim & Hlen & Hinv). unfold Evaluate, Evaluate_ticks, Evaluate_reference.
  rewrite Hanim.
  set (time := mapped_time fmod anim (ticks anim pTime)).
  set (tr := if bool_decide (length (mTransforms this) ≠ mNumChannels anim)
             then resize (mNumChannels anim) aiMatrix4x4_new (mTransforms this)
             else mTransforms this).
  assert (Htr : length tr = mNumChannels anim).
  { subst tr. case_bool_decide as Hne.
    - apply length_resize.
    - exact Hne. }
  destruct (channel_loop_reference anim time (mLastTime this)
              (mNumChannels anim) 0 (mLastPositions this) tr)
    as (refs & Hrefs & Hloop & Hall).
  - reflexivity.
  - exact Hlen.
  - exact Htr.
  - intros i channel last _. apply Hinv.
  - rewrite drop_0 in Hrefs, Hall. rewrite !take_0 in Hloop. simpl in Hloop.
    rewrite Hloop. simpl. eexists. exists refs.
    split; [reflexivity|]. split; [exact Hrefs|]. simpl.
    split; [reflexivity|]. split; [reflexivity|].
    split; [reflexivity|]. split.
    + simpl. rewrite <- (Forall2_length _ _ _ Hall). reflexivity.
    + simpl. intros a channel last Hch Hlast.
      exact (Forall2_lookup_lr _ _ _ _ _ _ Hall Hch Hlast).
Qed.

(** Every sequence of calls from the constructor on returns, and leaves a
    cache that agrees with the last time. *)
Lemma Evaluates_inv (anim : aiAnimation) (times : list float) :
  ∀ this : AnimEvaluator,
    evaluator_inv anim this →
    ∃ this', Evaluates fmod rotation_matrix this times = Some this'
      ∧ evaluator_inv anim this'.
Proof.
  induction times as [|pTime times IH]; intros this Hinv.
  - exists this. split; [reflexivity|exact Hinv].
  - destruct (Evaluate_step anim this pTime Hinv) as (this1 & refs & Hev & _ & _ & _ & Hinv1).
    destruct (IH this1 Hinv1) as (this' & Hevs & Hinv').
    exists this'. split; [|exact Hinv']. simpl. rewrite Hev. exact Hevs.
Qed.

(** C9: when the ticks-per-second value of the animation is 0, [Evaluate]
    converts the time to ticks at 25 ticks per second; otherwise at the
    value of the animation. *)
Theorem Evaluate_ticks_per_second (this : AnimEvaluator) (pTime : float) :
  ((mTicksPerSecond (mAnim this) =? 0)%float = true →
   Evaluate fmod rotation_matrix this pTime
   = Evaluate_ticks fmod rotation_matrix this (pTime * 25)%float)
  ∧ ((mTicksPerSecond (mAnim this) =? 0)%float = false →
     Evaluate fmod rotation_matrix this pTime
     = Evaluate_ticks fmod rotation_matrix this
         (pTime * mTicksPerSecond (mAnim this))%float).
Proof.
  unfold Evaluate, ticks. split; intros ->; reflexivity.
Qed.

(** C10: after any sequence of [Evaluate] calls on an evaluator, a further
    call returns, and the transformations and the frame indices of the
    three tracks of every channel that it leaves are those of the reference
    evaluation of the same time stamp, which searches every track from
    frame 0 and has no state. *)
Theorem Evaluate_history_independent (anim : aiAnimation) (times : list float)
    (pTime : float) :
  ∃ this this' refs,
    Evaluates fmod rotation_matrix (AnimEvaluator_new anim) times = Some this
    ∧ Evaluate fmod rotation_matrix this pTime = Some this'
    ∧ Evaluate_reference fmod rotation_matrix anim pTime = Some refs
    ∧ mTransforms this' = refs.*1
    ∧ mLastPositions this' = refs.*2.
Proof.
  destruct (Evaluates_inv anim times (AnimEvaluator_new anim) (evaluator_inv_new anim))
    as (this & Hevs & Hinv).
  destruct (Evaluate_step anim this pTime Hinv)
    as (this' & refs & Hev & Href & Htr & Hlp & _).
  exists this, this', refs. done.
Qed.

End EvaluateProperties.

(** An animation with the sentinel 0 and one with 2 ticks per second. *)
Lemma Evaluate_ticks_per_second_witness :
  (mTicksPerSecond sample_animation =? 0)%float = true
  ∧ sample_Evaluate (AnimEvaluator_new sample_animation) 0.09375%float
    = Evaluate_ticks sample_fmod quaternion_matrix
        (AnimEvaluator_new sample_animation) (0.09375 * 25)%float
  ∧ (mTicksPerSecond slow_animation =? 0)%float = false
  ∧ sample_Evaluate (AnimEvaluator_new slow_animation) 0.09375%float
    = Evaluate_ticks sample_fmod quaternion_matrix
        (AnimEvaluator_new slow_animation) (0.09375 * 2)%float.
Proof.
  split; [reflexivity|]. split; [|split; [reflexivity|]].
  - exact (proj1 (Evaluate_ticks_per_second sample_fmod quaternion_matrix
                    (AnimEvaluator_new sample_animation) 0.09375%float) eq_refl).
  - exact (proj2 (Evaluate_ticks_per_second sample_fmod quaternion_matrix
                    (AnimEvaluator_new slow_animation) 0.09375%float) eq_refl).
Defined.

(** The cache along a sequence of calls: 0.09375 s is 2.34375 ticks
    (frame 2), 0.125 s is 3.125 ticks (frame 3, found from the cached frame
    2), 0.0625 s is 1.5625 ticks (frame 1, found from frame 0), 0.5 s is
    12.5 ticks, 2.5 in the duration (frame 2). *)
Example sample_Evaluates_frames :
  mLastPositions <$> sample_Evaluates (AnimEvaluator_new sample_animation)
                       [0.09375%float]
  = Some [(2, 0, 0)%nat]
  ∧ mLastPositions <$> sample_Evaluates (AnimEvaluator_new sample_animation)
                         [0.09375%float; 0.125%float]
    = Some [(3, 0, 0)%nat]
  ∧ mLastPositions <$> sample_Evaluates (AnimEvaluator_new sample_animation)
                         [0.09375%float; 0.125%float; 0.0625%float]
    = Some [(1, 0, 0)%nat]
  ∧ mLastPositions <$> sample_Evaluates (AnimEvaluator_new sample_animation)
                         [0.09375%float; 0.125%float; 0.0625%float; 0.5%float]
    = Some [(2, 0, 0)%nat].
Proof. repeat split; vm_compute; reflexivity. Qed.

(** * The rest of the dispatcher *)

(** ** Exact sums of the memory accounting *)

(** Equalities between [unsigned int] expressions. *)
Ltac wrap_lia :=
  unfold wrap32 in *; change (2 ^ 32) with 4294967296 in *; lia.

(** Accumulations [wrap32 (wrap32 (acc + a) + b)] against their sums. *)
Ltac wrap32_norm :=
  repeat (rewrite <- ?Z.add_assoc; rewrite wrap32_add_l); f_equal; ring.

Lemma wrap32_idemp (a : Z) : wrap32 (wrap32 a) = wrap32 a.
Proof. unfold wrap32. apply Z.mod_mod. lia. Qed.

(** A loop that adds [g x] for every element [x] of an array to an
    [unsigned int] adds the sum of the array. *)
Lemma for_loop_wrap_sum {A : Type} (l : list A) (g : A → Z)
    (body : nat → Z → option Z) :
  (∀ i x acc r, l !! i = Some x → body i acc = Some r → r = wrap32 (acc + g x)) →
  ∀ (n i : nat) (acc r : Z),
    (i + n)%nat = length l → acc = wrap32 acc →
    for_loop n i body acc = Some r →
    r = wrap32 (acc + Zsum (g <$> drop i l)).
Proof.
  intros Hbody. induction n as [|n IH]; intros i acc r Hlen Hacc Hloop.
  - simpl in Hloop. injection Hloop as <-. rewrite drop_ge by lia. simpl.
    rewrite Z.add_0_r. exact Hacc.
  - destruct (lookup_lt_is_Some_2 l i) as [x Hx]; [lia|].
    rewrite for_loop_S in Hloop.
    destruct (body i acc) as [r1|] eqn:Hb; [|discriminate]. simpl in Hloop.
    pose proof (Hbody i x acc r1 Hx Hb) as ->.
    rewrite (drop_S _ _ _ Hx), fmap_cons.
    change (Zsum (g x :: (g <$> drop (S i) l)))
      with (g x + Zsum (g <$> drop (S i) l)).
    rewrite (IH (S i) (wrap32 (acc + g x)) r);
      [|lia|symmetry; apply wrap32_idemp|exact Hloop].
    rewrite wrap32_add_l. f_equal. lia.
Qed.

Lemma sets_loop_leading (has : nat → bool) (elem : Z) (pMesh : aiMesh) :
  ∀ (n a : nat) (acc : Z),
    wrap32 (sets_loop has elem pMesh n a acc)
    = wrap32 (acc + Z.of_nat (leading_sets has n a) * (elem * mNumVertices pMesh)).
Proof.
  induction n as [|n IH]; intros a acc; simpl.
  - f_equal. lia.
  - destruct (has a); [|f_equal; lia].
    rewrite IH, wrap32_add_l. f_equal. lia.
Qed.

Lemma aiNode_children_ind (P : aiNode → Prop) :
  (∀ k children, Forall P children → P (mk_aiNode k children)) →
  ∀ n, P n.
Proof.
  intros H. fix IH 1. intros [k children]. apply H.
  induction children as [|c children IHc]; constructor; [apply IH|exact IHc].
Qed.

(** [AddNodeWeight] adds the bytes of the node and of its descendants to
    the counter. *)
Lemma AddNodeWeight_node_bytes (sz : Sizeof) (pcNode : aiNode) :
  ∀ iScene : Z,
    AddNodeWeight sz iScene pcNode = wrap32 (iScene + node_bytes sz pcNode).
Proof.
  induction pcNode as [k children IH] using aiNode_children_ind.
  intros iScene. simpl. unfold mNumChildren. simpl.
  match goal with
  | |- ?F children ?start = wrap32 (iScene + (?b + ?S children)) =>
      assert (Hstart : start = wrap32 (iScene + b)) by wrap32_norm;
      rewrite Hstart; clear Hstart;
      replace (iScene + (b + S children)) with ((iScene + b) + S children) by ring;
      generalize (iScene + b)
  end.
  clear iScene. induction IH as [|c children Hc _ IHchildren]; intros acc.
  - rewrite Z.add_0_r. reflexivity.
  - rewrite Hc, wrap32_add_l, IHchildren. f_equal. ring.
Qed.

Lemma sets_loop_add (has : nat → bool) (elem : Z) (pMesh : aiMesh)
    (n a : nat) (acc rest : Z) :
  wrap32 (sets_loop has elem pMesh n a acc + rest)
  = wrap32 (acc + Z.of_nat (leading_sets has n a) * (elem * mNumVertices pMesh)
            + rest).
Proof. rewrite <- wrap32_add_l, sets_loop_leading, wrap32_add_l. reflexivity. Qed.

Lemma mesh_weight_bytes (sz : Sizeof) (scene : aiScene) (i : nat)
    (pMesh : aiMesh) (acc r : Z) :
  mMeshes scene !! i = Some pMesh →
  mesh_weight sz scene i acc = Some r →
  r = wrap32 (acc + mesh_bytes sz pMesh).
Proof.
  intros Hi. unfold mesh_weight. rewrite Hi. simpl.
  set (entry := sets_loop (HasTextureCoords pMesh) _ _ _ _ _).
  match goal with
  | |- (if HasBones pMesh then ?loop else Some entry) ≫= _ = _ → _ =>
      assert (Hbones : ∀ rb,
                (if HasBones pMesh then loop else Some entry) = Some rb →
                wrap32 rb
                = wrap32 (entry
                          + (if HasBones pMesh
                             then sizeof_ptr sz * Z.of_nat (mNumBones pMesh)
                                  + Zsum (bone_bytes sz <$> mBones pMesh)
                             else 0)))
  end.
  { intros rb Hrb. destruct (HasBones pMesh).
    - apply (for_loop_wrap_sum (mBones pMesh) (bone_bytes sz)) in Hrb.
      + rewrite drop_0 in Hrb. subst rb. rewrite wrap32_idemp. wrap32_norm.
      + intros p b a r' Hp Hbody. rewrite Hp in Hbody. simpl in Hbody.
        injection Hbody as <-. unfold bone_bytes. wrap32_norm.
      + reflexivity.
      + symmetry. apply wrap32_idemp.
    - injection Hrb as <-. f_equal. ring. }
  intros Hr.
  match type of Hr with
  | ?x ≫= _ = _ => destruct x as [rb|] eqn:Hx; [|discriminate]
  end.
  simpl in Hr. injection Hr as <-.
  rewrite <- wrap32_add_l, (Hbones rb eq_refl), wrap32_add_l.
  subst entry.
  rewrite <- !Z.add_assoc, sets_loop_add, <- !Z.add_assoc, sets_loop_add.
  unfold mesh_bytes.
  destruct (HasPositions pMesh), (HasNormals pMesh),
    (HasTangentsAndBitangents pMesh); wrap32_norm.
Qed.

Lemma texture_weight_bytes (sz : Sizeof) (scene : aiScene) (i : nat)
    (pc : aiTexture) (acc r : Z) :
  mTextures scene !! i = Some pc →
  texture_weight sz scene i acc = Some r →
  r = wrap32 (acc + texture_bytes sz pc).
Proof.
  intros Hi. unfold texture_weight, texture_bytes. rewrite Hi. simpl.
  case_bool_decide; intros [= <-]; wrap32_norm.
Qed.

Lemma material_weight_bytes (sz : Sizeof) (scene : aiScene) (i : nat)
    (pc : aiMaterial) (acc r : Z) :
  mMaterials scene !! i = Some pc →
  material_weight sz scene i acc = Some r →
  r = wrap32 (acc + material_bytes sz pc).
Proof.
  intros Hi. unfold material_weight, material_bytes. rewrite Hi. simpl.
  intros Hloop.
  apply (for_loop_wrap_sum (mProperties pc) mDataLength) in Hloop.
  - rewrite drop_0 in Hloop. subst r. wrap32_norm.
  - intros a prop acc' r' Ha Hbody. rewrite Ha in Hbody. simpl in Hbody.
    injection Hbody as <-. reflexivity.
  - reflexivity.
  - symmetry. apply wrap32_idemp.
Qed.

(** X1: for a loaded scene, the fields of five categories are, modulo
    [2^32], the exact sums of the bytes of their objects: of the meshes
    (with their leading colour and texture coordinate sets and their
    bones), of the embedded textures (four bytes per texel, or the width
    for a compressed texture), of the materials, of all the nodes of the
    hierarchy, and of the cameras and lights. *)
Theorem GetMemoryRequirements_exact_sums (sz : Sizeof) (this this' : Importer)
    (scene : aiScene) (info : aiMemoryInfo) :
  mScene this = Some scene →
  GetMemoryRequirements sz this = Some (this', info) →
  meshes info = wrap32 (Zsum (mesh_bytes sz <$> mMeshes scene))
  ∧ textures info = wrap32 (Zsum (texture_bytes sz <$> mTextures scene))
  ∧ materials info = wrap32 (Zsum (material_bytes sz <$> mMaterials scene))
  ∧ nodes info = wrap32 (node_bytes sz (mRootNode scene))
  ∧ cameras info = wrap32 (sizeof_aiCamera sz * mNumCameras scene)
  ∧ lights info = wrap32 (sizeof_aiLight sz * mNumLights scene).
Proof.
  intros Hscene Hget. unfold GetMemoryRequirements in Hget.
  rewrite Hscene in Hget.
  destruct (for_loop (mNumMeshes scene) 0 (mesh_weight sz scene) 0)
    as [m|] eqn:Hm; [|discriminate].
  destruct (for_loop (mNumTextures scene) 0 (texture_weight sz scene) 0)
    as [t|] eqn:Ht; [|discriminate].
  destruct (for_loop (mNumAnimations scene) 0 (animation_weight sz scene) 0)
    as [a|] eqn:Ha; [|discriminate].
  destruct (for_loop (mNumMaterials scene) 0 (material_weight sz scene) 0)
    as [x|] eqn:Hx; [|discriminate].
  simpl in Hget. injection Hget as <- <-. simpl.
  apply (for_loop_wrap_sum (mMeshes scene) (mesh_bytes sz)) in Hm;
    [|intros; eapply mesh_weight_bytes; eauto|reflexivity|reflexivity].
  apply (for_loop_wrap_sum (mTextures scene) (texture_bytes sz)) in Ht;
    [|intros; eapply texture_weight_bytes; eauto|reflexivity|reflexivity].
  apply (for_loop_wrap_sum (mMaterials scene) (material_bytes sz)) in Hx;
    [|intros; eapply material_weight_bytes; eauto|reflexivity|reflexivity].
  rewrite ?drop_0 in Hm, Ht, Hx. rewrite AddNodeWeight_node_bytes.
  repeat split; done.
Qed.

(** The sums of [scene_full]. *)
Lemma GetMemoryRequirements_exact_sums_witness :
  ∃ info : aiMemoryInfo,
    GetMemoryRequirements sizeof_32 (loaded scene_full)
    = Some (loaded scene_full, info)
    ∧ meshes info = wrap32 (Zsum (mesh_bytes sizeof_32 <$> mMeshes scene_full))
    ∧ nodes info = wrap32 (node_bytes sizeof_32 (mRootNode scene_full)).
Proof.
  eexists. split; [reflexivity|].
  pose proof (GetMemoryRequirements_exact_sums sizeof_32 (loaded scene_full)
                (loaded scene_full) scene_full _ eq_refl eq_refl)
    as (Hm & _ & _ & Hn & _).
  split; [exact Hm|exact Hn].
Defined.

(** ** Flag validation *)

(** X2: the empty flag set is valid for every pipeline; and, the
    validation flag sharing no bit with the two normal-generation flags,
    adding it to a flag set never changes the verdict. *)
Theorem ValidateFlags_validation_flag (flags : aiPostProcessSteps)
    (this : Importer) (pFlags : Z) :
  ValidateFlags flags this 0 = true
  ∧ (Z.land (aiProcess_ValidateDataStructure flags)
       (aiProcess_GenSmoothNormals flags) = 0 →
     Z.land (aiProcess_ValidateDataStructure flags)
       (aiProcess_GenNormals flags) = 0 →
     ValidateFlags flags this
       (Z.lor pFlags (aiProcess_ValidateDataStructure flags))
     = ValidateFlags flags this pFlags).
Proof.
  split.
  - apply ValidateFlags_spec. split.
    + intros [H _]. apply H. apply Z.land_0_l.
    + intros j Hj Hbit. rewrite Z.bits_0 in Hbit. discriminate.
  - intros Hs Hn. unfold ValidateFlags, _ValidateFlags.
    rewrite !Z.land_lor_distr_l, Hs, Hn, !Z.lor_0_r.
    rewrite Z.land_lnot_diag, Z.lor_0_r. reflexivity.
Qed.

(** With the flags of [aiPostProcess.h]. *)
Lemma ValidateFlags_validation_flag_witness :
  Z.land (aiProcess_ValidateDataStructure aiPostProcess_h)
    (aiProcess_GenSmoothNormals aiPostProcess_h) = 0
  ∧ ValidateFlags aiPostProcess_h sample_this (Z.lor aiProcess_Triangulate 0x400)
    = ValidateFlags aiPostProcess_h sample_this aiProcess_Triangulate.
Proof.
  split; [reflexivity|].
  exact (proj2 (ValidateFlags_validation_flag aiPostProcess_h sample_this
                  aiProcess_Triangulate) eq_refl eq_refl).
Defined.

(** X3: [ValidateFlags] accepts a flag set exactly when the two
    normal-generation flags are not both in it and every bit from 0 to 30
    that is set, the bits of the validation flag apart, has a step of the
    pipeline that is active for that bit alone. *)
Theorem ValidateFlags_bits_0_to_30 (flags : aiPostProcessSteps)
    (this : Importer) (pFlags : Z) :
  ValidateFlags flags this pFlags = true ↔
    ¬ (Z.land pFlags (aiProcess_GenSmoothNormals flags) ≠ 0
       ∧ Z.land pFlags (aiProcess_GenNormals flags) ≠ 0)
    ∧ ∀ j, 0 ≤ j < 31 →
        Z.testbit pFlags j = true →
        Z.testbit (aiProcess_ValidateDataStructure flags) j = false →
        ∃ p, p ∈ mPostProcessingSteps this ∧ IsActive p (2 ^ j) = true.
Proof. apply ValidateFlags_spec. Qed.

(** ** The pipeline runner *)

Lemma post_process_app (l1 l2 : list BaseProcess) (props : PropertyMap)
    (pFlags : Z) (scene : aiScene) :
  post_process (l1 ++ l2) props pFlags scene
  = match post_process l1 props pFlags scene with
    | Processed scene' => post_process l2 props pFlags scene'
    | ProcessFailed text => ProcessFailed text
    | ProcessThrew what => ProcessThrew what
    end.
Proof.
  revert scene. induction l1 as [|p l1 IH]; intros scene; simpl.
  - reflexivity.
  - destruct (IsActive p pFlags); [|apply IH].
    destruct (ExecuteOnScene p props scene); [apply IH|reflexivity|reflexivity].
Qed.

(** X4: running a pipeline that is two lists of steps one after the other
    is running the first list and, if the scene survives, the second on
    its result; once a step of the first list has failed fatally or thrown,
    the outcome is that failure whatever the steps that follow. *)
Theorem post_process_sequence (l1 l2 : list BaseProcess) (props : PropertyMap)
    (pFlags : Z) (scene : aiScene) :
  (∀ scene', post_process l1 props pFlags scene = Processed scene' →
     post_process (l1 ++ l2) props pFlags scene
     = post_process l2 props pFlags scene')
  ∧ (∀ text, post_process l1 props pFlags scene = ProcessFailed text →
     post_process (l1 ++ l2) props pFlags scene = ProcessFailed text)
  ∧ (∀ what, post_process l1 props pFlags scene = ProcessThrew what →
     post_process (l1 ++ l2) props pFlags scene = ProcessThrew what).
Proof.
  rewrite post_process_app.
  split; [|split]; intros x ->; reflexivity.
Qed.

(** A step that rewrites the scene, a step that fails, and any steps
    after them. *)
Lemma post_process_sequence_witness :
  post_process [triangulate_step] (properties sample_this) aiProcess_Triangulate
    scene_1x1 = Processed scene_1x1
  ∧ post_process ([triangulate_step] ++ [accept_all])
      (properties sample_this) aiProcess_Triangulate scene_1x1
    = post_process [accept_all] (properties sample_this) aiProcess_Triangulate
        scene_1x1.
Proof.
  split; [reflexivity|].
  exact (proj1 (post_process_sequence [triangulate_step] [accept_all]
                  (properties sample_this) aiProcess_Triangulate scene_1x1)
           scene_1x1 eq_refl).
Defined.

(** X5: the steps that are not active for the requested flags do not
    count: the run is the run of the active steps, in their order. *)
Theorem post_process_active_steps (steps : list BaseProcess)
    (props : PropertyMap) (pFlags : Z) (scene : aiScene) :
  post_process steps props pFlags scene
  = post_process (filter (λ p, IsActive p pFlags = true) steps) props pFlags scene.
Proof.
  revert scene. induction steps as [|p steps IH]; intros scene.
  - reflexivity.
  - rewrite filter_cons. simpl. destruct (IsActive p pFlags) eqn:Hp.
    + rewrite decide_True by reflexivity. simpl. rewrite Hp.
      destruct (ExecuteOnScene p props scene); [apply IH|reflexivity|reflexivity].
    + rewrite decide_False by discriminate. apply IH.
Qed.

(** ** More on [ReadFile] *)

Section ReadFileOutcomes.

Variable flags : aiPostProcessSteps.
Variable ValidateDSProcess : BaseProcess.
Variable ScenePreprocessor_ProcessScene : aiScene → aiScene.

Local Abbreviation ReadFile' :=
  (ReadFile flags ValidateDSProcess ScenePreprocessor_ProcessScene).
Local Abbreviation import_with' :=
  (import_with flags ValidateDSProcess ScenePreprocessor_ProcessScene).

(** [ReadFile] on a path that exists and for which an importer is
    selected. *)
Lemma ReadFile_selected (h : gmap nat IOSystem) (this : Importer)
    (io : IOSystem) (pFile : string) (pFlags : Z) (imp : BaseImporter) :
  h !! mIOHandler this = Some io →
  Exists io pFile = true →
  fst (select_importer (mImporter this) pFile io) = Some imp →
  ReadFile' h this pFile pFlags
  = Some (ReadFile_finish (import_with' (without_scene this) imp io pFile pFlags)).
Proof.
  intros Hio Hex Hsel. unfold ReadFile, ReadFile_try. rewrite Hio. simpl.
  fold (without_scene this). rewrite Hex. simpl.
  rewrite mImporter_without_scene, Hsel. reflexivity.
Qed.

Lemma properties_without_scene (this : Importer) :
  properties (without_scene this) = properties this.
Proof. unfold without_scene. destruct (mScene this); reflexivity. Qed.

Lemma mPostProcessingSteps_without_scene (this : Importer) :
  mPostProcessingSteps (without_scene this) = mPostProcessingSteps this.
Proof. unfold without_scene. destruct (mScene this); reflexivity. Qed.

(** Destructs the outcomes that [import_with] looks at. *)
Ltac import_cases :=
  repeat match goal with
         | |- context [match ?x with
                       | Imported _ => _ | ImportFailed _ => _ | ImportThrew _ => _
                       end] => destruct x
         | |- context [match ?x with
                       | Processed _ => _ | ProcessFailed _ => _ | ProcessThrew _ => _
                       end] => destruct x
         end.

(** X6: whatever its outcome, [ReadFile] returns the scene pointer that
    the dispatcher holds afterwards, and it leaves the configuration of the
    dispatcher as it was: the I/O handler and its flag, the importers, the
    steps, the three property tables and the verbose flag. *)
Theorem ReadFile_keeps_configuration (h : gmap nat IOSystem)
    (this this' : Importer) (pFile : string) (pFlags : Z) (r : option aiScene) :
  ReadFile' h this pFile pFlags = Some (this', r) →
  r = GetScene this' ∧ same_configuration this' this.
Proof.
  unfold ReadFile, ReadFile_try, same_configuration.
  destruct (h !! mIOHandler this) as [io|]; [|discriminate]. simpl.
  fold (without_scene this).
  assert (Hw : same_configuration (without_scene this) this
               ∧ mScene (without_scene this) = None).
  { unfold same_configuration, without_scene.
    destruct (mScene this) eqn:Hs; simpl; rewrite ?Hs; repeat split; done. }
  destruct Hw as ((H1 & H2 & H3 & H4 & H5 & H6) & Hnone).
  revert H1 H2 H3 H4 H5 H6 Hnone.
  generalize (without_scene this) as w. intros w H1 H2 H3 H4 H5 H6 Hnone.
  destruct (Exists io pFile); simpl.
  - destruct (fst (select_importer (mImporter w) pFile io)) as [imp|].
    + unfold import_with. import_cases; simpl; intros [= <- <-];
        unfold GetScene; simpl; rewrite ?Hnone; repeat split; done.
    + simpl. intros [= <- <-]. unfold GetScene. simpl. rewrite Hnone.
      repeat split; done.
  - intros [= <- <-]. unfold GetScene. simpl. rewrite Hnone.
    repeat split; done.
Qed.

Lemma ReadFile_try_result (this1 this2 : Importer) (io : IOSystem)
    (pFile : string) (pFlags : Z) :
  same_configuration this1 this2 →
  snd (ReadFile_finish
         (ReadFile_try flags ValidateDSProcess ScenePreprocessor_ProcessScene
            this1 io pFile pFlags))
  = snd (ReadFile_finish
           (ReadFile_try flags ValidateDSProcess ScenePreprocessor_ProcessScene
              this2 io pFile pFlags)).
Proof.
  intros Hsame. unfold ReadFile_try. fold (without_scene this1) (without_scene this2).
  assert (Hw : same_configuration (without_scene this1) (without_scene this2)
               ∧ mScene (without_scene this1) = None
               ∧ mScene (without_scene this2) = None).
  { unfold same_configuration, without_scene in *.
    destruct (mScene this1) eqn:Hs1, (mScene this2) eqn:Hs2; simpl;
      rewrite ?Hs1, ?Hs2; repeat split; tauto. }
  clear Hsame. revert Hw.
  generalize (without_scene this1) as w1. generalize (without_scene this2) as w2.
  intros [] []. unfold same_configuration, properties. simpl.
  intros ((-> & -> & -> & -> & Hp & ->) & -> & ->).
  injection Hp as -> -> ->.
  destruct (Exists io pFile); simpl; [|reflexivity].
  match goal with
  | |- context [select_importer ?l ?f ?i] =>
      destruct (fst (select_importer l f i)) as [imp|]; [|reflexivity]
  end.
  unfold import_with, properties. simpl. import_cases; reflexivity.
Qed.

(** X7: the scene that [ReadFile] returns does not depend on what the
    dispatcher held before the call: two dispatchers with the same
    configuration (handler, importers, steps, properties) return the same
    scene for the same path and flags, whatever their previous scene and
    error string. *)
Theorem ReadFile_independent_of_history (h : gmap nat IOSystem)
    (this1 this2 : Importer) (pFile : string) (pFlags : Z) :
  same_configuration this1 this2 →
  is_Some (h !! mIOHandler this1) →
  ∃ this1' this2' r,
    ReadFile' h this1 pFile pFlags = Some (this1', r)
    ∧ ReadFile' h this2 pFile pFlags = Some (this2', r).
Proof.
  intros Hsame [io Hio]. unfold ReadFile.
  pose proof Hsame as (Hh & _). rewrite <- Hh, Hio. simpl.
  pose proof (ReadFile_try_result this1 this2 io pFile pFlags Hsame) as Hr.
  destruct (ReadFile_finish
              (ReadFile_try flags ValidateDSProcess ScenePreprocessor_ProcessScene
                 this1 io pFile pFlags)) as [s1 r1].
  destruct (ReadFile_finish
              (ReadFile_try flags ValidateDSProcess ScenePreprocessor_ProcessScene
                 this2 io pFile pFlags)) as [s2 r2].
  simpl in Hr. subst r2. exists s1, s2, r1. done.
Qed.

(** The steps that are not active leave the scene to the next one. *)
Lemma post_process_inactive (steps : list BaseProcess) (props : PropertyMap)
    (pFlags : Z) (scene : aiScene) :
  (∀ p, p ∈ steps → IsActive p pFlags = false) →
  post_process steps props pFlags scene = Processed scene.
Proof.
  induction steps as [|p steps IH]; intros Hall; simpl.
  - reflexivity.
  - rewrite (Hall p) by left. apply IH. intros q Hq. apply Hall. by right.
Qed.

(** X8: when the validation is not requested and no step of the pipeline
    is active for the flags, a successful decode is followed by the scene
    preprocessor alone: [ReadFile] returns the preprocessed scene of the
    importer and leaves the error string as it was. *)
Theorem ReadFile_without_active_step (h : gmap nat IOSystem) (this : Importer)
    (io : IOSystem) (pFile : string) (pFlags : Z) (imp : BaseImporter)
    (scene : aiScene) :
  h !! mIOHandler this = Some io →
  Exists io pFile = true →
  fst (select_importer (mImporter this) pFile io) = Some imp →
  BaseImporter_ReadFile imp (properties this) pFile io = Imported scene →
  Z.land pFlags (aiProcess_ValidateDataStructure flags) = 0 →
  (∀ p, p ∈ mPostProcessingSteps this → IsActive p pFlags = false) →
  ∃ this',
    ReadFile' h this pFile pFlags
    = Some (this', Some (ScenePreprocessor_ProcessScene scene))
    ∧ GetScene this' = Some (ScenePreprocessor_ProcessScene scene)
    ∧ GetErrorString this' = GetErrorString this.
Proof.
  intros Hio Hex Hsel Hdec Hval Hsteps.
  rewrite (ReadFile_selected h this io pFile pFlags imp Hio Hex Hsel).
  unfold import_with. rewrite properties_without_scene, Hdec. simpl.
  rewrite bool_decide_eq_false_2 by (intros Hne; apply Hne; exact Hval).
  rewrite mPostProcessingSteps_without_scene.
  rewrite post_process_inactive by exact Hsteps. simpl.
  eexists. split; [reflexivity|]. split; [reflexivity|].
  unfold GetErrorString. simpl. apply mErrorString_without_scene.
Qed.


End ReadFileOutcomes.

Lemma ReadFile_keeps_configuration_witness :
  ∃ this' r,
    sample_ReadFile sample_store sample_this "model.obj" 0 = Some (this', r)
    ∧ r = GetScene this' ∧ same_configuration this' sample_this.
Proof.
  eexists. eexists. split; [reflexivity|].
  exact (ReadFile_keeps_configuration aiPostProcess_h accept_all id sample_store
           sample_this _ "model.obj" 0 _ eq_refl).
Defined.


(** Two dispatchers that differ in their scene and error string. *)
Lemma ReadFile_independent_of_history_witness :
  same_configuration (set_mErrorString (loaded scene_1x1) "an old error")
    sample_this
  ∧ ∃ this1' this2' r,
      sample_ReadFile sample_store
        (set_mErrorString (loaded scene_1x1) "an old error") "model.obj" 0
      = Some (this1', r)
      ∧ sample_ReadFile sample_store sample_this "model.obj" 0
        = Some (this2', r).
Proof.
  assert (Hsame : same_configuration
                    (set_mErrorString (loaded scene_1x1) "an old error")
                    sample_this).
  { unfold same_configuration. repeat (split; [reflexivity|]). reflexivity. }
  split; [exact Hsame|].
  apply (ReadFile_independent_of_history aiPostProcess_h accept_all id
           sample_store _ sample_this "model.obj" 0 Hsame).
  exists (DefaultIOSystem sample_fs). reflexivity.
Defined.

(** The import of [model.obj] without flags. *)
Lemma ReadFile_without_active_step_witness :
  ∃ this',
    sample_ReadFile sample_store sample_this "model.obj" 0
    = Some (this', Some scene_1x1)
    ∧ GetScene this' = Some scene_1x1
    ∧ GetErrorString this' = GetErrorString sample_this.
Proof.
  refine (ReadFile_without_active_step aiPostProcess_h accept_all id
            sample_store sample_this (DefaultIOSystem sample_fs) "model.obj" 0
            (obj_importer scene_1x1) scene_1x1 eq_refl eq_refl eq_refl eq_refl
            eq_refl _).
  intros p Hp. apply list_elem_of_singleton in Hp. subst p. reflexivity.
Defined.


(** ** Loaders *)

Lemma find_loader_app (l : list BaseImporter) (pImp : BaseImporter)
    (szExtension : string) :
  find_loader (l ++ [pImp]) szExtension
  = match find_loader l szExtension with
    | Some x => Some x
    | None => if CanRead pImp szExtension None false then Some pImp else None
    end.
Proof.
  induction l as [|i l IH]; simpl.
  - reflexivity.
  - destruct (CanRead i szExtension None false); [reflexivity|exact IH].
Qed.

Lemma find_loader_Some (l : list BaseImporter) (szExtension : string) :
  find_loader l szExtension ≠ None ↔
  ∃ imp, imp ∈ l ∧ CanRead imp szExtension None false = true.
Proof.
  induction l as [|i l IH]; simpl.
  - split; [done|]. intros (imp & Hin & _). inversion Hin.
  - destruct (CanRead i szExtension None false) eqn:Hi.
    + split; [|done]. intros _. exists i. split; [left|exact Hi].
    + rewrite IH. split.
      * intros (imp & Hin & Hacc). exists imp. split; [by right|exact Hacc].
      * intros (imp & Hin & Hacc). apply elem_of_cons in Hin as [->|Hin].
        -- congruence.
        -- exists imp. done.
Qed.

(** X10: an extension is supported exactly when some registered importer
    accepts it without I/O; [RegisterLoader] always succeeds and adds the
    loader behind the registered ones, so that [FindLoader] and the first
    pass of [ReadFile] keep every answer that they gave before (the earlier
    registrant wins), and an extension or file that nobody accepted before
    goes to the new loader if it accepts it. *)
Theorem RegisterLoader_precedence (this : Importer) (pImp : BaseImporter) :
  let this' := fst (RegisterLoader this pImp) in
  snd (RegisterLoader this pImp) = AI_SUCCESS
  ∧ (∀ ext, IsExtensionSupported this ext = true ↔
            ∃ imp, imp ∈ mImporter this ∧ CanRead imp ext None false = true)
  ∧ (∀ ext x, FindLoader this ext = Some x → FindLoader this' ext = Some x)
  ∧ (∀ ext, FindLoader this ext = None →
            FindLoader this' ext
            = if CanRead pImp ext None false then Some pImp else None)
  ∧ (∀ pFile io k x,
       first_accepting (mImporter this) pFile io false k x →
       fst (select_importer (mImporter this') pFile io) = Some x)
  ∧ (∀ pFile io,
       none_accepting (mImporter this) pFile io false →
       CanRead pImp pFile (Some io) false = true →
       fst (select_importer (mImporter this') pFile io) = Some pImp).
Proof.
  intros this'. subst this'. unfold FindLoader, IsExtensionSupported, FindLoader.
  simpl. split; [reflexivity|]. split; [|split; [|split; [|split]]].
  - intros ext. rewrite bool_decide_eq_true. apply find_loader_Some.
  - intros ext x Hx. rewrite find_loader_app, Hx. reflexivity.
  - intros ext Hx. rewrite find_loader_app, Hx. reflexivity.
  - intros pFile io k x (Hk & Hacc & Hbefore).
    rewrite (select_importer_pass_one _ pFile io k x); [reflexivity|].
    split; [|split; [exact Hacc|]].
    + rewrite lookup_app_l by (eapply lookup_lt_Some; eauto). exact Hk.
    + intros j imp' Hj Hl. apply (Hbefore j imp' Hj).
      rewrite lookup_app_l in Hl; [exact Hl|].
      apply lookup_lt_Some in Hk. lia.
  - intros pFile io Hnone Hacc.
    rewrite (select_importer_pass_one _ pFile io (length (mImporter this)) pImp);
      [reflexivity|].
    split; [|split; [exact Hacc|]].
    + rewrite lookup_app_r by lia. rewrite Nat.sub_diag. reflexivity.
    + intros j imp' Hj Hl. rewrite lookup_app_l in Hl by lia.
      exact (Hnone j imp' Hl).
Qed.

(** The importer of [notes.txt] registered behind the importer of
    [model.obj]. *)
Lemma RegisterLoader_precedence_witness :
  fst (select_importer
         (mImporter (fst (RegisterLoader sample_this txt_importer)))
         "model.obj" (DefaultIOSystem sample_fs))
  = Some (obj_importer scene_1x1)
  ∧ fst (select_importer
           (mImporter (fst (RegisterLoader sample_this txt_importer)))
           "notes.txt" (DefaultIOSystem sample_fs))
    = Some txt_importer.
Proof.
  pose proof (RegisterLoader_precedence sample_this txt_importer)
    as (_ & _ & _ & _ & Hold & Hnew).
  split.
  - apply (Hold "model.obj" (DefaultIOSystem sample_fs) O (obj_importer scene_1x1)).
    split; [reflexivity|]. split; [reflexivity|]. intros j imp' Hj. lia.
  - apply (Hnew "notes.txt" (DefaultIOSystem sample_fs)); [|reflexivity].
    intros [|j] imp' Hl; [|discriminate]. injection Hl as <-. reflexivity.
Defined.

(** ** The list of extensions *)

Lemma string_app_assoc (a b c : string) : (a +:+ b) +:+ c = a +:+ (b +:+ c).
Proof.
  induction a as [|x a IH]; [reflexivity|].
  rewrite !app_String_l. f_equal. exact IH.
Qed.

Lemma string_app_not_empty (s e : string) : e ≠ EmptyString → s +:+ e ≠ EmptyString.
Proof. intros He. destruct s; [exact He|rewrite app_String_l; discriminate]. Qed.

Lemma string_last_app (s e : string) :
  e ≠ EmptyString → string_last (s +:+ e) = string_last e.
Proof.
  intros He. induction s as [|x s IH]; [reflexivity|].
  rewrite app_String_l.
  pose proof (string_app_not_empty s e He) as Hse.
  destruct (s +:+ e) eqn:Heq; [contradiction|exact IH].
Qed.

Lemma string_last_is_Some (s : string) : s ≠ EmptyString → is_Some (string_last s).
Proof.
  induction s as [|x s IH]; [done|]. intros _. simpl.
  destruct s; [eauto|]. apply IH. discriminate.
Qed.

(** The loop behind the first importer, on a string that does not end
    with the delimiter. *)
Lemma extension_list_loop_concat
    (GetExtensionList_of : BaseImporter → string → string)
    (ext : BaseImporter → string) (l : list BaseImporter) :
  (∀ imp s, imp ∈ l → GetExtensionList_of imp s = s +:+ ext imp) →
  (∀ imp, imp ∈ l →
     ext imp ≠ EmptyString ∧ string_last (ext imp) ≠ Some ";"%char) →
  ∀ (iNum : nat) (tmp : string),
    iNum ≠ O → tmp ≠ EmptyString → string_last tmp ≠ Some ";"%char →
    extension_list_loop GetExtensionList_of l iNum tmp
    = Some (match l with
            | [] => tmp
            | _ => tmp +:+ ";" +:+ String.concat ";" (ext <$> l)
            end).
Proof.
  induction l as [|i rest IH]; intros Happ Hext iNum tmp HiNum Htmp Hlast.
  - reflexivity.
  - simpl. rewrite bool_decide_eq_true_2 by exact HiNum.
    destruct (string_last_is_Some tmp Htmp) as [c Hc]. rewrite Hc. simpl.
    rewrite bool_decide_eq_true_2 by congruence.
    rewrite (Happ i) by left.
    destruct (Hext i) as [Hne Hl]; [left|].
    rewrite IH.
    + f_equal. destruct rest as [|i' rest]; simpl.
      * apply string_app_assoc.
      * rewrite !string_app_assoc. reflexivity.
    + intros imp s Hin. apply Happ. by right.
    + intros imp Hin. apply Hext. by right.
    + lia.
    + apply string_app_not_empty. exact Hne.
    + rewrite string_last_app by exact Hne. exact Hl.
Qed.

(** X11: when every importer appends its own extensions to the string, not
    empty and without a final delimiter (the contract of
    [BaseImporter::GetExtensionList]), [Importer::GetExtensionList] makes
    the lists of the importers, in their order, with one semicolon between
    two of them and none at the end; without importers the list is empty.
    When the first of several importers leaves the string empty, the
    function reads the last character of an empty string. *)
Theorem GetExtensionList_concat
    (GetExtensionList_of : BaseImporter → string → string)
    (ext : BaseImporter → string) (this : Importer) :
  ((∀ imp s, imp ∈ mImporter this →
      GetExtensionList_of imp s = s +:+ ext imp) →
   (∀ imp, imp ∈ mImporter this →
      ext imp ≠ EmptyString ∧ string_last (ext imp) ≠ Some ";"%char) →
   GetExtensionList GetExtensionList_of this
   = Some (String.concat ";" (ext <$> mImporter this)))
  ∧ (∀ i1 i2 rest, mImporter this = i1 :: i2 :: rest →
       GetExtensionList_of i1 EmptyString = EmptyString →
       GetExtensionList GetExtensionList_of this = None).
Proof.
  unfold GetExtensionList. split.
  - intros Happ Hext. destruct (mImporter this) as [|i rest]; [reflexivity|].
    simpl. rewrite (Happ i) by left. simpl.
    destruct (Hext i) as [Hne Hl]; [left|].
    rewrite (extension_list_loop_concat GetExtensionList_of ext rest).
    + destruct rest; reflexivity.
    + intros imp s Hin. apply Happ. by right.
    + intros imp Hin. apply Hext. by right.
    + lia.
    + exact Hne.
    + exact Hl.
  - intros i1 i2 rest -> Hempty. simpl. rewrite Hempty. reflexivity.
Qed.

(** The two importers of the examples. *)
Lemma GetExtensionList_concat_witness :
  GetExtensionList sample_GetExtensionList_of sample_this2
  = Some "*.obj;*.txt;*.text".
Proof.
  refine (proj1 (GetExtensionList_concat sample_GetExtensionList_of
                   sample_extensions sample_this2) _ _).
  - intros imp s _. reflexivity.
  - intros imp Hin. simpl in Hin.
    apply elem_of_cons in Hin as [->|Hin];
      [|apply list_elem_of_singleton in Hin as ->];
      split; vm_compute; discriminate.
Defined.

(** ** The I/O handler along the life of a dispatcher *)

Lemma SetIOHandler_handler_ok (fs : string → bool) (this : Importer)
    (h : gmap nat IOSystem) (p : option nat) :
  handler_ok fs this h →
  match p with Some a => is_Some (h !! a) | None => True end →
  handler_ok fs (fst (SetIOHandler fs this h p)) (snd (SetIOHandler fs this h p)).
Proof.
  intros [Hlive Hdef] Hp. unfold SetIOHandler, handler_ok.
  destruct p as [a|].
  - destruct (decide (mIOHandler this ≠ a)) as [Hne|Heq]; simpl.
    + rewrite lookup_delete_ne by exact Hne. split; [exact Hp|discriminate].
    + split; assumption.
  - simpl. rewrite lookup_insert_eq. split; [eauto|reflexivity].
Qed.

(** X12: from its construction on and along every sequence of
    [SetIOHandler] calls whose arguments are null or objects that exist at
    the time of the call, the dispatcher has a handler that exists, and
    [IsDefaultIOHandler] is true only if that handler is a
    [DefaultIOSystem]; so [ReadFile] never works on a handler that is
    gone. *)
Theorem SetIOHandlers_handler_ok (fs : string → bool)
    (importers : list BaseImporter) (steps : list BaseProcess)
    (h0 : gmap nat IOSystem) (calls : list (option nat)) :
  let this0 := fst (Importer_new fs importers steps h0) in
  let h1 := snd (Importer_new fs importers steps h0) in
  valid_handler_calls fs this0 h1 calls →
  let this := fst (SetIOHandlers fs this0 h1 calls) in
  let h := snd (SetIOHandlers fs this0 h1 calls) in
  handler_ok fs this h
  ∧ ∀ flags ValidateDSProcess ScenePreprocessor_ProcessScene pFile pFlags,
      is_Some (ReadFile flags ValidateDSProcess ScenePreprocessor_ProcessScene
                 h this pFile pFlags).
Proof.
  intros this0 h1 Hvalid this h.
  assert (Hok : handler_ok fs this h).
  { subst this h.
    assert (H0 : handler_ok fs this0 h1).
    { subst this0 h1. unfold handler_ok. simpl. rewrite lookup_insert_eq.
      split; [eauto|reflexivity]. }
    clearbody this0 h1. revert this0 h1 H0 Hvalid.
    induction calls as [|p rest IH]; intros this0 h1 H0 Hvalid.
    - exact H0.
    - simpl in Hvalid. destruct Hvalid as [Hp Hrest].
      pose proof (SetIOHandler_handler_ok fs this0 h1 p H0 Hp) as H1.
      simpl. destruct (SetIOHandler fs this0 h1 p) as [this1 h2].
      apply IH; assumption. }
  split; [exact Hok|].
  intros flags V P pFile pFlags. destruct Hok as [[io Hio] _].
  unfold ReadFile. rewrite Hio. simpl. eauto.
Qed.

(** A handler of the caller, then null, then the handler of the caller
    again. *)
Lemma SetIOHandlers_handler_ok_witness :
  let h0 : gmap nat IOSystem := {[custom_ptr := custom_io]} in
  let this0 := fst (Importer_new sample_fs [] [] h0) in
  let h1 := snd (Importer_new sample_fs [] [] h0) in
  valid_handler_calls sample_fs this0 h1 [Some custom_ptr; None; Some custom_ptr]
  ∧ handler_ok sample_fs
      (fst (SetIOHandlers sample_fs this0 h1 [Some custom_ptr; None; Some custom_ptr]))
      (snd (SetIOHandlers sample_fs this0 h1 [Some custom_ptr; None; Some custom_ptr])).
Proof.
  intros h0 this0 h1.
  assert (Hvalid : valid_handler_calls sample_fs this0 h1
                     [Some custom_ptr; None; Some custom_ptr]).
  { split; [exists custom_io; vm_compute; reflexivity|]. split; [exact I|].
    split; [exists custom_io; vm_compute; reflexivity|exact I]. }
  split; [exact Hvalid|].
  exact (proj1 (SetIOHandlers_handler_ok sample_fs [] [] h0
                  [Some custom_ptr; None; Some custom_ptr] Hvalid)).
Defined.

(** X13: [SetIOHandler(NULL)] releases nothing: every object of the store,
    the handler that was installed included, exists afterwards as it was;
    the handler that the call installs is a new object. *)
Theorem SetIOHandler_null_releases_nothing (fs : string → bool)
    (this : Importer) (h : gmap nat IOSystem) :
  let this' := fst (SetIOHandler fs this h None) in
  let h' := snd (SetIOHandler fs this h None) in
  (∀ a obj, h !! a = Some obj → h' !! a = Some obj)
  ∧ h !! GetIOHandler this' = None
  ∧ (is_Some (h !! GetIOHandler this) → GetIOHandler this' ≠ GetIOHandler this).
Proof.
  simpl. unfold GetIOHandler. simpl.
  assert (Hfresh : h !! fresh (dom h) = None).
  { apply not_elem_of_dom. apply is_fresh. }
  split; [|split].
  - intros a obj Ha. rewrite lookup_insert_ne; [exact Ha|].
    intros <-. congruence.
  - exact Hfresh.
  - intros [obj Hobj] Heq. rewrite Heq in Hfresh. congruence.
Qed.

(** The default handler of the examples survives a reset to null. *)
Lemma SetIOHandler_null_releases_nothing_witness :
  is_Some (sample_store !! GetIOHandler sample_this)
  ∧ GetIOHandler (fst (SetIOHandler sample_fs sample_this sample_store None))
    ≠ GetIOHandler sample_this.
Proof.
  assert (Hlive : is_Some (sample_store !! GetIOHandler sample_this)).
  { exists (DefaultIOSystem sample_fs). reflexivity. }
  split; [exact Hlive|].
  exact (proj2 (proj2 (SetIOHandler_null_releases_nothing sample_fs sample_this
                         sample_store)) Hlive).
Defined.

(** X14: a copy of a dispatcher has the three property tables of the
    original, no scene, no error, and a default handler of its own: a new
    object, different from the handler of the original when that one
    exists.  Destroying the copy gives the store back as it was before the
    copy, so the original keeps its handler. *)
Theorem Importer_copy_spec (fs : string → bool) (importers : list BaseImporter)
    (steps : list BaseProcess) (other : Importer) (h : gmap nat IOSystem) :
  let copy := fst (Importer_copy fs importers steps other h) in
  let h' := snd (Importer_copy fs importers steps other h) in
  properties copy = properties other
  ∧ GetScene copy = None
  ∧ GetErrorString copy = EmptyString
  ∧ IsDefaultIOHandler copy = true
  ∧ h !! GetIOHandler copy = None
  ∧ h' !! GetIOHandler copy = Some (DefaultIOSystem fs)
  ∧ (is_Some (h !! GetIOHandler other) → GetIOHandler copy ≠ GetIOHandler other)
  ∧ Importer_delete copy h' = Some h.
Proof.
  unfold Importer_copy, Importer_delete, GetIOHandler. simpl.
  assert (Hfresh : h !! fresh (dom h) = None).
  { apply not_elem_of_dom. apply is_fresh. }
  repeat (split; [reflexivity|]). split; [exact Hfresh|].
  rewrite lookup_insert_eq. split; [reflexivity|]. split.
  - intros [obj Hobj] Heq. rewrite Heq in Hfresh. congruence.
  - rewrite delete_insert_id by exact Hfresh. reflexivity.
Qed.

(** A copy of the dispatcher of the examples. *)
Lemma Importer_copy_spec_witness :
  is_Some (sample_store !! GetIOHandler sample_this)
  ∧ GetIOHandler (fst (Importer_copy sample_fs [] [] sample_this sample_store))
    ≠ GetIOHandler sample_this.
Proof.
  assert (Hlive : is_Some (sample_store !! GetIOHandler sample_this)).
  { exists (DefaultIOSystem sample_fs). reflexivity. }
  split; [exact Hlive|].
  pose proof (Importer_copy_spec sample_fs [] [] sample_this sample_store)
    as (_ & _ & _ & _ & _ & _ & Hne & _).
  exact (Hne Hlive).
Defined.



(** * More on the animation evaluator *)

Lemma SFltb_SFleb_trans_r (t a b : spec_float) :
  SFltb t a = true → SFleb a b = true → SFltb t b = true.
Proof.
  unfold SFleb, SFltb.
  destruct t as [st|st| |st mt et], a as [sa|sa| |sa ma ea],
           b as [sb|sb| |sb mb eb];
    simpl; try congruence;
    repeat match goal with
           | s : bool |- _ => destruct s
           end; simpl; try congruence;
    repeat match goal with
           | |- context [Z.compare ?x ?y] => destruct (Z.compare_spec x y)
           end; try congruence; try lia;
    repeat match goal with
           | |- context [PosDef.Pos.compare_cont Eq ?x ?y] =>
               change (PosDef.Pos.compare_cont Eq x y) with (Pos.compare x y);
               destruct (Pos.compare_spec x y)
           end; simpl; try congruence; try lia.
Qed.

(** A time before a key is before every later key. *)
Lemma ltb_leb_trans (t a b : float) :
  (t <? a)%float = true → (a <=? b)%float = true → (t <? b)%float = true.
Proof. rewrite leb_spec, !ltb_spec. apply SFltb_SFleb_trans_r. Qed.

Section TrackSelection.

Context {K : Type}.
Variable key_mTime : K → float.
Variable keys : list K.

(** On a sorted track, a time before a key is before the keys behind
    it. *)
Lemma sorted_keys_later (time : float) (i : nat) (ki : K) :
  sorted_keys key_mTime keys →
  keys !! i = Some ki → (time <? key_mTime ki)%float = true →
  ∀ j k, (i ≤ j)%nat → keys !! j = Some k → (time <? key_mTime k)%float = true.
Proof.
  intros Hsorted Hi Hlt j k Hij. revert k.
  induction Hij as [|j Hij IH]; intros k Hk.
  - congruence.
  - destruct (lookup_lt_is_Some_2 keys j) as [kj Hkj].
    { apply lookup_lt_Some in Hk. lia. }
    apply (ltb_leb_trans time (key_mTime kj)); [exact (IH kj Hkj)|].
    exact (Hsorted j kj k Hkj Hk).
Qed.

(** The search from frame 0 finds the frame of the track at the time. *)
Lemma evaluate_track_from_start_frame (time : float) (k : K) (r : nat) :
  (0 < length keys)%nat →
  evaluate_track_from_start key_mTime keys time = Some (k, r) →
  frame_at key_mTime keys time r.
Proof.
  intros Hlen. unfold evaluate_track_from_start.
  destruct (find_frame_spec key_mTime keys time (length keys) 0)
    as (r0 & Hr0 & _ & Hadv & Hstop & Hbound); [lia|].
  rewrite Hr0. simpl. destruct (keys !! r0) as [k0|] eqn:Hk0; [|discriminate].
  simpl. intros [= <- <-]. unfold frame_at.
  destruct keys as [|k1 keys'] eqn:Hkeys; [simpl in Hlen; lia|].
  rewrite <- Hkeys in *. clear Hkeys k1 keys'.
  assert (Hnext : ∀ k', keys !! S r0 = Some k' →
                        (time <? key_mTime k')%float = true).
  { intros k' Hk'. destruct (time <? key_mTime k')%float eqn:Hcmp; [reflexivity|].
    exfalso. apply Hstop. split.
    - apply lookup_lt_Some in Hk'. lia.
    - exists k'. rewrite Nat.add_1_r. done. }
  split; [eapply lookup_lt_Some; eauto|]. split; [|split; [exact Hnext|]].
  - intros j k' Hj Hk'. destruct j as [|j]; [lia|].
    destruct (Hadv j) as (_ & k'' & Hk'' & Hnot); [lia|].
    rewrite Nat.add_1_r in Hk''. congruence.
  - intros Hsorted j k' Hj Hk'.
    destruct (lookup_lt_is_Some_2 keys (S r0)) as [kn Hkn].
    { apply lookup_lt_Some in Hk'. lia. }
    apply (sorted_keys_later time (S r0) kn Hsorted Hkn (Hnext kn Hkn) j k');
      [lia|exact Hk'].
Qed.

End TrackSelection.

(** One track of the reference: the frame is the frame of the track at the
    time, and the value is the value of the key at this frame. *)
Lemma reference_slot_frame {K V : Type} (key_mTime : K → float)
    (key_mValue : K → V) (keys : list K) (dflt : V) (time : float)
    (v : V) (c : nat) :
  (if bool_decide (0 < length keys)%nat
   then p ← evaluate_track_from_start key_mTime keys time;
        Some (key_mValue (fst p), snd p)
   else Some (dflt, O)) = Some (v, c) →
  frame_at key_mTime keys time c ∧ v = present_value key_mValue keys dflt c.
Proof.
  case_bool_decide as Hlen.
  - destruct (evaluate_track_from_start key_mTime keys time) as [[k r]|] eqn:Hev;
      [|discriminate].
    simpl. intros [= <- <-]. split.
    + exact (evaluate_track_from_start_frame key_mTime keys time k r Hlen Hev).
    + unfold evaluate_track_from_start in Hev.
      destruct (find_frame key_mTime keys time (length keys) 0) as [r0|];
        [|discriminate].
      simpl in Hev. unfold present_value.
      destruct (keys !! r0) as [k0|] eqn:Hk0; [|discriminate].
      simpl in Hev. injection Hev as <- <-. rewrite Hk0. reflexivity.
  - intros [= <- <-]. destruct keys; [|simpl in Hlen; lia].
    split; reflexivity.
Qed.

Section EvaluateFrames.

Variable fmod : float → float → float.
Variable rotation_matrix : aiQuaternion → aiMatrix4x4.

Local Abbreviation Evaluate' := (Evaluate fmod rotation_matrix).
Local Abbreviation Evaluates' := (Evaluates fmod rotation_matrix).

Lemma reference_channel_frames (time : float) (channel : aiNodeAnim)
    (mat : aiMatrix4x4) (last : nat * nat * nat) :
  reference_channel rotation_matrix time channel = Some (mat, last) →
  channel_frames_at time channel last ∧ mat = transform_at rotation_matrix channel last.
Proof.
  unfold reference_channel, evaluate_channel_with,
    mNumPositionKeys, mNumRotationKeys, mNumScalingKeys.
  intros H.
  destruct (if bool_decide (0 < length (mPositionKeys channel))%nat then _ else _)
    as [[vp cp]|] eqn:Hp in H; [|discriminate].
  simpl in H.
  destruct (if bool_decide (0 < length (mRotationKeys channel))%nat then _ else _)
    as [[vr cr]|] eqn:Hr in H; [|discriminate].
  simpl in H.
  destruct (if bool_decide (0 < length (mScalingKeys channel))%nat then _ else _)
    as [[vs cs]|] eqn:Hs in H; [|discriminate].
  simpl in H. injection H as <- <-.
  apply reference_slot_frame in Hp as [Hp ->].
  apply reference_slot_frame in Hr as [Hr ->].
  apply reference_slot_frame in Hs as [Hs ->].
  split; [split; [|split]; assumption|reflexivity].
Qed.

(** What a call leaves of the animation and of the time. *)
Lemma Evaluate_mLastTime (this this' : AnimEvaluator) (pTime : float) :
  Evaluate' this pTime = Some this' →
  mAnim this' = mAnim this
  ∧ mLastTime this' = mapped_time fmod (mAnim this) (ticks (mAnim this) pTime).
Proof.
  unfold Evaluate, Evaluate_ticks.
  destruct (for_loop _ _ _ _) as [st|]; [|discriminate].
  simpl. intros [= <-]. split; reflexivity.
Qed.

Lemma Evaluates_app (this : AnimEvaluator) (times1 times2 : list float) :
  Evaluates' this (times1 ++ times2)
  = this' ← Evaluates' this times1; Evaluates' this' times2.
Proof.
  revert this. induction times1 as [|t times1 IH]; intros this; [reflexivity|].
  simpl. destruct (Evaluate' this t) as [this1|]; [|reflexivity].
  simpl. apply IH.
Qed.

(** On an evaluator whose cache agrees with its last time, what a call
    leaves depends on the time in the duration only. *)
Lemma Evaluate_determined (anim : aiAnimation) (this1 this2 : AnimEvaluator)
    (p q : float) :
  evaluator_inv anim this1 → evaluator_inv anim this2 →
  mapped_time fmod anim (ticks anim q) = mapped_time fmod anim (ticks anim p) →
  ∃ this',
    Evaluate' this1 p = Some this' ∧ Evaluate' this2 q = Some this'
    ∧ evaluator_inv anim this'.
Proof.
  intros Hinv1 Hinv2 Htime.
  destruct (Evaluate_step fmod rotation_matrix anim this1 p Hinv1)
    as (r1 & refs1 & Hev1 & Href1 & Htr1 & Hlp1 & Hr1).
  destruct (Evaluate_step fmod rotation_matrix anim this2 q Hinv2)
    as (r2 & refs2 & Hev2 & Href2 & Htr2 & Hlp2 & Hr2).
  unfold Evaluate_reference in Href1, Href2. rewrite Htime, Href1 in Href2.
  injection Href2 as <-.
  destruct (Evaluate_mLastTime this1 r1 p Hev1) as [Ha1 Ht1].
  destruct (Evaluate_mLastTime this2 r2 q Hev2) as [Ha2 Ht2].
  destruct Hinv1 as [Hanim1 _], Hinv2 as [Hanim2 _].
  rewrite Hanim1 in Ha1, Ht1. rewrite Hanim2 in Ha2, Ht2. rewrite Htime in Ht2.
  exists r1. split; [exact Hev1|]. split; [|exact Hr1].
  rewrite Hev2. f_equal. destruct r1, r2. simpl in *. congruence.
Qed.

(** X16: after any sequence of [Evaluate] calls, a further call returns and
    leaves one transformation and one entry of frames per channel; the
    frames of every channel are the frames of its tracks at the time to
    which the call maps the time stamp: 0 on a track without keys,
    otherwise a key of the track such that the time is before none of the
    keys 1 to the frame and before the key behind the frame (on a track
    with non-decreasing key times, before every key behind it); the
    transformation of the channel is built from the values of the keys at
    these frames (the defaults for tracks without keys), and the time is
    what the call leaves as the last time. *)
Theorem Evaluate_frames (anim : aiAnimation) (times : list float)
    (pTime : float) :
  ∃ this this',
    Evaluates' (AnimEvaluator_new anim) times = Some this
    ∧ Evaluate' this pTime = Some this'
    ∧ mLastTime this' = mapped_time fmod anim (ticks anim pTime)
    ∧ length (mLastPositions this') = mNumChannels anim
    ∧ length (mTransforms this') = mNumChannels anim
    ∧ ∀ (a : nat) (channel : aiNodeAnim),
        mChannels anim !! a = Some channel →
        ∃ last,
          mLastPositions this' !! a = Some last
          ∧ channel_frames_at (mLastTime this') channel last
          ∧ mTransforms this' !! a = Some (transform_at rotation_matrix channel last).
Proof.
  destruct (Evaluates_inv fmod rotation_matrix anim times (AnimEvaluator_new anim)
              (evaluator_inv_new anim)) as (this & Hevs & Hinv).
  destruct (Evaluate_step fmod rotation_matrix anim this pTime Hinv)
    as (this' & refs & Hev & Href & Htr & Hlp & _).
  destruct (Evaluate_mLastTime this this' pTime Hev) as [_ Ht].
  destruct Hinv as [Hanim _]. rewrite Hanim in Ht.
  unfold Evaluate_reference in Href. apply mapM_Some in Href.
  exists this, this'. split; [exact Hevs|]. split; [exact Hev|].
  split; [exact Ht|].
  split; [rewrite Hlp, length_fmap; symmetry; exact (Forall2_length _ _ _ Href)|].
  split; [rewrite Htr, length_fmap; symmetry; exact (Forall2_length _ _ _ Href)|].
  intros a channel Hch.
  destruct (Forall2_lookup_l _ _ _ _ _ Href Hch) as ([mat last] & Hrefs & Hrc).
  apply reference_channel_frames in Hrc as [Hframes ->].
  exists last. rewrite Ht, Hlp, Htr, !list_lookup_fmap, Hrefs. simpl. done.
Qed.

(** X17: a call of [Evaluate] whose time stamp maps to the time of the
    previous call changes nothing: after any sequence of calls that ends
    with the time stamp [p], a call with a time stamp [q] of the same time
    in the duration returns and leaves the evaluator as it is. *)
Theorem Evaluate_same_time (anim : aiAnimation) (times : list float)
    (p q : float) :
  mapped_time fmod anim (ticks anim q) = mapped_time fmod anim (ticks anim p) →
  ∃ this',
    Evaluates' (AnimEvaluator_new anim) (times ++ [p]) = Some this'
    ∧ Evaluate' this' q = Some this'.
Proof.
  intros Htime.
  destruct (Evaluates_inv fmod rotation_matrix anim times (AnimEvaluator_new anim)
              (evaluator_inv_new anim)) as (this & Hevs & Hinv).
  destruct (Evaluate_determined anim this this p p Hinv Hinv eq_refl)
    as (this' & Hev & _ & Hinv').
  exists this'. split.
  - rewrite Evaluates_app, Hevs. simpl. rewrite Hev. reflexivity.
  - destruct (Evaluate_determined anim this this' p q Hinv Hinv' Htime)
      as (r & Hr1 & Hr2 & _).
    congruence.
Qed.

(** X18: an animation whose duration is not greater than 0 (0, a negative
    value such as -1, or a NaN) is evaluated at time 0 whatever the time
    stamps are: every non-empty sequence of calls leaves the evaluator in
    the state that one call leaves, with any time stamp. *)
Theorem Evaluate_without_duration (anim : aiAnimation) (times : list float)
    (p q : float) :
  (0 <? mDuration anim)%float = false →
  ∃ this',
    Evaluate' (AnimEvaluator_new anim) q = Some this'
    ∧ Evaluates' (AnimEvaluator_new anim) (p :: times) = Some this'
    ∧ mLastTime this' = 0%float.
Proof.
  intros Hdur.
  assert (Hmapped : ∀ t1 t2, mapped_time fmod anim (ticks anim t1)
                             = mapped_time fmod anim (ticks anim t2)).
  { intros t1 t2. unfold mapped_time. rewrite Hdur. reflexivity. }
  pose proof (evaluator_inv_new anim) as Hnew.
  destruct (Evaluate_determined anim _ _ q p Hnew Hnew (Hmapped p q))
    as (this' & Hq & Hp & Hinv').
  exists this'. split; [exact Hq|]. split.
  - simpl. rewrite Hp. simpl. clear Hp.
    induction times as [|t times IH]; [reflexivity|].
    simpl.
    destruct (Evaluate_determined anim _ this' q t Hnew Hinv' (Hmapped t q))
      as (r & Hr1 & Hr2 & _).
    rewrite Hr2. simpl. replace r with this' by congruence. exact IH.
  - destruct (Evaluate_mLastTime _ _ _ Hq) as [_ Ht]. simpl in Ht.
    rewrite Ht. unfold mapped_time. rewrite Hdur. reflexivity.
Qed.

End EvaluateFrames.

(** A time stamp and the time stamp one duration later (5 s at 2 ticks per
    second), after an earlier call. *)
Lemma Evaluate_same_time_witness :
  mapped_time sample_fmod slow_animation (ticks slow_animation 5.5%float)
  = mapped_time sample_fmod slow_animation (ticks slow_animation 0.5%float)
  ∧ ∃ this',
      sample_Evaluates (AnimEvaluator_new slow_animation)
        ([0.125%float] ++ [0.5%float]) = Some this'
      ∧ sample_Evaluate this' 5.5%float = Some this'.
Proof.
  split; [vm_compute; reflexivity|].
  apply (Evaluate_same_time sample_fmod quaternion_matrix slow_animation
           [0.125%float] 0.5%float 5.5%float).
  vm_compute. reflexivity.
Defined.

(** An animation of duration -1. *)
Lemma Evaluate_without_duration_witness :
  (0 <? mDuration still_animation)%float = false
  ∧ ∃ this',
      sample_Evaluate (AnimEvaluator_new still_animation) 0%float = Some this'
      ∧ sample_Evaluates (AnimEvaluator_new still_animation)
          (0.5%float :: [0.125%float; 0.0625%float]) = Some this'
      ∧ mLastTime this' = 0%float.
Proof.
  split; [reflexivity|].
  apply (Evaluate_without_duration sample_fmod quaternion_matrix still_animation
           [0.125%float; 0.0625%float] 0.5%float 0%float).
  reflexivity.
Defined.

(** * The constructor and the magic numbers *)

Lemma elem_of_push_back_unless {A : Type} (NO : bool) (x s : A) :
  s ∈ push_back_unless NO x → s = x.
Proof.
  unfold push_back_unless. destruct NO; intros H.
  - apply elem_of_nil in H. contradiction.
  - apply list_elem_of_singleton in H. exact H.
Qed.

Lemma sublist_push_back_unless {A : Type} (NO : bool) (x : A) (l k : list A) :
  sublist l k → sublist (push_back_unless NO x ++ l) (x :: k).
Proof.
  intros H. unfold push_back_unless. destruct NO; simpl.
  - apply sublist_cons. exact H.
  - apply sublist_skip. exact H.
Qed.

Lemma sublist_push_back_unless_last {A : Type} (NO : bool) (x : A) :
  sublist (push_back_unless NO x) [x].
Proof.
  unfold push_back_unless. destruct NO.
  - apply sublist_nil_l.
  - reflexivity.
Qed.

(** The cases of a step that is in one of several optional positions. *)
Ltac step_cases H :=
  match type of H with
  | _ ∨ _ => destruct H as [H|H]; [step_cases H|step_cases H]
  | _ => apply elem_of_push_back_unless in H as ->; done
  end.

(** X19: whatever steps the build leaves out, the pipeline of a new
    dispatcher keeps the order of the full build and names no step twice;
    it computes the spatial sort once and destroys it once, later; the steps
    between the two are among the generation of vertex normals, the
    calculation of tangents and the joining of vertices, and none of these
    five steps is anywhere else in the pipeline. *)
Theorem constructor_steps_spatial_sort (cfg : BuildConfig) :
  sublist (constructor_steps cfg) (constructor_steps full_build)
  ∧ NoDup (constructor_steps cfg)
  ∧ ∃ pre mid post,
      constructor_steps cfg
      = pre ++ ComputeSpatialSortProcess :: mid
            ++ DestroySpatialSortProcess :: post
      ∧ (∀ s, s ∈ mid → spatial_sort_user s = true)
      ∧ (∀ s, s ∈ pre ++ post →
              spatial_sort_user s = false
              ∧ s ≠ ComputeSpatialSortProcess ∧ s ≠ DestroySpatialSortProcess).
Proof.
  assert (Hsub : sublist (constructor_steps cfg) (constructor_steps full_build)).
  { let full := eval vm_compute in (constructor_steps full_build) in
    change (constructor_steps full_build) with full.
    unfold constructor_steps.
    repeat first [ apply sublist_push_back_unless_last
                 | apply sublist_push_back_unless
                 | apply sublist_skip ]. }
  split; [exact Hsub|]. split.
  { eapply sublist_NoDup; [|exact Hsub]. vm_compute.
    repeat (apply NoDup_cons; split;
            [rewrite ?elem_of_cons, elem_of_nil; intros H;
             repeat (destruct H as [H|H]; [discriminate|]); exact H|]).
    apply NoDup_nil_2. }
  exists
    (push_back_unless (AI_BUILD_NO_REMOVEVC_PROCESS cfg) RemoveVCProcess
     ++ push_back_unless (AI_BUILD_NO_REMOVE_REDUNDANTMATERIALS_PROCESS cfg)
          RemoveRedundantMatsProcess
     ++ push_back_unless (AI_BUILD_NO_FINDINSTANCES_PROCESS cfg) FindInstancesProcess
     ++ push_back_unless (AI_BUILD_NO_FINDDEGENERATES_PROCESS cfg) FindDegeneratesProcess
     ++ push_back_unless (AI_BUILD_NO_GENUVCOORDS_PROCESS cfg) ComputeUVMappingProcess
     ++ push_back_unless (AI_BUILD_NO_TRANSFORMTEXCOORDS_PROCESS cfg) TextureTransformStep
     ++ push_back_unless (AI_BUILD_NO_PRETRANSFORMVERTICES_PROCESS cfg) PretransformVertices
     ++ push_back_unless (AI_BUILD_NO_TRIANGULATE_PROCESS cfg) TriangulateProcess
     ++ push_back_unless (AI_BUILD_NO_SORTBYPTYPE_PROCESS cfg) SortByPTypeProcess
     ++ push_back_unless (AI_BUILD_NO_FINDINVALIDDATA_PROCESS cfg) FindInvalidDataProcess
     ++ push_back_unless (AI_BUILD_NO_FIXINFACINGNORMALS_PROCESS cfg)
          FixInfacingNormalsProcess
     ++ push_back_unless (AI_BUILD_NO_SPLITLARGEMESHES_PROCESS cfg)
          SplitLargeMeshesProcess_Triangle
     ++ push_back_unless (AI_BUILD_NO_GENFACENORMALS_PROCESS cfg) GenFaceNormalsProcess),
    (push_back_unless (AI_BUILD_NO_GENVERTEXNORMALS_PROCESS cfg) GenVertexNormalsProcess
     ++ push_back_unless (AI_BUILD_NO_CALCTANGENTS_PROCESS cfg) CalcTangentsProcess
     ++ push_back_unless (AI_BUILD_NO_JOINVERTICES_PROCESS cfg) JoinVerticesProcess),
    (push_back_unless (AI_BUILD_NO_SPLITLARGEMESHES_PROCESS cfg)
       SplitLargeMeshesProcess_Vertex
     ++ push_back_unless (AI_BUILD_NO_MAKELEFTHANDED_PROCESS cfg) MakeLeftHandedProcess
     ++ push_back_unless (AI_BUILD_NO_FLIPUVS_PROCESS cfg) FlipUVsProcess
     ++ push_back_unless (AI_BUILD_NO_FLIPWINDINGORDER_PROCESS cfg) FlipWindingOrderProcess
     ++ push_back_unless (AI_BUILD_NO_LIMITBONEWEIGHTS_PROCESS cfg) LimitBoneWeightsProcess
     ++ push_back_unless (AI_BUILD_NO_IMPROVECACHELOCALITY_PROCESS cfg)
          ImproveCacheLocalityProcess).
  split; [|split].
  - unfold constructor_steps. rewrite <- !app_assoc. reflexivity.
  - intros s. rewrite !elem_of_app. intros H. step_cases H.
  - intros s. rewrite !elem_of_app. intros H. step_cases H.
Qed.

(** X20: for characters in the range of 7-bit codes at position 0 and of
    8-bit codes at the other positions, the magic number holds the four
    characters from the most significant byte to the least significant
    one, whatever the byte order of the machine is: each character is read
    back from its byte of the number, so tags that differ give numbers
    that differ. *)
Theorem AI_MAKE_MAGIC_bytes (s0 s1 s2 s3 : Z) :
  0 ≤ s0 < 128 → 0 ≤ s1 < 256 → 0 ≤ s2 < 256 → 0 ≤ s3 < 256 →
  Z.shiftr (AI_MAKE_MAGIC s0 s1 s2 s3) 24 = s0
  ∧ Z.land (Z.shiftr (AI_MAKE_MAGIC s0 s1 s2 s3) 16) 255 = s1
  ∧ Z.land (Z.shiftr (AI_MAKE_MAGIC s0 s1 s2 s3) 8) 255 = s2
  ∧ Z.land (AI_MAKE_MAGIC s0 s1 s2 s3) 255 = s3.
Proof.
  assert (Hvalue : ∀ a b c d : Z,
            0 ≤ a < 128 → 0 ≤ b < 256 → 0 ≤ c < 256 → 0 ≤ d < 256 →
            AI_MAKE_MAGIC a b c d = a * 16777216 + b * 65536 + c * 256 + d).
  { intros a b c d Ha Hb Hc Hd. unfold AI_MAKE_MAGIC, wrap32.
    rewrite !Z.shiftl_mul_pow2 by lia.
    change (2 ^ 24) with 16777216. change (2 ^ 16) with 65536.
    change (2 ^ 8) with 256. change (2 ^ 32) with 4294967296.
    apply Z.mod_small. lia. }
  intros H0 H1 H2 H3. rewrite (Hvalue s0 s1 s2 s3) by assumption.
  change 255 with (Z.ones 8). rewrite !Z.land_ones, !Z.shiftr_div_pow2 by lia.
  change (2 ^ 24) with 16777216. change (2 ^ 16) with 65536.
  change (2 ^ 8) with 256.
  split; [|split; [|split]].
  - symmetry. apply (Z.div_unique _ _ _ (s1 * 65536 + s2 * 256 + s3)); lia.
  - symmetry. apply (Z.mod_unique _ _ s0); [lia|].
    symmetry. symmetry.
    replace ((s0 * 16777216 + s1 * 65536 + s2 * 256 + s3) / 65536)
      with (s0 * 256 + s1); [lia|].
    apply (Z.div_unique _ _ _ (s2 * 256 + s3)); lia.
  - symmetry. apply (Z.mod_unique _ _ (s0 * 256 + s1)); [lia|].
    replace ((s0 * 16777216 + s1 * 65536 + s2 * 256 + s3) / 256)
      with (s0 * 65536 + s1 * 256 + s2); [lia|].
    apply (Z.div_unique _ _ _ s3); lia.
  - symmetry. apply (Z.mod_unique _ _ (s0 * 65536 + s1 * 256 + s2)); lia.
Qed.

(** The tag of the MD2 files, the characters I, D, P and 2. *)
Lemma AI_MAKE_MAGIC_bytes_witness :
  Z.shiftr (AI_MAKE_MAGIC 73 68 80 50) 24 = 73
  ∧ Z.land (Z.shiftr (AI_MAKE_MAGIC 73 68 80 50) 16) 255 = 68
  ∧ Z.land (Z.shiftr (AI_MAKE_MAGIC 73 68 80 50) 8) 255 = 80
  ∧ Z.land (AI_MAKE_MAGIC 73 68 80 50) 255 = 50.
Proof. apply (AI_MAKE_MAGIC_bytes 73 68 80 50); lia. Defined.
